(** * BotRoulette helper templates: a shallow embedding and its properties

  The repository ships three small Node.js programs:
  - the responder servers ([generic-template/server.js],
    [openclaw-template/server_http_api.js] and the inbox/outbox [server.js]
    of the OpenClaw guide), which share one sliding-window [rateLimit];
  - the tunnel client ([generic-template/tunnel.js]);
  - the mailbox bridge (the guide's [server.js] forwarder and
    [openclaw-template/bridge.js]).

  Each is embedded below as functions over explicit state.  Callbacks become
  handlers [State -> State]; what the Node.js runtime does (which event may
  fire when) is a separate, explicitly marked environment relation.

  After them come the helpers of the OpenClaw guide -- the LLM call limiter
  [canCallLLM], the conversation store ([getHistory], [addToHistory]) and
  the outbound [ConversationManager] -- and [handleChat] of the two
  responders that answer on their own, [generic-template/server.js] and
  [openclaw-template/server_http_api.js] with its [callOpenClaw]. *)

From Stdlib Require Import ZArith Lia.
From stdpp Require Import base tactics option list strings pretty gmap.

Local Open Scope Z_scope.

(* ===================================================================== *)
(** * The JavaScript values the programs handle                           *)
(* ===================================================================== *)

Module JS.

(** What [JSON.parse] returns.  Numbers are whatever the engine's doubles
    are ([number]); the programs never compute with them.  An object is
    its own properties in order, each key once. *)
#[warnings="-register-all"] Inductive JSON (number : Type) : Type :=
| JNull
| JBool (b : bool)
| JNum (n : number)
| JStr (s : string)
| JArr (items : list (JSON number))
| JObj (props : list (string * JSON number)).
Arguments JNull {number}.
Arguments JBool {number} b.
Arguments JNum {number} n.
Arguments JStr {number} s.
Arguments JArr {number} items.
Arguments JObj {number} props.

(** The built-ins the programs call and this development does not
    re-implement. *)
Record Runtime := {
  number : Type;
  (** [+0], [-0] and [NaN] *)
  number_falsy : number → bool;
  (** [JSON.stringify] on a parsed value *)
  JSON_stringify : JSON number → string;
  (** [Buffer.byteLength] *)
  byteLength : string → Z;
  (** [String(v)], as a template literal applies it, on a value that is not
      a string *)
  String_of : JSON number → string;
  (** [String.prototype.trim] *)
  trim : string → string;
  (** [s.length]: the number of UTF-16 code units of a string *)
  String_length : string → Z;
  (** [s.substring(start, end)], counting UTF-16 code units *)
  substring : Z → Z → string → string;
  (** [INVALID_PATH_REGEX.test(path)], the check [http.request] makes on
      its [path] option: some character lies outside U+0021..U+00FF *)
  INVALID_PATH_REGEX : string → bool;
  (** [checkIsHttpToken(method)], the check [http.request] makes on its
      [method] option *)
  checkIsHttpToken : string → bool;
}.

Section Values.
Context {number : Type}.
Implicit Type j : JSON number.

Fixpoint assoc (k : string) (props : list (string * JSON number))
  : option (JSON number) :=
  match props with
  | [] => None
  | (k', v) :: rest => if String.eqb k k' then Some v else assoc k rest
  end.

(** [j.k] for [j] other than [null], and [k] one of the property names
    the programs read ([type], [id], [body], [reply], ...): none of them
    exists on a string, number, boolean or array.  [None] is
    [undefined]. *)
Definition prop (j : JSON number) (k : string) : option (JSON number) :=
  match j with
  | JObj props => assoc k props
  | _ => None
  end.

(** [x === 'lit'] *)
Definition is_str (x : option (JSON number)) (lit : string) : bool :=
  match x with
  | Some (JStr s) => String.eqb s lit
  | _ => false
  end.

End Values.

(** Truthiness of a value that may be [undefined]. *)
Definition truthy (rt : Runtime) (x : option (JSON (number rt))) : bool :=
  match x with
  | None | Some JNull => false
  | Some (JBool b) => b
  | Some (JNum n) => negb (number_falsy rt n)
  | Some (JStr s) => negb (String.eqb s EmptyString)
  | Some (JArr _) | Some (JObj _) => true
  end.

(** [x || lit] with a string literal on the right. *)
Definition or_str (rt : Runtime) (x : option (JSON (number rt))) (lit : string)
  : JSON (number rt) :=
  match x with
  | Some v => if truthy rt x then v else JStr lit
  | None => JStr lit
  end.

(** [String.prototype.toLowerCase] on the ASCII letters. *)
Definition lower_ascii (c : Ascii.ascii) : Ascii.ascii :=
  let n := Ascii.N_of_ascii c in
  if ((65 <=? n) && (n <=? 90))%N then Ascii.ascii_of_N (n + 32) else c.

Fixpoint toLowerCase (s : string) : string :=
  match s with
  | EmptyString => EmptyString
  | String c rest => String (lower_ascii c) (toLowerCase rest)
  end.

(** [o[k] = v] on an object literal, [v] a string: [__proto__] names the
    prototype accessor, which ignores a string and creates no property. *)
Definition obj_set (k v : string) (o : gmap string string) : gmap string string :=
  if String.eqb k "__proto__" then o else <[k := v]> o.

(** ** A runtime to compute with

    Numbers are integers; the serializer writes them in decimal and escapes
    the quote and the backslash in strings.  It serves the worked examples;
    the theorems hold for every [Runtime]. *)

Definition quote_char : Ascii.ascii := Ascii.ascii_of_N 34.
Definition backslash_char : Ascii.ascii := Ascii.ascii_of_N 92.

Fixpoint escape (s : string) : string :=
  match s with
  | EmptyString => EmptyString
  | String c rest =>
      if Ascii.eqb c quote_char || Ascii.eqb c backslash_char
      then String backslash_char (String c (escape rest))
      else String c (escape rest)
  end.

Definition quoted (s : string) : string :=
  String quote_char (escape s +:+ String quote_char EmptyString).

Fixpoint stringify (j : JSON Z) : string :=
  match j with
  | JNull => "null"
  | JBool b => if b then "true" else "false"
  | JNum n => pretty n
  | JStr s => quoted s
  | JArr items => "[" +:+ String.concat "," (map stringify items) +:+ "]"
  | JObj props =>
      "{" +:+ String.concat ","
                (map (λ kv, quoted kv.1 +:+ ":" +:+ stringify kv.2) props)
          +:+ "}"
  end.

(** [String(v)]: an array joins its items, [null] among them as nothing. *)
Fixpoint show (j : JSON Z) : string :=
  match j with
  | JNull => "null"
  | JBool b => if b then "true" else "false"
  | JNum n => pretty n
  | JStr s => s
  | JArr items =>
      String.concat ","
        (map (λ v, match v with JNull => EmptyString | _ => show v end) items)
  | JObj _ => "[object Object]"
  end.

Fixpoint trim_left (s : string) : string :=
  match s with
  | String c rest => if Ascii.is_space c then trim_left rest else s
  | EmptyString => EmptyString
  end.

Definition trim_ascii (s : string) : string :=
  String.rev (trim_left (String.rev (trim_left s))).

(** A character [http.request] refuses in a path: a blank or a control
    character, code 32 or less (the characters beyond U+00FF do not occur
    in the examples). *)
Definition blank_or_control (c : Ascii.ascii) : bool :=
  match c with
  | Ascii.Ascii b0 b1 b2 b3 b4 b5 b6 b7 =>
      negb (b6 || b7) && (negb b5 || negb (b0 || b1 || b2 || b3 || b4))
  end.

(** The characters of an HTTP token. *)
Definition token_chars : string :=
  "abcdefghijklmnopqrstuvwxyzABCDEFGHIJKLMNOPQRSTUVWXYZ0123456789^_`-!#$%&'*+.|~".

Definition token_char (c : Ascii.ascii) : bool :=
  existsb (Ascii.eqb c) (String.list_ascii_of_string token_chars).

Definition is_token (s : string) : bool :=
  negb (String.eqb s EmptyString) && forallb token_char (String.list_ascii_of_string s).

(** The strings of the examples are ASCII: one byte and one UTF-16 code
    unit per character. *)
Definition int_runtime : Runtime :=
  {| number := Z;
     number_falsy := Z.eqb 0;
     JSON_stringify := stringify;
     byteLength := λ s, Z.of_nat (String.length s);
     String_of := show;
     trim := trim_ascii;
     String_length := λ s, Z.of_nat (String.length s);
     substring := λ i j s, String.substring (Z.to_nat i) (Z.to_nat (j - i)) s;
     INVALID_PATH_REGEX := λ s, existsb blank_or_control (String.list_ascii_of_string s);
     checkIsHttpToken := is_token |}.

End JS.

(* ===================================================================== *)
(** * Responder servers: [rateLimit]                                      *)
(* ===================================================================== *)

Module RateLimit.

(** [const hits = {}]: the module-level object, from caller address to the
    array of times (ms, [Date.now()]) of that caller's accepted requests.
    [ip] is [req.ip], an address string. *)
Abbreviation Hits := (gmap string (list Z)).

Definition WINDOW_MS : Z := 60000.
Definition MAX_HITS : nat := 30.

(** [t => now - t < 60000] *)
Definition fresh (now t : Z) : Prop := now - t < WINDOW_MS.

#[global] Instance fresh_dec now t : Decision (fresh now t).
Proof. unfold fresh. apply _. Defined.

(** [hits[ip]] once line 35 has run: a missing entry reads as [[]]. *)
Definition window (hits : Hits) (ip : string) : list Z :=
  default [] (hits !! ip).

(** [function rateLimit(ip)]; [now] is the value [Date.now()] returns.
    The result pairs the returned boolean with the updated [hits]. *)
Definition rateLimit (ip : string) (now : Z) (hits : Hits) : bool * Hits :=
  (* if (!hits[ip]) hits[ip] = []; *)
  let hits1 := match hits !! ip with
               | None => <[ip := []]> hits
               | Some _ => hits
               end in
  (* hits[ip] = hits[ip].filter(t => now - t < 60000); *)
  let kept := filter (fresh now) (window hits1 ip) in
  let hits2 := <[ip := kept]> hits1 in
  (* if (hits[ip].length >= 30) return true; *)
  if bool_decide (MAX_HITS ≤ length kept)%nat then (true, hits2)
  (* hits[ip].push(now); return false; *)
  else (false, <[ip := kept ++ [now]]> hits2).

(** One call as the server sees it: who called and when. *)
Record Call := { c_ip : string; c_now : Z }.

(** The server's life: calls in order of arrival, threading [hits]; the
    log keeps every call with the boolean it got back. *)
Fixpoint serve (calls : list Call) (hits : Hits) (log : list (Call * bool))
  : Hits * list (Call * bool) :=
  match calls with
  | [] => (hits, log)
  | c :: rest =>
      let '(limited, hits') := rateLimit (c_ip c) (c_now c) hits in
      serve rest hits' (log ++ [(c, limited)])
  end.

(** Times of the accepted (not limited) requests of [ip], oldest first. *)
Definition accepted (ip : string) (log : list (Call * bool)) : list Z :=
  omap (λ e, if bool_decide (c_ip e.1 = ip) && negb e.2
             then Some (c_now e.1) else None) log.

(** A clock that never runs backwards: each reading is at least the one
    before it. *)
Fixpoint nondecreasing (ts : list Z) : Prop :=
  match ts with
  | t :: ((t' :: _) as rest) => t ≤ t' ∧ nondecreasing rest
  | _ => True
  end.

(** [Date.now()] over the calls served so far, then at the call in hand. *)
Definition clock_ok (calls : list Call) (now : Z) : Prop :=
  nondecreasing (map c_now calls ++ [now]).

(** [hits] as some sequence of calls leaves it, starting from [{}]. *)
Definition reachable (hits : Hits) : Prop :=
  ∃ calls, (serve calls ∅ []).1 = hits.

(** ** Facts about one call *)

Lemma window_insert hits ip w : window (<[ip := w]> hits) ip = w.
Proof. unfold window. by rewrite lookup_insert_eq. Qed.

Lemma window_insert_ne hits ip ip' w :
  ip ≠ ip' → window (<[ip := w]> hits) ip' = window hits ip'.
Proof. intros. unfold window. by rewrite lookup_insert_ne. Qed.

Lemma window_touch hits ip :
  window (match hits !! ip with
          | None => <[ip := []]> hits
          | Some _ => hits
          end) ip = window hits ip.
Proof.
  unfold window. destruct (hits !! ip) eqn:E; rewrite ?E; [done|].
  by rewrite lookup_insert_eq.
Qed.

Lemma rateLimit_result ip now hits :
  (rateLimit ip now hits).1
  = bool_decide (MAX_HITS ≤ length (filter (fresh now) (window hits ip)))%nat.
Proof.
  unfold rateLimit. rewrite window_touch.
  by destruct (bool_decide _).
Qed.

Lemma rateLimit_window ip now hits :
  window (rateLimit ip now hits).2 ip
  = filter (fresh now) (window hits ip)
      ++ (if (rateLimit ip now hits).1 then [] else [now]).
Proof.
  unfold rateLimit. rewrite window_touch.
  destruct (bool_decide _); simpl; rewrite window_insert;
    [by rewrite app_nil_r | done].
Qed.

Lemma rateLimit_window_ne ip ip' now hits :
  ip ≠ ip' → window (rateLimit ip now hits).2 ip' = window hits ip'.
Proof.
  intros Hne. unfold rateLimit.
  destruct (bool_decide _); simpl; rewrite !window_insert_ne by done;
    destruct (hits !! ip); by rewrite ?window_insert_ne.
Qed.

Lemma filter_all_kept {A} (P : A → Prop) `{!∀ x, Decision (P x)} (l : list A) :
  (length l ≤ length (filter P l))%nat → filter P l = l.
Proof.
  induction l as [|x l IH]; [done|]. intros Hlen.
  rewrite filter_cons in *. destruct (decide (P x)); simpl in *.
  - f_equal. apply IH. lia.
  - pose proof (length_filter P l). lia.
Qed.

(** ** Invariants of the served history *)

(** No window ever holds more than [MAX_HITS] times. *)
Definition bounded (hits : Hits) : Prop :=
  ∀ ip, (length (window hits ip) ≤ MAX_HITS)%nat.

Lemma bounded_empty : bounded ∅.
Proof. intros ip. unfold window. rewrite lookup_empty. simpl. lia. Qed.

Lemma bounded_rateLimit ip now hits :
  bounded hits → bounded (rateLimit ip now hits).2.
Proof.
  intros Hb ip'. destruct (decide (ip = ip')) as [<-|Hne].
  - rewrite rateLimit_window, rateLimit_result, length_app.
    pose proof (length_filter (fresh now) (window hits ip)).
    specialize (Hb ip). case_bool_decide; simpl; lia.
  - rewrite rateLimit_window_ne by done. apply Hb.
Qed.

Lemma bounded_serve calls : ∀ hits log,
  bounded hits → bounded (serve calls hits log).1.
Proof.
  induction calls as [|c calls IH]; intros hits log Hb; simpl; [done|].
  destruct (rateLimit (c_ip c) (c_now c) hits) as [r hits'] eqn:E.
  apply IH. change hits' with (r, hits').2. rewrite <- E.
  by apply bounded_rateLimit.
Qed.

Lemma bounded_reachable hits : reachable hits → bounded hits.
Proof. intros [calls <-]. apply bounded_serve, bounded_empty. Qed.

(** Seen from any later instant, a window and the list of that caller's
    accepted requests agree on what lies in the trailing minute. *)
Definition agrees (T : Z) (hits : Hits) (log : list (Call * bool)) : Prop :=
  ∀ ip now, T ≤ now →
    filter (fresh now) (window hits ip) = filter (fresh now) (accepted ip log).

Lemma accepted_snoc ip log c r :
  accepted ip (log ++ [(c, r)])
  = accepted ip log
      ++ (if bool_decide (c_ip c = ip) && negb r then [c_now c] else []).
Proof.
  unfold accepted. rewrite omap_app. f_equal. simpl.
  by destruct (bool_decide (c_ip c = ip) && negb r).
Qed.

Lemma filter_fresh_later now now' (l : list Z) :
  now ≤ now' → filter (fresh now') (filter (fresh now) l) = filter (fresh now') l.
Proof.
  intros Hle. induction l as [|t l IH]; [done|].
  rewrite !filter_cons.
  destruct (decide (fresh now t)) as [Hf|Hf];
    destruct (decide (fresh now' t)) as [Hf'|Hf'];
    rewrite ?filter_cons; try destruct (decide (fresh now' t)); try done;
    try (by f_equal).
  unfold fresh in *. lia.
Qed.

Lemma agrees_rateLimit T hits log c :
  agrees T hits log → T ≤ c_now c →
  agrees (c_now c) (rateLimit (c_ip c) (c_now c) hits).2
         (log ++ [(c, (rateLimit (c_ip c) (c_now c) hits).1)]).
Proof.
  intros Hag HT ip now Hnow. rewrite accepted_snoc.
  destruct (decide (c_ip c = ip)) as [<-|Hne].
  - rewrite rateLimit_window, !filter_app, filter_fresh_later by done.
    rewrite Hag by lia. f_equal.
    rewrite bool_decide_eq_true_2 by done. simpl.
    by destruct (rateLimit _ _ _).1.
  - rewrite rateLimit_window_ne by done.
    rewrite bool_decide_eq_false_2 by done. simpl.
    rewrite app_nil_r. by apply Hag; lia.
Qed.

Lemma agrees_serve calls : ∀ T hits log ip now,
  agrees T hits log →
  nondecreasing (T :: map c_now calls ++ [now]) →
  filter (fresh now) (window (serve calls hits log).1 ip)
  = filter (fresh now) (accepted ip (serve calls hits log).2).
Proof.
  induction calls as [|c calls IH]; intros T hits log ip now Hag Hnd.
  - simpl in *. apply Hag. lia.
  - simpl in Hnd. destruct Hnd as [HT Hnd]. simpl.
    pose proof (agrees_rateLimit T hits log c Hag HT) as Hag'.
    destruct (rateLimit (c_ip c) (c_now c) hits) as [r hits'].
    by apply (IH (c_now c)).
Qed.

Lemma agrees_empty T : agrees T ∅ [].
Proof. intros ip now _. unfold window. by rewrite lookup_empty. Qed.

Lemma nondecreasing_dup t ts : nondecreasing (t :: ts) → nondecreasing (t :: t :: ts).
Proof. intros H. simpl. split; [lia|exact H]. Qed.

(** ** The claim *)

(** C10.  One call of [rateLimit(ip)] at time [now]: the window is first
    cut down to the times [t] with [now - t < 60000]; the call answers
    [true] exactly when at least 30 times are left, and then records
    nothing; otherwise it appends [now] and answers [false].  Hence a
    rejected request leaves [hits] as it was (in every state the server can
    be in), and a caller is limited exactly when 30 or more of its accepted
    requests fall in the trailing 60 seconds (the clock not running
    backwards). *)
Theorem rateLimit_sliding_window :
  (∀ ip now hits,
     let kept := filter (λ t, now - t < 60000) (window hits ip) in
     let limited := (rateLimit ip now hits).1 in
     let after := window (rateLimit ip now hits).2 ip in
     (∀ t, t ∈ after → now - t < 60000)
     ∧ (limited = true ↔ (30 ≤ length kept)%nat)
     ∧ (limited = true → after = kept)
     ∧ (limited = false → after = kept ++ [now]))
  ∧ (∀ ip now hits,
       reachable hits →
       (rateLimit ip now hits).1 = true →
       (rateLimit ip now hits).2 = hits)
  ∧ (∀ calls ip now,
       clock_ok calls now →
       (rateLimit ip now (serve calls ∅ []).1).1 = true
       ↔ (30 ≤ length (filter (λ t, (now - t < 60000)%Z)
                              (accepted ip (serve calls ∅ []).2)))%nat).
Proof.
  split; [|split].
  - intros ip now hits kept limited after.
    assert (Hafter : after = kept ++ (if limited then [] else [now]))
      by apply rateLimit_window.
    assert (Hres : limited = bool_decide (MAX_HITS ≤ length kept)%nat)
      by apply rateLimit_result.
    split; [|split; [|split]].
    + intros t. rewrite Hafter, elem_of_app. intros [Hin|Hin].
      * apply list_elem_of_filter in Hin. apply Hin.
      * destruct limited; [by apply elem_of_nil in Hin|].
        apply list_elem_of_singleton in Hin. lia.
    + rewrite Hres. apply bool_decide_eq_true.
    + intros E. rewrite Hafter, E. apply app_nil_r.
    + intros E. by rewrite Hafter, E.
  - intros ip now hits Hreach Hlim.
    apply bounded_reachable in Hreach. specialize (Hreach ip).
    rewrite rateLimit_result in Hlim. apply bool_decide_eq_true in Hlim.
    pose proof (length_filter (fresh now) (window hits ip)) as Hle.
    assert (Hkept : filter (fresh now) (window hits ip) = window hits ip)
      by (apply filter_all_kept; lia).
    unfold rateLimit. unfold window in *.
    destruct (hits !! ip) as [w|] eqn:E; simpl in *.
    + rewrite E in *. simpl in *. rewrite Hkept.
      rewrite bool_decide_eq_true_2 by (rewrite <- Hkept; done).
      simpl. by apply insert_id.
    + unfold MAX_HITS in Hlim. simpl in Hlim. lia.
  - intros calls ip now Hclock.
    rewrite rateLimit_result, bool_decide_eq_true.
    unfold clock_ok in Hclock.
    assert (Hag : filter (fresh now) (window (serve calls ∅ []).1 ip)
                  = filter (fresh now) (accepted ip (serve calls ∅ []).2)).
    { destruct calls as [|c calls].
      - simpl. apply (agrees_empty now). lia.
      - apply (agrees_serve _ (c_now c)); [apply agrees_empty|].
        by apply nondecreasing_dup. }
    by rewrite Hag.
Qed.

(** A caller that was accepted 30 times within 30 ms is limited 70 ms
    later, and that rejection leaves [hits] untouched. *)
Definition burst : list Call :=
  map (λ i, {| c_ip := "203.0.113.7"; c_now := Z.of_nat i |}) (seq 0 30).

Lemma rateLimit_sliding_window_witness :
  reachable (serve burst ∅ []).1
  ∧ clock_ok burst 100
  ∧ (rateLimit "203.0.113.7" 100 (serve burst ∅ []).1).1 = true
  ∧ (rateLimit "203.0.113.7" 100 (serve burst ∅ []).1).2 = (serve burst ∅ []).1.
Proof.
  destruct rateLimit_sliding_window as (_ & Hunchanged & Hiff).
  assert (Hreach : reachable (serve burst ∅ []).1) by (by exists burst).
  assert (Hclock : clock_ok burst 100)
    by (unfold clock_ok; simpl; repeat split; lia).
  assert (Hlim : (rateLimit "203.0.113.7" 100 (serve burst ∅ []).1).1 = true)
    by (apply Hiff; [exact Hclock | vm_compute; lia]).
  split; [exact Hreach|]. split; [exact Hclock|]. split; [exact Hlim|].
  apply Hunchanged; [exact Hreach | exact Hlim].
Defined.

(** ** Further consequences for the callers *)

(** The verdicts one caller got, in order: the time of each of its
    requests and whether it was limited. *)
Definition verdicts (ip : string) (log : list (Call * bool)) : list (Z * bool) :=
  omap (λ e : Call * bool,
          if bool_decide (c_ip e.1 = ip) then Some (c_now e.1, e.2) else None) log.

(** The requests of one caller, among those of all. *)
Definition only (ip : string) (calls : list Call) : list Call :=
  filter (λ c, c_ip c = ip) calls.

Lemma verdicts_snoc ip log c r :
  verdicts ip (log ++ [(c, r)])
  = verdicts ip log ++ (if bool_decide (c_ip c = ip) then [(c_now c, r)] else []).
Proof.
  unfold verdicts. rewrite omap_app. f_equal. simpl.
  by destruct (bool_decide (c_ip c = ip)).
Qed.

Lemma only_serve ip calls : ∀ hits1 hits2 log1 log2,
  window hits1 ip = window hits2 ip →
  verdicts ip log1 = verdicts ip log2 →
  window (serve calls hits1 log1).1 ip = window (serve (only ip calls) hits2 log2).1 ip
  ∧ verdicts ip (serve calls hits1 log1).2
    = verdicts ip (serve (only ip calls) hits2 log2).2.
Proof.
  induction calls as [|c calls IH]; intros hits1 hits2 log1 log2 Hw Hv; [done|].
  unfold only. rewrite filter_cons. fold (only ip calls).
  destruct (decide (c_ip c = ip)) as [Hip|Hip]; cbn [serve].
  - pose proof (rateLimit_result (c_ip c) (c_now c) hits1) as Hr1.
    pose proof (rateLimit_result (c_ip c) (c_now c) hits2) as Hr2.
    pose proof (rateLimit_window (c_ip c) (c_now c) hits1) as Hw1.
    pose proof (rateLimit_window (c_ip c) (c_now c) hits2) as Hw2.
    destruct (rateLimit (c_ip c) (c_now c) hits1) as [r1 h1].
    destruct (rateLimit (c_ip c) (c_now c) hits2) as [r2 h2].
    simpl in *. rewrite Hip in *. rewrite <- Hw in Hr2, Hw2.
    assert (r1 = r2) as <- by congruence.
    apply IH; [congruence|]. rewrite !verdicts_snoc. by f_equal.
  - pose proof (rateLimit_window_ne (c_ip c) ip (c_now c) hits1 Hip) as Hw1.
    destruct (rateLimit (c_ip c) (c_now c) hits1) as [r1 h1]. simpl in Hw1.
    apply IH; [congruence|].
    by rewrite verdicts_snoc, bool_decide_eq_false_2, app_nil_r.
Qed.

(** X1.  Callers do not affect each other: the verdicts a caller gets for
    its requests, and the window kept for it, are those it would get if
    the server saw no other caller's requests at all. *)
Theorem callers_are_independent (calls : list Call) (ip : string) :
  verdicts ip (serve calls ∅ []).2 = verdicts ip (serve (only ip calls) ∅ []).2
  ∧ window (serve calls ∅ []).1 ip = window (serve (only ip calls) ∅ []).1 ip.
Proof. by destruct (only_serve ip calls ∅ ∅ [] []). Qed.

Lemma window_accepted calls ip now :
  clock_ok calls now →
  filter (fresh now) (window (serve calls ∅ []).1 ip)
  = filter (fresh now) (accepted ip (serve calls ∅ []).2).
Proof.
  unfold clock_ok. intros Hclock. destruct calls as [|c calls].
  - simpl. apply (agrees_empty now). lia.
  - apply (agrees_serve _ (c_now c)); [apply agrees_empty|].
    by apply nondecreasing_dup.
Qed.

(** X2.  The limit as a guarantee: at no instant do more than 30 accepted
    requests of one caller lie in the trailing 60 seconds (the clock not
    running backwards). *)
Theorem at_most_30_per_minute (calls : list Call) (ip : string) (now : Z) :
  clock_ok calls now →
  (length (filter (λ t, (now - t < 60000)%Z) (accepted ip (serve calls ∅ []).2))
   ≤ 30)%nat.
Proof.
  intros Hclock.
  change (length (filter (fresh now) (accepted ip (serve calls ∅ []).2)) ≤ 30)%nat.
  rewrite <- window_accepted by done.
  pose proof (length_filter (fresh now) (window (serve calls ∅ []).1 ip)) as Hle.
  pose proof (bounded_serve calls ∅ [] bounded_empty ip) as Hb.
  unfold MAX_HITS in Hb. lia.
Qed.

#[global] Instance nondecreasing_dec ts : Decision (nondecreasing ts).
Proof.
  induction ts as [|t [|t' ts] IH]; simpl; apply _.
Defined.

#[global] Instance clock_ok_dec calls now : Decision (clock_ok calls now).
Proof. unfold clock_ok. apply _. Defined.

(** Forty requests of one caller within 40 ms: thirty are accepted. *)
Definition crowd : list Call :=
  map (λ i, {| c_ip := "203.0.113.7"; c_now := Z.of_nat i |}) (seq 0 40).

Lemma at_most_30_per_minute_witness :
  clock_ok crowd 40
  ∧ (length (filter (λ t, (40 - t < 60000)%Z)
               (accepted "203.0.113.7" (serve crowd ∅ []).2))
     ≤ 30)%nat.
Proof.
  assert (Hclock : clock_ok crowd 40)
    by (apply (bool_decide_unpack _); vm_compute; exact I).
  split; [exact Hclock|].
  exact (at_most_30_per_minute crowd "203.0.113.7" 40 Hclock).
Defined.

Lemma accepted_served calls : ∀ hits log ip t,
  t ∈ accepted ip (serve calls hits log).2 →
  t ∈ accepted ip log ∨ ∃ c, c ∈ calls ∧ c_ip c = ip ∧ c_now c = t.
Proof.
  induction calls as [|c calls IH]; intros hits log ip t Hin; [by left|].
  cbn [serve] in Hin. destruct (rateLimit (c_ip c) (c_now c) hits) as [r hits'].
  apply IH in Hin as [Hin|(c' & Hc' & Hip & Ht)].
  - rewrite accepted_snoc in Hin. apply elem_of_app in Hin as [Hin|Hin]; [by left|].
    right. exists c. split; [apply elem_of_cons; by left|].
    destruct (bool_decide (c_ip c = ip)) eqn:E; simpl in Hin;
      [|by apply elem_of_nil in Hin].
    apply bool_decide_eq_true in E. destruct r; simpl in Hin;
      [by apply elem_of_nil in Hin|].
    by apply list_elem_of_singleton in Hin.
  - right. exists c'. split; [apply elem_of_cons; by right|done].
Qed.

Lemma filter_none {A} (P : A → Prop) `{!∀ x, Decision (P x)} (l : list A) :
  (∀ x, x ∈ l → ¬ P x) → filter P l = [].
Proof.
  induction l as [|x l IH]; [done|]. intros Hno.
  rewrite filter_cons, decide_False by (apply Hno, elem_of_cons; by left).
  apply IH. intros y Hy. apply Hno, elem_of_cons. by right.
Qed.

(** X3.  The limit wears off: a caller whose requests are all at least
    60000 ms old is accepted, however many of them were made and however
    many were rejected (the clock not running backwards). *)
Theorem quota_recovers (calls : list Call) (ip : string) (now : Z) :
  clock_ok calls now →
  (∀ c, c ∈ calls → c_ip c = ip → c_now c + 60000 ≤ now) →
  (rateLimit ip now (serve calls ∅ []).1).1 = false
  ∧ window (rateLimit ip now (serve calls ∅ []).1).2 ip = [now].
Proof.
  intros Hclock Hold.
  assert (Hnone : filter (fresh now) (window (serve calls ∅ []).1 ip) = []).
  { rewrite window_accepted by done.
    apply filter_none. intros t Hin Hfresh.
    apply accepted_served in Hin as [Hin|(c & Hc & Hip & <-)].
    - by apply elem_of_nil in Hin.
    - specialize (Hold c Hc Hip). unfold fresh, WINDOW_MS in Hfresh. lia. }
  assert (Hres : (rateLimit ip now (serve calls ∅ []).1).1 = false).
  { rewrite rateLimit_result, Hnone. apply bool_decide_eq_false_2.
    unfold MAX_HITS. simpl. lia. }
  split; [exact Hres|]. by rewrite rateLimit_window, Hnone, Hres.
Qed.

(** The caller of [burst], limited at 100 ms, is accepted again once the
    last request of the burst is a minute old. *)
Lemma quota_recovers_witness :
  (rateLimit "203.0.113.7" 60029 (serve burst ∅ []).1).1 = false.
Proof.
  apply quota_recovers.
  - apply (bool_decide_unpack _). vm_compute. exact I.
  - intros c Hc _. unfold burst in Hc. apply list_elem_of_fmap in Hc as (i & -> & Hi).
    apply elem_of_seq in Hi. simpl. lia.
Defined.

Lemma rateLimit_dom ip now (hits : Hits) :
  dom (rateLimit ip now hits).2 = {[ ip ]} ∪ dom hits.
Proof.
  assert (Habsorb : ∀ X : gset string, {[ ip ]} ∪ ({[ ip ]} ∪ X) = {[ ip ]} ∪ X)
    by (intros X; by rewrite (assoc_L (∪)), union_idemp_L).
  unfold rateLimit.
  assert (Htouch : dom (match hits !! ip with
                        | None => <[ip := []]> hits
                        | Some _ => hits
                        end) = {[ ip ]} ∪ dom hits).
  { destruct (hits !! ip) as [w|] eqn:E; [|by rewrite dom_insert_L].
    apply elem_of_dom_2 in E. apply set_eq. intros x.
    rewrite elem_of_union, elem_of_singleton. split; [by right|].
    by intros [->|?]. }
  destruct (bool_decide _); simpl; rewrite !dom_insert_L, Htouch;
    by rewrite !Habsorb.
Qed.

Lemma serve_dom calls : ∀ (hits : Hits) log,
  dom (serve calls hits log).1 = list_to_set (c_ip <$> calls) ∪ dom hits.
Proof.
  induction calls as [|c calls IH]; intros hits log; simpl;
    [by rewrite union_empty_l_L|].
  pose proof (rateLimit_dom (c_ip c) (c_now c) hits) as Hd.
  destruct (rateLimit (c_ip c) (c_now c) hits) as [r hits']. simpl in Hd.
  rewrite IH, Hd, !(assoc_L (∪)). f_equal. apply (comm_L (∪)).
Qed.

(** X4.  [rateLimit] never forgets a caller: [hits] has an entry for
    exactly the callers seen so far, also for those whose requests are all
    out of the window or were all rejected.  The table grows with the
    number of distinct callers and is never pruned. *)
Theorem hits_keep_every_caller (calls : list Call) :
  dom (serve calls ∅ []).1 = list_to_set (c_ip <$> calls).
Proof. by rewrite serve_dom, dom_empty_L, union_empty_r_L. Qed.

End RateLimit.

(* ===================================================================== *)
(** * The tunnel client: [generic-template/tunnel.js]                     *)
(* ===================================================================== *)

Module Tunnel.
Import JS.

(** [ws.readyState] *)
Inductive ReadyState := CONNECTING | OPEN | CLOSING | CLOSED.

#[global] Instance ReadyState_eq_dec : EqDecision ReadyState.
Proof. solve_decision. Defined.

(** A value of [res.headers]: a string, or an array for [set-cookie]. *)
Inductive HeaderValue := HString (s : string) | HArray (l : list string).

(** A value of the headers handed to [http.request]. *)
Inductive FwdValue := FwdStr (s : string) | FwdNum (n : Z).

(** Where an [http.ClientRequest] stands.  [Pending]: written, no response
    yet.  [Receiving]: ['response'] was emitted, the body is streaming.
    [Hangup]: destroyed before any response, so Node.js still owes the
    request its ['error'] event (socket hang up).  [Over]: no event will
    follow. *)
Inductive Phase := Pending | Receiving | Hangup | Over.

#[global] Instance Phase_eq_dec : EqDecision Phase.
Proof. solve_decision. Defined.

(** A timer of the event loop with the time it is due at. *)
Inductive Timer :=
| PingEvery (due : Z)   (* setInterval(<ping>, 25000), line 35 *)
| ConnectAt (due : Z).  (* setTimeout(connect, reconnectDelay), line 56 *)

Definition due (tm : Timer) : Z :=
  match tm with PingEvery d | ConnectAt d => d end.

(** [process.env] *)
Record Env := {
  BOTROULETTE_API_KEY : option string;
  LOCAL_PORT_var : option string;
}.

Section Model.
Context (rt : Runtime) (env : Env).
Local Abbreviation Json := (JSON (number rt)).

(** Lines 16-18. *)
Definition API_KEY : string := default EmptyString (BOTROULETTE_API_KEY env).

Definition LOCAL_PORT : string + Z :=
  match LOCAL_PORT_var env with
  | Some p => if String.eqb p EmptyString then inr 8900 else inl p
  | None => inr 8900
  end.

(** A frame handed to [ws.send(JSON.stringify(...))], before stringifying. *)
Inductive Frame :=
| AuthFrame (api_key : string)
| PingFrame
| ResponseFrame (id : option Json) (status : Z)
                (headers : gmap string string) (body : string).

(** A frame that went out: on which socket (the n-th [new WebSocket]) and
    when. *)
Record Sent := { on_socket : nat; at_time : Z; frame : Frame }.

(** One [http.request(...)] with what was written to it, and the idle
    time given to [req.setTimeout]. *)
Record LocalCall := {
  hostname : string;
  port : string + Z;
  path : Json;
  method : Json;
  headers : gmap string FwdValue;
  written : list string;
  idle_timeout : Z;
}.

(** An in-flight local request: the [id] its callbacks closed over, and what
    the response callback has gathered. *)
Record Request := {
  rq_id : option Json;
  rq_phase : Phase;
  rq_res : option (Z * gmap string HeaderValue);  (* statusCode, headers *)
  rq_chunks : list string;
}.

Record State := {
  (** the process runs *)
  alive : bool;
  (** the clock, ms *)
  now : Z;
  (** line 25: [let ws, pingInterval, reconnectDelay = 1000].  [ws] counts
      the sockets made so far, the variable holding the latest; 0 is
      [undefined]. *)
  ws : nat;
  pingInterval : option nat;
  reconnectDelay : Z;
  (** [ws.readyState] of the latest socket *)
  readyState : ReadyState;
  (** event-loop timers, by handle *)
  timers : gmap nat Timer;
  timer_count : nat;
  (** local requests, by order of creation *)
  requests : list Request;
  (** what the client did *)
  sent : list Sent;
  calls : list LocalCall;
  delays : list Z;    (* the delays given to setTimeout(connect, _) *)
}.

(** Field updates. *)
Definition set_alive (v : bool) (s : State) : State :=
  {| alive := v; now := now s; ws := ws s; pingInterval := pingInterval s;
     reconnectDelay := reconnectDelay s; readyState := readyState s;
     timers := timers s; timer_count := timer_count s;
     requests := requests s; sent := sent s; calls := calls s;
     delays := delays s |}.
Definition set_now (v : Z) (s : State) : State :=
  {| alive := alive s; now := v; ws := ws s; pingInterval := pingInterval s;
     reconnectDelay := reconnectDelay s; readyState := readyState s;
     timers := timers s; timer_count := timer_count s;
     requests := requests s; sent := sent s; calls := calls s;
     delays := delays s |}.
Definition set_ws (v : nat) (s : State) : State :=
  {| alive := alive s; now := now s; ws := v; pingInterval := pingInterval s;
     reconnectDelay := reconnectDelay s; readyState := readyState s;
     timers := timers s; timer_count := timer_count s;
     requests := requests s; sent := sent s; calls := calls s;
     delays := delays s |}.
Definition set_pingInterval (v : option nat) (s : State) : State :=
  {| alive := alive s; now := now s; ws := ws s; pingInterval := v;
     reconnectDelay := reconnectDelay s; readyState := readyState s;
     timers := timers s; timer_count := timer_count s;
     requests := requests s; sent := sent s; calls := calls s;
     delays := delays s |}.
Definition set_reconnectDelay (v : Z) (s : State) : State :=
  {| alive := alive s; now := now s; ws := ws s;
     pingInterval := pingInterval s; reconnectDelay := v;
     readyState := readyState s; timers := timers s;
     timer_count := timer_count s; requests := requests s; sent := sent s;
     calls := calls s; delays := delays s |}.
Definition set_readyState (v : ReadyState) (s : State) : State :=
  {| alive := alive s; now := now s; ws := ws s;
     pingInterval := pingInterval s; reconnectDelay := reconnectDelay s;
     readyState := v; timers := timers s; timer_count := timer_count s;
     requests := requests s; sent := sent s; calls := calls s;
     delays := delays s |}.
Definition set_timers (v : gmap nat Timer) (s : State) : State :=
  {| alive := alive s; now := now s; ws := ws s;
     pingInterval := pingInterval s; reconnectDelay := reconnectDelay s;
     readyState := readyState s; timers := v; timer_count := timer_count s;
     requests := requests s; sent := sent s; calls := calls s;
     delays := delays s |}.
Definition set_timer_count (v : nat) (s : State) : State :=
  {| alive := alive s; now := now s; ws := ws s;
     pingInterval := pingInterval s; reconnectDelay := reconnectDelay s;
     readyState := readyState s; timers := timers s; timer_count := v;
     requests := requests s; sent := sent s; calls := calls s;
     delays := delays s |}.
Definition set_requests (v : list Request) (s : State) : State :=
  {| alive := alive s; now := now s; ws := ws s;
     pingInterval := pingInterval s; reconnectDelay := reconnectDelay s;
     readyState := readyState s; timers := timers s;
     timer_count := timer_count s; requests := v; sent := sent s;
     calls := calls s; delays := delays s |}.
Definition set_sent (v : list Sent) (s : State) : State :=
  {| alive := alive s; now := now s; ws := ws s;
     pingInterval := pingInterval s; reconnectDelay := reconnectDelay s;
     readyState := readyState s; timers := timers s;
     timer_count := timer_count s; requests := requests s; sent := v;
     calls := calls s; delays := delays s |}.
Definition set_calls (v : list LocalCall) (s : State) : State :=
  {| alive := alive s; now := now s; ws := ws s;
     pingInterval := pingInterval s; reconnectDelay := reconnectDelay s;
     readyState := readyState s; timers := timers s;
     timer_count := timer_count s; requests := requests s; sent := sent s;
     calls := v; delays := delays s |}.
Definition set_delays (v : list Z) (s : State) : State :=
  {| alive := alive s; now := now s; ws := ws s;
     pingInterval := pingInterval s; reconnectDelay := reconnectDelay s;
     readyState := readyState s; timers := timers s;
     timer_count := timer_count s; requests := requests s; sent := sent s;
     calls := calls s; delays := v |}.

(** ** The libraries, as far as the client calls them *)

(** [ws.send(data)] of the ws package: the frame leaves on an open socket;
    while connecting the call throws, and nothing catches it; once the
    close has started the frame is dropped. *)
Definition ws_send (f : Frame) (s : State) : State :=
  match readyState s with
  | OPEN =>
      set_sent (sent s ++ [{| on_socket := ws s; at_time := now s; frame := f |}]) s
  | CONNECTING => set_alive false s
  | CLOSING | CLOSED => s
  end.

(** [setInterval(<ping>, 25000)]: the handle, and the loop with the timer. *)
Definition setInterval_ping (s : State) : nat * State :=
  let t := timer_count s in
  (t, set_timers (<[t := PingEvery (now s + 25000)]> (timers s))
        (set_timer_count (S t) s)).

(** [clearInterval(h)]; [undefined] clears nothing. *)
Definition clearInterval (h : option nat) (s : State) : State :=
  match h with
  | Some t => set_timers (delete t (timers s)) s
  | None => s
  end.

(** [setTimeout(connect, delay)] *)
Definition setTimeout_connect (delay : Z) (s : State) : State :=
  let t := timer_count s in
  set_delays (delays s ++ [delay])
    (set_timers (<[t := ConnectAt (now s + delay)]> (timers s))
       (set_timer_count (S t) s)).

(** ** [tunnel.js]; console output is left out *)

(** Line 29: [ws = new WebSocket(TUNNEL_WS)]; the four [ws.on] calls that
    follow name the handlers below. *)
Definition connect (s : State) : State :=
  set_readyState CONNECTING (set_ws (S (ws s)) s).

(** Lines 35-38, the interval's callback. *)
Definition ping (s : State) : State :=
  if decide (readyState s = OPEN) then ws_send PingFrame s else s.

(** Lines 31-39, [ws.on('open', ...)]. *)
Definition on_open (s : State) : State :=
  let s := ws_send (AuthFrame API_KEY) s in
  let s := set_reconnectDelay 1000 s in
  let '(t, s) := setInterval_ping s in
  set_pingInterval (Some t) s.

(** Lines 65-66. *)
Definition bodyStr (body : option Json) : string :=
  match body with
  | None | Some JNull => EmptyString
  | Some (JStr b) => b
  | Some v => JSON_stringify rt v
  end.

(** [if (bodyStr)] *)
Definition nonempty (str : string) : bool := negb (String.eqb str EmptyString).

(** Lines 68-69. *)
Definition fwdHeaders (str : string) : gmap string FwdValue :=
  let h : gmap string FwdValue := {[ "Content-Type" := FwdStr "application/json" ]} in
  if nonempty str then <["Content-Length" := FwdNum (byteLength rt str)]> h else h.

(** The options [http.request] refuses (Node.js, [ClientRequest]): it
    throws, before any request exists, on a [path] that -- as a string --
    has a character outside U+0021..U+00FF, and on a [method] that is not a
    string or not an HTTP token.  Both options are truthy here, by
    [path || '/'] and [method || 'POST']. *)
Definition request_throws (path method : Json) : bool :=
  INVALID_PATH_REGEX rt (match path with JStr p => p | _ => String_of rt path end)
  || match method with
     | JStr m => negb (checkIsHttpToken rt m)
     | _ => true
     end.

(** Lines 63-121, [handleRequest(msg)], up to the point where the request is
    on its way; its three callbacks are [on_end], [on_error], [on_timeout].
    The call of [http.request] at lines 71-74 sits in no [try]: when it
    throws, the exception leaves the ['message'] handler and ends the
    process, and no local call was made. *)
Definition handleRequest (msg : Json) (s : State) : State :=
  let id := prop msg "id" in
  let method := prop msg "method" in
  let path := prop msg "path" in
  let body := prop msg "body" in
  let str := bodyStr body in
  let path_opt := or_str rt path "/" in
  let method_opt := or_str rt method "POST" in
  let call := {| hostname := "127.0.0.1"; port := LOCAL_PORT;
                 path := path_opt; method := method_opt;
                 headers := fwdHeaders str;
                 written := if nonempty str then [str] else [];
                 idle_timeout := 25000 |} in
  let req := {| rq_id := id; rq_phase := Pending; rq_res := None; rq_chunks := [] |} in
  if request_throws path_opt method_opt then set_alive false s
  else set_requests (requests s ++ [req]) (set_calls (calls s ++ [call]) s).

(** Lines 41-51, [ws.on('message', ...)]; [parsed] is what [JSON.parse] made
    of the data, [None] when it threw.  Reading [.type] off [null] throws. *)
Definition on_message (parsed : option Json) (s : State) : State :=
  match parsed with
  | None => s
  | Some JNull => set_alive false s
  | Some msg =>
      let type := prop msg "type" in
      if is_str type "auth_ok" then s                       (* logged *)
      else if is_str type "request" then handleRequest msg s
      else s                             (* 'error': logged; else nothing *)
  end.

(** Lines 53-58, [ws.on('close', ...)]. *)
Definition on_close (s : State) : State :=
  let s := clearInterval (pingInterval s) s in
  let s := setTimeout_connect (reconnectDelay s) s in
  set_reconnectDelay (Z.min (reconnectDelay s * 2) 30000) s.

(** Lines 81-84. *)
Definition skip : gset string :=
  list_to_set ["content-length"; "transfer-encoding"; "connection";
               "keep-alive"; "etag"; "x-powered-by"].

(** Lines 85-89; [map_to_list] is [Object.entries]. *)
Definition respHeaders (res_headers : gmap string HeaderValue) : gmap string string :=
  foldl (λ acc kv,
           match kv.2 with
           | HString v =>
               if bool_decide (toLowerCase kv.1 ∈ skip) then acc
               else obj_set kv.1 v acc
           | HArray _ => acc
           end)
        ∅ (map_to_list res_headers).

Definition with_request (h : nat) (f : Request → Request) (s : State) : State :=
  set_requests (alter f h (requests s)) s.

Definition set_phase (p : Phase) (r : Request) : Request :=
  {| rq_id := rq_id r; rq_phase := p; rq_res := rq_res r; rq_chunks := rq_chunks r |}.

(** Line 75: the response callback runs; lines 76-78 register its
    listeners. *)
Definition on_response (h : nat) (status : Z) (hdrs : gmap string HeaderValue)
    (s : State) : State :=
  with_request h (λ r, {| rq_id := rq_id r; rq_phase := Receiving;
                          rq_res := Some (status, hdrs); rq_chunks := [] |}) s.

(** Line 77. *)
Definition on_data (h : nat) (c : string) (s : State) : State :=
  with_request h (λ r, {| rq_id := rq_id r; rq_phase := rq_phase r;
                          rq_res := rq_res r; rq_chunks := rq_chunks r ++ [c] |}) s.

(** Lines 78-97, [res.on('end', ...)]. *)
Definition on_end (h : nat) (s : State) : State :=
  match requests s !! h with
  | Some {| rq_id := id; rq_res := Some (status, hdrs); rq_chunks := chunks |} =>
      let data := String.concat EmptyString chunks in
      if decide (readyState s = OPEN)
      then ws_send (ResponseFrame id status (respHeaders hdrs) data) s
      else s
  | _ => s
  end.

Definition error_headers : gmap string string :=
  {[ "content-type" := "application/json" ]}.

Definition error_body (message : string) : string :=
  JSON_stringify rt (JObj [("error", JStr message)]).

(** Lines 100-107, [req.on('error', ...)]. *)
Definition on_error (h : nat) (s : State) : State :=
  match requests s !! h with
  | Some r =>
      if decide (readyState s = OPEN)
      then ws_send (ResponseFrame (rq_id r) 502 error_headers
                      (error_body "local server unreachable")) s
      else s
  | None => s
  end.

(** [req.destroy()], after the Node.js documentation of
    [http.ClientRequest]: destroyed before a response was received, the
    request goes on to emit ['error'] (socket hang up, ECONNRESET) and then
    ['close']; destroyed after, it is the response that emits ['aborted'],
    to which [tunnel.js] does not listen. *)
Definition destroy (r : Request) : Request :=
  set_phase (match rq_phase r with
             | Pending | Hangup => Hangup
             | Receiving | Over => Over
             end) r.

(** Lines 109-117, the callback given to [req.setTimeout(25000, ...)]. *)
Definition on_timeout (h : nat) (s : State) : State :=
  match requests s !! h with
  | Some r =>
      let s := with_request h destroy s in
      if decide (readyState s = OPEN)
      then ws_send (ResponseFrame (rq_id r) 504 error_headers (error_body "timeout")) s
      else s
  | None => s
  end.

(** ** The environment: Node.js, the ws package, the relay, the local server

    What follows is not code of [tunnel.js]: it states which events the
    runtime may deliver in which state, after the documentation of Node.js
    ([http.ClientRequest], timers) and of ws.  A timer never fires before
    it is due and may fire any time later: the event loop gives no bound.
    The model does not follow the traffic on a local call's socket, so it
    lets the idle timeout of a call that is under way come at any time. *)

Inductive Event :=
| Elapse (dt : Z)                 (* time passes *)
| WsOpen                          (* 'open' *)
| WsMessage (parsed : option Json) (* 'message', with JSON.parse's result *)
| WsClosing                       (* the closing handshake starts *)
| WsClose                         (* 'close' *)
| WsError                         (* 'error', line 60: logged *)
| TimerFires (t : nat)
| HttpResponse (h : nat) (status : Z) (hdrs : gmap string HeaderValue)
| HttpData (h : nat) (chunk : string)
| HttpEnd (h : nat)
| HttpAborted (h : nat)           (* the connection is lost mid-body *)
| HttpError (h : nat)             (* 'error' on the request *)
| HttpTimeout (h : nat).          (* 'timeout': the call's socket sat idle
                                     for the time given to req.setTimeout *)

Definition phase_of (h : nat) (s : State) : option Phase :=
  rq_phase <$> requests s !! h.

(** May the runtime deliver [e] in [s]? *)
Definition enabled (e : Event) (s : State) : Prop :=
  alive s = true ∧
  match e with
  | Elapse dt => 0 < dt
  | WsOpen => readyState s = CONNECTING
  | WsMessage _ => readyState s = OPEN
  | WsClosing => readyState s = OPEN
  | WsClose => readyState s ≠ CLOSED
  | WsError => True
  | TimerFires t =>
      match timers s !! t with
      | Some tm => due tm ≤ now s
      | None => False
      end
  | HttpResponse h _ _ => phase_of h s = Some Pending
  | HttpData h _ | HttpEnd h | HttpAborted h => phase_of h s = Some Receiving
  | HttpError h =>
      phase_of h s = Some Pending ∨ phase_of h s = Some Receiving
      ∨ phase_of h s = Some Hangup
  | HttpTimeout h => phase_of h s = Some Pending ∨ phase_of h s = Some Receiving
  end.

#[global] Instance enabled_dec e s : Decision (enabled e s).
Proof.
  unfold enabled. destruct e; try apply _.
  destruct (timers s !! t); apply _.
Defined.

(** The state after the runtime delivered [e]: it updates its own objects
    ([readyState], the timers, the request's phase) and calls the client's
    handler.  An interval is armed again when its callback runs, one period
    from that moment. *)
Definition handle (e : Event) (s : State) : State :=
  match e with
  | Elapse dt => set_now (now s + dt) s
  | WsOpen => on_open (set_readyState OPEN s)
  | WsMessage parsed => on_message parsed s
  | WsClosing => set_readyState CLOSING s
  | WsClose => on_close (set_readyState CLOSED s)
  | WsError => s
  | TimerFires t =>
      match timers s !! t with
      | Some (PingEvery d) =>
          ping (set_timers (<[t := PingEvery (now s + 25000)]> (timers s)) s)
      | Some (ConnectAt _) => connect (set_timers (delete t (timers s)) s)
      | None => s
      end
  | HttpResponse h status hdrs => on_response h status hdrs s
  | HttpData h c => on_data h c s
  | HttpEnd h => on_end h (with_request h (set_phase Over) s)
  | HttpAborted h => with_request h (set_phase Over) s
  | HttpError h => on_error h (with_request h (set_phase Over) s)
  | HttpTimeout h => on_timeout h s
  end.

(** The script run top to bottom at time [t0]: lines 16-25, then line 123.
    Without an API key the process exits at line 22. *)
Definition boot (t0 : Z) : State :=
  let s := {| alive := nonempty API_KEY; now := t0;
              ws := 0; pingInterval := None; reconnectDelay := 1000;
              readyState := CLOSED; timers := ∅; timer_count := 0;
              requests := []; sent := []; calls := []; delays := [] |} in
  if alive s then connect s else s.

(** Deliver the events of [tr] in turn; [None] when one is not enabled. *)
Fixpoint run (tr : list Event) (s : State) : option State :=
  match tr with
  | [] => Some s
  | e :: tr => if decide (enabled e s) then run tr (handle e s) else None
  end.

Definition reachable (s : State) : Prop :=
  ∃ t0 tr, run tr (boot t0) = Some s.

(** ** How the handlers move the fields *)

Lemma lookup_with_request h f s :
  requests (with_request h f s) !! h = f <$> requests s !! h.
Proof. unfold with_request. simpl. apply list_lookup_alter_eq. Qed.

Lemma run_app tr1 tr2 s :
  run (tr1 ++ tr2) s = run tr1 s ≫= run tr2.
Proof.
  revert s. induction tr1 as [|e tr1 IH]; intros s; simpl; [done|].
  destruct (decide (enabled e s)); [apply IH | done].
Qed.

(** Induction over what the runtime can make of the client. *)
Lemma run_invariant (P : State → Prop) :
  (∀ e s, P s → enabled e s → P (handle e s)) →
  ∀ tr s s', P s → run tr s = Some s' → P s'.
Proof.
  intros Hstep tr. induction tr as [|e tr IH]; intros s s' HP Hrun; simpl in Hrun.
  - by injection Hrun as <-.
  - destruct (decide (enabled e s)); [|done]. eapply IH; [|done]. by apply Hstep.
Qed.

Lemma reachable_invariant (P : State → Prop) :
  (∀ t0, P (boot t0)) →
  (∀ e s, P s → enabled e s → P (handle e s)) →
  ∀ s, reachable s → P s.
Proof.
  intros Hboot Hstep s (t0 & tr & Hrun).
  eapply run_invariant; [exact Hstep | apply Hboot | exact Hrun].
Qed.

Lemma reachable_step e s : reachable s → enabled e s → reachable (handle e s).
Proof.
  intros (t0 & tr & Hrun) Hen. exists t0, (tr ++ [e]).
  rewrite run_app, Hrun. simpl. by rewrite decide_True.
Qed.

Lemma reachable_run tr s s' : reachable s → run tr s = Some s' → reachable s'.
Proof.
  intros (t0 & tr0 & Hrun0) Hrun. exists t0, (tr0 ++ tr).
  by rewrite run_app, Hrun0.
Qed.

(** Unfold every handler, and split on every test it makes. *)
Ltac handlers :=
  unfold handle, on_open, on_message, on_close, on_end, on_error, on_timeout,
    on_response, on_data, handleRequest, ping, connect, with_request,
    setInterval_ping, setTimeout_connect, clearInterval, ws_send in *.

Ltac split_tests :=
  repeat match goal with
    | |- context [match ?x with _ => _ end] => destruct x eqn:?; simpl in *
    | |- context [if ?x then _ else _] => destruct x eqn:?; simpl in *
    end.

(** The delay stays between floor and ceiling, and is at the floor whenever
    the socket is open. *)
Definition delay_ok (s : State) : Prop :=
  1000 ≤ reconnectDelay s ≤ 30000
  ∧ (readyState s = OPEN → reconnectDelay s = 1000).

Lemma delay_ok_boot t0 : delay_ok (boot t0).
Proof. unfold boot, delay_ok. simpl. destruct (nonempty API_KEY); simpl; split; (lia || done). Qed.

Lemma delay_ok_step e s : delay_ok s → enabled e s → delay_ok (handle e s).
Proof.
  intros [Hb Ho] [_ Hen]. unfold delay_ok.
  destruct e; simpl in Hen; handlers; simpl; split_tests;
    try (split; [lia | (done || (intros; congruence) || auto)]).
Qed.

(** ** Reconnecting with backoff *)

(** The delay before the retry that follows [k] failures in a row. *)
Definition backoff (k : nat) : Z := Z.min (1000 * 2 ^ Z.of_nat k) 30000.

Definition is_open (e : Event) : bool :=
  match e with WsOpen => true | _ => false end.

Definition is_close (e : Event) : bool :=
  match e with WsClose => true | _ => false end.

(** The ['close'] events of a trace. *)
Definition closes (tr : list Event) : nat := length (filter (λ e, is_close e) tr).

Lemma backoff_0 : backoff 0 = 1000.
Proof. reflexivity. Qed.

Lemma backoff_S k : backoff (S k) = Z.min (backoff k * 2) 30000.
Proof.
  unfold backoff. rewrite Nat2Z.inj_succ, Z.pow_succ_r by lia.
  assert (0 < 2 ^ Z.of_nat k) by (apply Z.pow_pos_nonneg; lia). lia.
Qed.

Lemma close_effect s :
  delays (handle WsClose s) = delays s ++ [reconnectDelay s]
  ∧ reconnectDelay (handle WsClose s) = Z.min (reconnectDelay s * 2) 30000.
Proof. handlers. simpl. by destruct (pingInterval s). Qed.

Lemma other_effect e s :
  is_open e = false → is_close e = false →
  delays (handle e s) = delays s ∧ reconnectDelay (handle e s) = reconnectDelay s.
Proof. intros Ho Hc. destruct e; try done; handlers; simpl; by split_tests. Qed.

Lemma backoff_run tr : ∀ s s' k,
  reconnectDelay s = backoff k →
  run tr s = Some s' →
  Forall (λ e, is_open e = false) tr →
  delays s' = delays s ++ map backoff (seq k (closes tr))
  ∧ reconnectDelay s' = backoff (k + closes tr).
Proof.
  induction tr as [|e tr IH]; intros s s' k Hk Hrun Hno; simpl in Hrun.
  - injection Hrun as <-. unfold closes. simpl.
    by rewrite app_nil_r, Nat.add_0_r.
  - destruct (decide (enabled e s)); [|done].
    apply Forall_cons in Hno as [Hno1 Hno].
    unfold closes in *. rewrite filter_cons.
    destruct (decide (is_close e)) as [Hc|Hc].
    + destruct e; try done. destruct (close_effect s) as [Hd Hr]. simpl.
      destruct (IH (handle WsClose s) s' (S k)) as [IH1 IH2]; try done.
      { by rewrite Hr, Hk, backoff_S. }
      rewrite IH1, IH2, Hd, Hk, <- app_assoc. simpl.
      split; [done | f_equal; lia].
    + apply Is_true_false_1 in Hc.
      destruct (other_effect e s Hno1 Hc) as [Hd Hr].
      destruct (IH (handle e s) s' k) as [IH1 IH2]; try done; [congruence|].
      by rewrite IH1, IH2, Hd.
Qed.

(** C3.  A run of failures starts with the delay at 1000 ms (the script
    sets it so, and so does every ['open']); as long as no ['open']
    intervenes, the k-th ['close'] of the run schedules the retry after
    [min (1000 * 2^k) 30000] ms -- 1000, 2000, 4000, 8000, 16000, 30000,
    30000, ... -- each ['close'] replacing the delay by
    [min (2 * delay) 30000], and no delay ever exceeds 30000 ms. *)
Theorem reconnect_backoff :
  (∀ t0, reconnectDelay (boot t0) = 1000)
  ∧ (∀ s, reconnectDelay (handle WsOpen s) = 1000)
  ∧ (∀ s, reconnectDelay (handle WsClose s) = Z.min (2 * reconnectDelay s) 30000)
  ∧ (∀ s tr s',
       reconnectDelay s = 1000 →
       run tr s = Some s' →
       Forall (λ e, is_open e = false) tr →
       delays s'
       = delays s ++ map (λ k, Z.min (1000 * 2 ^ Z.of_nat k) 30000)
                         (seq 0 (closes tr))
       ∧ Forall (λ d, d ≤ 30000) (map (λ k, Z.min (1000 * 2 ^ Z.of_nat k) 30000)
                                      (seq 0 (closes tr)))).
Proof.
  split; [|split; [|split]].
  - intros t0. unfold boot. simpl. by destruct (nonempty API_KEY).
  - intros s. handlers. simpl. by split_tests.
  - intros s. destruct (close_effect s) as [_ ->]. f_equal. lia.
  - intros s tr s' Hs Hrun Hno.
    destruct (backoff_run tr s s' 0%nat) as [Hd _]; try done.
    split; [exact Hd|].
    apply Forall_map, Forall_forall. intros k _. simpl. lia.
Qed.

(** ** The auth_ok frame *)

(** The [auth_ok] branch of the message handler only logs. *)
Lemma auth_ok_only_logs s msg :
  is_str (prop msg "type") "auth_ok" = true →
  handle (WsMessage (Some msg)) s = s.
Proof.
  intros Hty. simpl. unfold on_message.
  destruct msg; simpl in *; try done. by rewrite Hty.
Qed.

Lemma delay_ok_reachable s : reachable s → delay_ok s.
Proof.
  revert s. apply (reachable_invariant delay_ok);
    [apply delay_ok_boot | apply delay_ok_step].
Qed.

(** C4.  Whenever an [auth_ok] frame reaches the client, the reconnect
    delay is at its floor of 1000 ms once the frame is handled, whatever it
    had grown to while the client was retrying.  The assignment is made by
    the ['open'] handler (line 34), for every socket that opens and before
    any frame can arrive on it; the [auth_ok] branch of the message handler
    (lines 44-45) only logs and changes nothing.  From a socket that is
    being connected, with any delay: it opens, [auth_ok] arrives, and the
    delay is 1000 ms. *)
Theorem auth_ok_delay_floor :
  (∀ s msg,
     reachable s →
     enabled (WsMessage (Some msg)) s →
     is_str (prop msg "type") "auth_ok" = true →
     reconnectDelay (handle (WsMessage (Some msg)) s) = 1000)
  ∧ (∀ s, reconnectDelay (handle WsOpen s) = 1000)
  ∧ (∀ s msg,
       is_str (prop msg "type") "auth_ok" = true →
       handle (WsMessage (Some msg)) s = s)
  ∧ (∀ s msg,
       enabled WsOpen s →
       is_str (prop msg "type") "auth_ok" = true →
       ∃ s', run [WsOpen; WsMessage (Some msg)] s = Some s'
             ∧ reconnectDelay s' = 1000).
Proof.
  split_and!.
  - intros s msg Hreach [_ Hopen] Hty. simpl in Hopen.
    rewrite auth_ok_only_logs by done.
    destruct (delay_ok_reachable s Hreach) as [_ Hfloor]. by apply Hfloor.
  - intros s. handlers. simpl. by split_tests.
  - intros s msg Hty. by apply auth_ok_only_logs.
  - intros s msg [Halive Hc] Hty. simpl in Hc.
    assert (Hen : enabled (WsMessage (Some msg)) (handle WsOpen s)).
    { split; unfold handle, on_open, ws_send; simpl; done. }
    exists (handle WsOpen s). split.
    + cbn [run]. rewrite decide_True by (by split).
      rewrite decide_True by exact Hen. by rewrite auth_ok_only_logs.
    + handlers. simpl. by split_tests.
Qed.

(** ** Response headers *)

(** One turn of the loop of lines 86-89. *)
Definition keep_header (acc : gmap string string) (kv : string * HeaderValue)
    : gmap string string :=
  match kv.2 with
  | HString v =>
      if bool_decide (toLowerCase kv.1 ∈ skip) then acc else obj_set kv.1 v acc
  | HArray _ => acc
  end.

Lemma respHeaders_unfold hdrs :
  respHeaders hdrs = foldl keep_header ∅ (map_to_list hdrs).
Proof. reflexivity. Qed.

Lemma obj_set_lookup_ne k k' v (o : gmap string string) :
  k ≠ k' → obj_set k v o !! k' = o !! k'.
Proof.
  intros Hne. unfold obj_set. destruct (String.eqb k "__proto__"); [done|].
  by rewrite lookup_insert_ne.
Qed.

Lemma obj_set_lookup k v (o : gmap string string) :
  k ≠ "__proto__" → obj_set k v o !! k = Some v.
Proof.
  intros Hne. unfold obj_set.
  destruct (String.eqb_spec k "__proto__"); [done|]. apply lookup_insert_eq.
Qed.

Lemma keep_header_other acc kv k :
  kv.1 ≠ k → keep_header acc kv !! k = acc !! k.
Proof.
  intros Hne. unfold keep_header. destruct kv.2; [|done].
  case_bool_decide; [done|]. by apply obj_set_lookup_ne.
Qed.

Lemma keep_header_skip acc kv k :
  toLowerCase k ∈ skip → keep_header acc kv !! k = acc !! k.
Proof.
  intros Hk. unfold keep_header. destruct kv.2; [|done].
  case_bool_decide as Hs; [done|]. apply obj_set_lookup_ne. congruence.
Qed.

Lemma fold_skip l : ∀ acc k,
  toLowerCase k ∈ skip → foldl keep_header acc l !! k = acc !! k.
Proof.
  induction l as [|kv l IH]; intros acc k Hk; simpl; [done|].
  rewrite IH by done. by apply keep_header_skip.
Qed.

Lemma fold_absent l : ∀ acc k,
  k ∉ l.*1 → foldl keep_header acc l !! k = acc !! k.
Proof.
  induction l as [|kv l IH]; intros acc k Hk; simpl; [done|].
  rewrite fmap_cons, not_elem_of_cons in Hk. destruct Hk as [Hne Hk].
  rewrite IH by done. by apply keep_header_other.
Qed.

Lemma fold_kept l : ∀ acc k v,
  NoDup l.*1 → (k, HString v) ∈ l →
  toLowerCase k ∉ skip → k ≠ "__proto__" →
  foldl keep_header acc l !! k = Some v.
Proof.
  induction l as [|kv l IH]; intros acc k v Hnd Hin Hk Hp; simpl.
  - by apply elem_of_nil in Hin.
  - rewrite fmap_cons in Hnd. apply NoDup_cons in Hnd as [Hfresh Hnd].
    apply elem_of_cons in Hin as [<-|Hin].
    + rewrite fold_absent by done. unfold keep_header. simpl.
      rewrite bool_decide_eq_false_2 by done. by apply obj_set_lookup.
    + by apply IH.
Qed.

Lemma fold_origin l : ∀ acc k v,
  NoDup l.*1 → foldl keep_header acc l !! k = Some v →
  acc !! k = Some v ∨ (k, HString v) ∈ l.
Proof.
  induction l as [|kv l IH]; intros acc k v Hnd Hlk; simpl in *; [by left|].
  apply NoDup_cons in Hnd as [Hfresh Hnd].
  destruct (IH _ _ _ Hnd Hlk) as [Hacc|Hin]; [|right; by apply elem_of_cons; right].
  destruct (decide (kv.1 = k)) as [<-|Hne].
  - unfold keep_header in Hacc. destruct kv as [k' [v'|vs]]; simpl in *;
      [|by left].
    case_bool_decide; [by left|]. unfold obj_set in Hacc.
    destruct (String.eqb k' "__proto__"); [by left|].
    rewrite lookup_insert_eq in Hacc. injection Hacc as ->.
    right. apply elem_of_cons. by left.
  - rewrite keep_header_other in Hacc by done. by left.
Qed.

(** What [respHeaders] holds: exactly the string-valued headers whose
    lower-cased name is not on the skip list. *)
Lemma respHeaders_spec hdrs k v :
  respHeaders hdrs !! k = Some v →
  hdrs !! k = Some (HString v) ∧ toLowerCase k ∉ skip.
Proof.
  intros Hlk. split.
  - rewrite respHeaders_unfold in Hlk.
    apply fold_origin in Hlk as [Hlk|Hin]; [by rewrite lookup_empty in Hlk | |].
    + by apply elem_of_map_to_list in Hin.
    + apply NoDup_fst_map_to_list.
  - intros Hk. rewrite respHeaders_unfold, fold_skip, lookup_empty in Hlk; done.
Qed.

Lemma respHeaders_forward hdrs k v :
  hdrs !! k = Some (HString v) → toLowerCase k ∉ skip → k ≠ "__proto__" →
  respHeaders hdrs !! k = Some v.
Proof.
  intros Hlk Hk Hp. rewrite respHeaders_unfold. apply fold_kept; try done.
  - apply NoDup_fst_map_to_list.
  - by apply elem_of_map_to_list.
Qed.

(** A frame whose headers name nothing on the skip list, in any case. *)
Definition clean (f : Frame) : Prop :=
  match f with
  | ResponseFrame _ _ hs _ => ∀ k, toLowerCase k ∈ skip → hs !! k = None
  | _ => True
  end.

Lemma clean_response id status hdrs body :
  clean (ResponseFrame id status (respHeaders hdrs) body).
Proof.
  intros k Hk. destruct (respHeaders hdrs !! k) eqn:E; [|done].
  by apply respHeaders_spec in E as [_ ?].
Qed.

Lemma clean_error id status body :
  clean (ResponseFrame id status error_headers body).
Proof.
  intros k Hk. unfold error_headers. apply lookup_singleton_ne.
  intros <-. vm_compute in Hk. discriminate Hk.
Qed.

(** What one event adds to the frames sent: nothing, or one frame, which is
    clean, goes out at once on the latest socket, and finds it open. *)
Lemma step_sent e s :
  ∃ new,
    sent (handle e s) = sent s ++ new
    ∧ (length new ≤ 1)%nat
    ∧ Forall (λ x, clean (frame x)
                   ∧ on_socket x = ws s ∧ at_time x = now s
                   ∧ readyState (handle e s) = OPEN) new.
Proof.
  destruct e; handlers; simpl; split_tests;
    first
      [ by (exists []; rewrite app_nil_r;
            split; [done | split; [simpl; lia | apply Forall_nil_2]])
      | by (eexists [_];
            split; [reflexivity | split; [simpl; lia |]];
            apply Forall_cons_2; [|apply Forall_nil_2];
            split; [first [apply clean_response | apply clean_error | exact I]
                   | by repeat split]) ].
Qed.

Lemma sent_clean s : reachable s → Forall (λ x, clean (frame x)) (sent s).
Proof.
  revert s. apply (reachable_invariant (λ s, Forall (λ x, clean (frame x)) (sent s))).
  - intros t0. unfold boot. simpl. by destruct (nonempty API_KEY).
  - intros e s IH _. destruct (step_sent e s) as (new & -> & _ & Hnew).
    apply Forall_app. split; [done|].
    eapply Forall_impl; [exact Hnew|]. by intros x [? _].
Qed.

(** C5.  No Response Frame the client ever sends -- built from a local
    response or made up as a 502/504 -- has a header whose name is, in any
    letter case, one of [content-length], [transfer-encoding], [connection],
    [keep-alive], [etag], [x-powered-by].  And the frame sent for a local
    response carries every other string-valued header of that response
    under its own name with its own value ([res.headers] being an object
    Node.js fills by assignment, it has no own [__proto__] key). *)
Theorem response_headers_filtered :
  (∀ s x id status hs body k,
     reachable s → x ∈ sent s →
     frame x = ResponseFrame id status hs body →
     toLowerCase k ∈ ["content-length"; "transfer-encoding"; "connection";
                      "keep-alive"; "etag"; "x-powered-by"] →
     hs !! k = None)
  ∧ (∀ s h r status hdrs,
       requests s !! h = Some r →
       rq_res r = Some (status, hdrs) →
       readyState s = OPEN →
       ∃ hs body,
         sent (handle (HttpEnd h) s)
         = sent s ++ [{| on_socket := ws s; at_time := now s;
                         frame := ResponseFrame (rq_id r) status hs body |}]
         ∧ ∀ k v,
             hdrs !! k = Some (HString v) →
             toLowerCase k ∉ ["content-length"; "transfer-encoding"; "connection";
                              "keep-alive"; "etag"; "x-powered-by"] →
             k ≠ "__proto__" →
             hs !! k = Some v).
Proof.
  assert (Hskip : ∀ k, k ∈ ["content-length"; "transfer-encoding"; "connection";
                            "keep-alive"; "etag"; "x-powered-by"] ↔ k ∈ skip).
  { intros k. unfold skip. by rewrite elem_of_list_to_set. }
  split.
  - intros s x id status hs body k Hreach Hx Hfr Hk.
    pose proof (sent_clean s Hreach) as Hall.
    rewrite Forall_forall in Hall. specialize (Hall x Hx).
    rewrite Hfr in Hall. apply Hall. by apply Hskip.
  - intros s h r status hdrs Hr Hres Hopen.
    exists (respHeaders hdrs), (String.concat EmptyString (rq_chunks r)).
    split.
    + simpl. unfold on_end. rewrite lookup_with_request, Hr.
      destruct r as [id ph res chunks]. simpl in *. subst res.
      rewrite decide_True by done. unfold ws_send. simpl. by rewrite Hopen.
    + intros k v Hlk Hk Hp. apply respHeaders_forward; try done.
      by rewrite <- Hskip.
Qed.

(** ** Local failures *)

(** Every local call is made with the idle time 25000 ms. *)
Lemma calls_idle_timeout s :
  reachable s → Forall (λ c, idle_timeout c = 25000) (calls s).
Proof.
  revert s. apply (reachable_invariant (λ s, Forall (λ c, idle_timeout c = 25000) (calls s))).
  - intros t0. unfold boot. simpl. destruct (nonempty API_KEY); apply Forall_nil_2.
  - intros e s IH _.
    destruct e; handlers; simpl; split_tests;
      first [ done | apply Forall_app; split; [done|]; by apply Forall_singleton ].
Qed.

(** C2, as the code has it.  When the local call emits ['error'], or its
    idle timeout fires -- the callback given to [req.setTimeout], with
    25000 ms for every call -- and the client's socket is open at that
    moment, the client sends one Response Frame carrying the request's
    [id], status 502 respectively 504, the header
    [content-type: application/json], and as body the serialized object
    [{error: ...}].  When the socket is not open, the callback sends
    nothing.  The timeout callback destroys the request in either case. *)
Theorem local_failure_frames s h r :
  requests s !! h = Some r →
  (readyState s = OPEN →
     sent (handle (HttpError h) s)
     = sent s ++ [{| on_socket := ws s; at_time := now s;
                     frame := ResponseFrame (rq_id r) 502
                                {[ "content-type" := "application/json" ]}
                                (JSON_stringify rt
                                   (JObj [("error", JStr "local server unreachable")])) |}]
     ∧ sent (handle (HttpTimeout h) s)
       = sent s ++ [{| on_socket := ws s; at_time := now s;
                       frame := ResponseFrame (rq_id r) 504
                                  {[ "content-type" := "application/json" ]}
                                  (JSON_stringify rt
                                     (JObj [("error", JStr "timeout")])) |}])
  ∧ (readyState s ≠ OPEN →
       sent (handle (HttpError h) s) = sent s
       ∧ sent (handle (HttpTimeout h) s) = sent s)
  ∧ requests (handle (HttpTimeout h) s) !! h = Some (destroy r)
  ∧ (reachable s → ∀ c, c ∈ calls s → idle_timeout c = 25000).
Proof.
  intros Hr. split_and!.
  - intros Hopen; simpl; unfold on_error, on_timeout;
      rewrite lookup_with_request, Hr; simpl.
    rewrite !decide_True by done. unfold ws_send, with_request. simpl.
    by rewrite Hopen.
  - intros Hopen; simpl; unfold on_error, on_timeout;
      rewrite lookup_with_request, Hr; simpl.
    by rewrite !decide_False by done.
  - simpl. unfold on_timeout. rewrite Hr.
    assert (Hlk : requests (with_request h destroy s) !! h = Some (destroy r))
      by (by rewrite lookup_with_request, Hr).
    destruct (decide _); [|done].
    unfold ws_send. by destruct (readyState _).
  - intros Hreach c Hc. pose proof (calls_idle_timeout s Hreach) as Hall.
    rewrite Forall_forall in Hall. by apply Hall.
Qed.

(** ** The forwarded call *)

(** C7.  For a [request] frame whose path and method [http.request]
    accepts, the client makes one local call: with method [POST] when the
    frame has no [method] (or a falsy one), path [/] when it has no [path]
    (or a falsy one), always the header [Content-Type: application/json],
    and as body the frame's [body] itself when that is a string, its
    serialization when it is any other value but [null], and nothing when
    it is [null] or missing.  For a frame whose path or method
    [http.request] refuses there is no local call: the exception ends the
    process. *)
Theorem forwarded_call s msg :
  is_str (prop msg "type") "request" = true →
  let path_opt := or_str rt (prop msg "path") "/" in
  let method_opt := or_str rt (prop msg "method") "POST" in
  (request_throws path_opt method_opt = false →
   ∃ call,
     calls (handle (WsMessage (Some msg)) s) = calls s ++ [call]
     ∧ method call = method_opt ∧ path call = path_opt
     ∧ (truthy rt (prop msg "method") = false → method call = JStr "POST")
     ∧ (truthy rt (prop msg "path") = false → path call = JStr "/")
     ∧ headers call !! "Content-Type" = Some (FwdStr "application/json")
     ∧ match prop msg "body" with
       | None | Some JNull => String.concat EmptyString (written call) = EmptyString
       | Some (JStr b) => String.concat EmptyString (written call) = b
       | Some v => String.concat EmptyString (written call) = JSON_stringify rt v
       end)
  ∧ (request_throws path_opt method_opt = true →
     calls (handle (WsMessage (Some msg)) s) = calls s
     ∧ alive (handle (WsMessage (Some msg)) s) = false).
Proof.
  intros Hty path_opt method_opt.
  assert (Hh : handle (WsMessage (Some msg)) s = handleRequest msg s).
  { simpl. unfold on_message.
    destruct msg as [| | | |items|props]; try done. simpl in Hty.
    destruct (is_str (assoc "type" props) "auth_ok") eqn:Hauth.
    { unfold is_str in *. destruct (assoc "type" props) as [[]|]; try done.
      apply String.eqb_eq in Hty, Hauth. congruence. }
    simpl. by rewrite Hauth, Hty. }
  rewrite Hh. unfold handleRequest. fold path_opt method_opt.
  split; intros Hthrows; rewrite Hthrows; [|done].
  eexists. split; [done|]. simpl. split; [done|]. split; [done|].
  assert (Hor : ∀ x lit, truthy rt x = false → or_str rt x lit = JStr lit).
  { intros x lit Hx. unfold or_str. destruct x; [by rewrite Hx|done]. }
  split; [intros Hf; by apply Hor|]. split; [intros Hf; by apply Hor|]. split.
  - unfold fwdHeaders. destruct (nonempty _); [|by rewrite lookup_singleton_eq].
    rewrite lookup_insert_ne by done. by rewrite lookup_singleton_eq.
  - assert (Hw : ∀ str, String.concat EmptyString (if nonempty str then [str] else [])
                        = str).
    { intros str. unfold nonempty. by destruct (String.eqb_spec str EmptyString) as [->|]. }
    destruct (prop msg "body") as [[]|]; simpl; first [done | apply Hw].
Qed.

(** ** The heartbeat *)

(** A ping, or the auth frame that the ['open'] handler sends. *)
Definition is_beat (f : Frame) : Prop := f = PingFrame ∨ f = AuthFrame API_KEY.

(** The timers the client keeps: at most one at a time -- the ping
    interval, named by [pingInterval], while the socket is open or closing;
    the reconnect timeout while it is closed. *)
Definition tidy (s : State) : Prop :=
  (∀ t d, timers s !! t = Some (PingEvery d) →
     pingInterval s = Some t ∧ (readyState s = OPEN ∨ readyState s = CLOSING))
  ∧ (∀ t d, timers s !! t = Some (ConnectAt d) → readyState s = CLOSED)
  ∧ (∀ t t' tm tm', timers s !! t = Some tm → timers s !! t' = Some tm' → t = t').

Lemma tidy_boot t0 : tidy (boot t0).
Proof.
  unfold boot, tidy. simpl. destruct (nonempty API_KEY); simpl;
    split_and!; intros *; by rewrite lookup_empty.
Qed.

Lemma tidy_frame s s' :
  tidy s → timers s' = timers s → pingInterval s' = pingInterval s →
  readyState s' = readyState s → tidy s'.
Proof. intros Ht Htm Hp Hr. unfold tidy. by rewrite Htm, Hp, Hr. Qed.

Lemma tidy_none s t :
  tidy s → readyState s = CONNECTING → timers s !! t = None.
Proof.
  intros (Hping & Hconn & _) Hc. destruct (timers s !! t) as [[d|d]|] eqn:E; [| |done].
  - destruct (Hping t d E) as [_ [?|?]]; congruence.
  - specialize (Hconn t d E). congruence.
Qed.

Lemma tidy_step e s : tidy s → enabled e s → tidy (handle e s).
Proof.
  intros Htidy [_ Hen]. pose proof Htidy as (Hping & Hconn & Huniq).
  destruct e; simpl in Hen;
    try (apply (tidy_frame s); [done | handlers; simpl; by split_tests ..]).
  - (* 'open' *)
    assert (Hnone : ∀ t, timers s !! t = None) by (intros t; by apply tidy_none).
    unfold tidy, handle, on_open, ws_send. simpl. split_and!.
    + intros t d Hlk. destruct (decide (t = timer_count s)) as [->|Hne]; [by split; [|left]|].
      rewrite lookup_insert_ne in Hlk by done. by rewrite Hnone in Hlk.
    + intros t d Hlk. destruct (decide (t = timer_count s)) as [->|Hne].
      * by rewrite lookup_insert_eq in Hlk.
      * rewrite lookup_insert_ne in Hlk by done. by rewrite Hnone in Hlk.
    + intros t t' tm tm' Hlk Hlk'.
      destruct (decide (t = timer_count s)) as [->|Hne];
      destruct (decide (t' = timer_count s)) as [->|Hne']; try done.
      * rewrite lookup_insert_ne in Hlk' by done. by rewrite Hnone in Hlk'.
      * rewrite lookup_insert_ne in Hlk by done. by rewrite Hnone in Hlk.
      * rewrite lookup_insert_ne in Hlk by done. by rewrite Hnone in Hlk.
  - (* the closing handshake starts *)
    unfold tidy, handle. simpl. split_and!; [| |done].
    + intros t d Hlk. destruct (Hping t d Hlk) as [-> _]. by split; [|right].
    + intros t d Hlk. specialize (Hconn t d Hlk). congruence.
  - (* 'close' *)
    assert (Hleft : ∀ t tm, timers (clearInterval (pingInterval s)
                                      (set_readyState CLOSED s)) !! t = Some tm → False).
    { intros t tm. unfold clearInterval. simpl.
      destruct (pingInterval s) as [p|] eqn:Hp; simpl.
      - intros Hlk. apply lookup_delete_Some in Hlk as [Hne Hlk].
        destruct tm as [d|d].
        + destruct (Hping t d Hlk) as [Heq _]. congruence.
        + by specialize (Hconn t d Hlk).
      - intros Hlk. destruct tm as [d|d].
        + by destruct (Hping t d Hlk) as [Heq _].
        + by specialize (Hconn t d Hlk). }
    unfold tidy, handle, on_close, setTimeout_connect. simpl.
    assert (Hins : ∀ t tm, <[timer_count s := ConnectAt (now s + reconnectDelay s)]>
                              (timers (clearInterval (pingInterval s)
                                         (set_readyState CLOSED s))) !! t = Some tm →
                            t = timer_count s ∧ tm = ConnectAt (now s + reconnectDelay s)).
    { intros t tm Hlk. destruct (decide (t = timer_count s)) as [->|Hne].
      - rewrite lookup_insert_eq in Hlk. by injection Hlk as <-.
      - rewrite lookup_insert_ne in Hlk by done. by destruct (Hleft t tm). }
    assert (Hfields : ∀ p, timer_count (clearInterval p (set_readyState CLOSED s)) = timer_count s
                          ∧ now (clearInterval p (set_readyState CLOSED s)) = now s
                          ∧ reconnectDelay (clearInterval p (set_readyState CLOSED s)) = reconnectDelay s
                          ∧ readyState (clearInterval p (set_readyState CLOSED s)) = CLOSED).
    { by intros [p|]. }
    destruct (Hfields (pingInterval s)) as (-> & -> & -> & ->).
    split_and!.
    + intros t d Hlk. by destruct (Hins _ _ Hlk) as [_ ?].
    + done.
    + intros t t' tm tm' Hlk Hlk'.
      destruct (Hins _ _ Hlk) as [-> _]. by destruct (Hins _ _ Hlk') as [-> _].
  - (* a timer fires *)
    simpl. destruct (timers s !! t) as [[d|d]|] eqn:Ht; [| |done].
    + assert (Hlk : ∀ t' tm', <[t := PingEvery (now s + 25000)]> (timers s) !! t' = Some tm' →
                        t' = t ∧ tm' = PingEvery (now s + 25000)).
      { intros t' tm' Hlk. destruct (decide (t' = t)) as [->|Hne].
        - rewrite lookup_insert_eq in Hlk. by injection Hlk as <-.
        - rewrite lookup_insert_ne in Hlk by done. by destruct (Huniq _ _ _ _ Hlk Ht). }
      destruct (Hping t d Ht) as [Hp Hrs].
      assert (Hsame : ∀ s0, readyState (ping s0) = readyState s0
                            ∧ pingInterval (ping s0) = pingInterval s0
                            ∧ timers (ping s0) = timers s0).
      { intros s0. unfold ping, ws_send. by split_tests. }
      unfold tidy. destruct (Hsame (set_timers (<[t:=PingEvery (now s + 25000)]> (timers s)) s))
        as (-> & -> & ->). simpl. split_and!.
      * intros t' d' Hl. by destruct (Hlk _ _ Hl) as [-> _].
      * intros t' d' Hl. by destruct (Hlk _ _ Hl) as [_ ?].
      * intros t1 t2 tm1 tm2 Hl1 Hl2. destruct (Hlk _ _ Hl1) as [-> _].
        by destruct (Hlk _ _ Hl2) as [-> _].
    + assert (Hgone : ∀ t', delete t (timers s) !! t' = None).
      { intros t'. destruct (delete t (timers s) !! t') as [tm|] eqn:E; [|done].
        apply lookup_delete_Some in E as [Hne E]. by destruct (Huniq _ _ _ _ E Ht). }
      unfold tidy, connect. simpl. split_and!; intros *; by rewrite Hgone.
Qed.

Lemma tidy_reachable s : reachable s → tidy s.
Proof.
  revert s. apply (reachable_invariant tidy); [apply tidy_boot | apply tidy_step].
Qed.

(** Once closed, a socket never opens again; the variable [ws] only ever
    moves on to a newer socket. *)
Lemma closed_stays e s :
  enabled e s → readyState s = CLOSED →
  (ws (handle e s) = ws s ∧ readyState (handle e s) = CLOSED)
  ∨ (ws (handle e s) = S (ws s) ∧ readyState (handle e s) = CONNECTING).
Proof.
  intros [_ Hen] Hc. destruct e; simpl in Hen; try congruence;
    handlers; simpl; split_tests; auto; congruence.
Qed.

Lemma ws_grows e s : (ws s ≤ ws (handle e s))%nat.
Proof. destruct e; handlers; simpl; split_tests; lia. Qed.

(** Socket [k] is closed for good and has sent nothing beyond [base]. *)
Definition sealed (k : nat) (base : list Sent) (s : State) : Prop :=
  ((ws s = k ∧ readyState s = CLOSED) ∨ (k < ws s)%nat)
  ∧ ∀ x, x ∈ sent s → on_socket x = k → x ∈ base.

Lemma sealed_step k base e s :
  sealed k base s → enabled e s → sealed k base (handle e s).
Proof.
  intros [Hk Hbase] Hen.
  destruct (step_sent e s) as (new & Hsent & _ & Hnew).
  pose proof (ws_grows e s) as Hmono. split.
  - destruct Hk as [[Hws Hc]|Hlt]; [|right; lia].
    destruct (closed_stays e s Hen Hc) as [[Hw' Hc'] | [Hw' _]]; [left | right]; rewrite Hw'; [done | lia].
  - intros x Hx Hon. rewrite Hsent in Hx. apply elem_of_app in Hx as [Hx|Hx];
      [by apply Hbase|].
    rewrite Forall_forall in Hnew. destruct (Hnew x Hx) as (_ & Hon' & _ & Hopen).
    destruct Hk as [[Hws Hc]|Hlt]; [|lia].
    destruct (closed_stays e s Hen Hc) as [[_ Hc'] | [_ Hc']]; congruence.
Qed.

(** Any two beats on one socket are at least 25000 ms apart. *)
Definition spaced (l : list Sent) : Prop :=
  ∀ i j x y,
    (i < j)%nat → l !! i = Some x → l !! j = Some y →
    on_socket x = on_socket y → is_beat (frame x) → is_beat (frame y) →
    at_time x + 25000 ≤ at_time y.

(** What the heartbeat keeps true.  The frames were sent in the past, on
    sockets made so far, none on a socket still connecting, the beats
    spaced; and while the socket is open [pingInterval] names a live
    interval that is due 25000 ms after the latest beat on this socket. *)
Record beating (s : State) : Prop := {
  beat_spaced : spaced (sent s);
  beat_past : Forall (λ x, at_time x ≤ now s ∧ (on_socket x ≤ ws s)%nat) (sent s);
  beat_fresh : readyState s = CONNECTING → Forall (λ x, on_socket x ≠ ws s) (sent s);
  beat_due :
    readyState s = OPEN →
    ∃ t d x,
      pingInterval s = Some t
      ∧ timers s !! t = Some (PingEvery d)
      ∧ x ∈ sent s ∧ on_socket x = ws s ∧ is_beat (frame x)
      ∧ d = at_time x + 25000
      ∧ ∀ y, y ∈ sent s → on_socket y = ws s → is_beat (frame y) →
             at_time y ≤ at_time x;
}.

Lemma spaced_snoc l x :
  spaced l →
  (∀ y, y ∈ l → on_socket y = on_socket x → is_beat (frame y) → is_beat (frame x) →
        at_time y + 25000 ≤ at_time x) →
  spaced (l ++ [x]).
Proof.
  intros Hsp Hx i j y z Hij Hi Hj Hon Hby Hbz.
  destruct (decide (j < length l)%nat) as [Hlt|Hge].
  - rewrite lookup_app_l in Hj by done. rewrite lookup_app_l in Hi by lia.
    by apply (Hsp i j).
  - assert (Hlen : (j < length (l ++ [x]))%nat) by (by apply lookup_lt_Some in Hj).
    rewrite length_app in Hlen. simpl in Hlen.
    assert (j = length l) as -> by lia.
    rewrite lookup_app_l in Hi by done.
    rewrite list_lookup_middle in Hj by done. injection Hj as <-.
    apply Hx; try done. by apply list_elem_of_lookup_2 in Hi.
Qed.

Lemma beating_boot t0 : beating (boot t0).
Proof.
  unfold boot. simpl.
  destruct (nonempty API_KEY); split; simpl; try done; try apply Forall_nil_2;
    intros i j x y _ Hi; by rewrite lookup_nil in Hi.
Qed.

(** Events that leave sockets, clock and timers alone and add, if
    anything, frames other than beats, on the open socket. *)
Lemma beating_frame s s' new :
  beating s →
  readyState s' = readyState s → pingInterval s' = pingInterval s →
  timers s' = timers s → now s' = now s → ws s' = ws s →
  sent s' = sent s ++ new →
  Forall (λ x, ¬ is_beat (frame x) ∧ on_socket x = ws s ∧ at_time x = now s
               ∧ readyState s = OPEN) new →
  (length new ≤ 1)%nat →
  beating s'.
Proof.
  intros [Hsp Hpast Hfresh Hdue] Hrs Hp Ht Hn Hw Hs Hnew Hlen.
  destruct new as [|x [|? ?]]; [| |simpl in Hlen; lia].
  { rewrite app_nil_r in Hs. split; rewrite ?Hrs, ?Hp, ?Ht, ?Hn, ?Hw, ?Hs; done. }
  apply Forall_singleton in Hnew as (Hnb & Hon & Hat & Hopen).
  split; rewrite ?Hrs, ?Hp, ?Ht, ?Hn, ?Hw, ?Hs.
  - apply spaced_snoc; [done|]. by intros.
  - apply Forall_app. split; [done|]. apply Forall_singleton. lia.
  - intros Hc. congruence.
  - intros Ho. destruct (Hdue Ho) as (t & d & b & ? & ? & Hb & ? & ? & ? & Hlast).
    exists t, d, b. split_and!; try done.
    + apply elem_of_app. by left.
    + intros y Hy Hony Hby. apply elem_of_app in Hy as [Hy|Hy]; [by apply Hlast|].
      apply list_elem_of_singleton in Hy as ->. done.
Qed.

(** The events of the local calls, and the frames that arrive. *)
Definition quiet (e : Event) : Prop :=
  match e with
  | WsMessage _ | WsError | HttpResponse _ _ _ | HttpData _ _ | HttpEnd _
  | HttpAborted _ | HttpError _ | HttpTimeout _ => True
  | _ => False
  end.

Lemma step_quiet e s :
  quiet e →
  readyState (handle e s) = readyState s
  ∧ pingInterval (handle e s) = pingInterval s
  ∧ timers (handle e s) = timers s
  ∧ now (handle e s) = now s
  ∧ ws (handle e s) = ws s
  ∧ ∃ new, sent (handle e s) = sent s ++ new
           ∧ Forall (λ x, ¬ is_beat (frame x) ∧ on_socket x = ws s ∧ at_time x = now s
                          ∧ readyState s = OPEN) new
           ∧ (length new ≤ 1)%nat.
Proof.
  destruct e; try done; intros _; handlers; simpl; split_tests;
    (split_and!; try done);
    first
      [ by (exists []; rewrite app_nil_r;
            split_and!; [done | apply Forall_nil_2 | simpl; lia])
      | by (eexists [_]; split_and!; [reflexivity | | simpl; lia];
            apply Forall_singleton; split_and!; try done; by intros [|]) ].
Qed.

Lemma beating_step e s : tidy s → beating s → enabled e s → beating (handle e s).
Proof.
  intros (_ & _ & Huniq) Hb [_ Hen].
  assert (Hquiet : ∀ e', quiet e' → beating (handle e' s)).
  { intros e' He'.
    destruct (step_quiet e' s He') as (? & ? & ? & ? & ? & new & ? & ? & ?).
    by apply (beating_frame s _ new). }
  destruct e; simpl in Hen; try (by apply Hquiet).
  - (* time passes *)
    destruct Hb as [Hsp Hpast Hfresh Hdue]. split; simpl; try done.
    eapply Forall_impl; [exact Hpast|]. simpl. lia.
  - (* 'open' *)
    destruct Hb as [Hsp Hpast Hfresh Hdue]. specialize (Hfresh Hen).
    rewrite Forall_forall in Hfresh.
    unfold handle, on_open, ws_send. split; simpl.
    + apply spaced_snoc; [done|]. simpl. intros y Hy Hon. by destruct (Hfresh y Hy).
    + apply Forall_app. split; [done|]. apply Forall_singleton. simpl. lia.
    + done.
    + intros _.
      exists (timer_count s), (now s + 25000),
        {| on_socket := ws s; at_time := now s; frame := AuthFrame API_KEY |}.
      simpl. rewrite lookup_insert_eq. split_and!; try done.
      * apply elem_of_app. right. by apply list_elem_of_singleton.
      * by right.
      * intros y Hy Hon. apply elem_of_app in Hy as [Hy|Hy].
        -- by destruct (Hfresh y Hy).
        -- apply list_elem_of_singleton in Hy as ->. done.
  - (* the closing handshake starts *)
    destruct Hb as [Hsp Hpast Hfresh Hdue].
    split; simpl; [exact Hsp | exact Hpast | intros; congruence | intros; congruence].
  - (* 'close' *)
    destruct Hb as [Hsp Hpast Hfresh Hdue].
    unfold handle, on_close, setTimeout_connect, clearInterval. simpl.
    destruct (pingInterval s); split; simpl;
      first [exact Hsp | exact Hpast | intros; congruence].
  - (* a timer fires *)
    destruct Hb as [Hsp Hpast Hfresh Hdue].
    simpl. destruct (timers s !! t) as [[d'|d']|] eqn:Ht'; [| |done]; simpl in Hen.
    + unfold ping. simpl.
      destruct (decide (readyState s = OPEN)) as [Ho|Ho].
      2:{ split; simpl; try done. }
      destruct (Hdue Ho) as (t1 & d & b & Hp & Ht & Hbin & Hon & Hbeat & Hd & Hlast).
      assert (t = t1) as -> by (by apply (Huniq _ _ _ _ Ht' Ht)).
      rewrite Ht in Ht'. injection Ht' as <-.
      unfold ws_send. simpl. rewrite Ho. split; simpl.
      * apply spaced_snoc; [done|]. simpl. intros y Hy Hony Hby _.
        specialize (Hlast y Hy Hony Hby). lia.
      * apply Forall_app. split; [done|]. apply Forall_singleton. simpl. lia.
      * congruence.
      * intros _.
        exists t1, (now s + 25000),
          {| on_socket := ws s; at_time := now s; frame := PingFrame |}.
        rewrite lookup_insert_eq. simpl. split_and!; try done.
        -- apply elem_of_app. right. by apply list_elem_of_singleton.
        -- by left.
        -- intros y Hy Hony Hby. apply elem_of_app in Hy as [Hy|Hy].
           ++ rewrite Forall_forall in Hpast. by destruct (Hpast y Hy).
           ++ apply list_elem_of_singleton in Hy as ->. done.
    + unfold connect. split; simpl; try done.
      * eapply Forall_impl; [exact Hpast|]. simpl. lia.
      * intros _. eapply Forall_impl; [exact Hpast|]. simpl. lia.
Qed.

Lemma beating_reachable s : reachable s → beating s.
Proof.
  intros Hreach.
  assert (Hinv : tidy s ∧ beating s); [|by destruct Hinv].
  revert s Hreach. apply (reachable_invariant (λ s, tidy s ∧ beating s)).
  - intros t0. split; [apply tidy_boot | apply beating_boot].
  - intros e s [Ht Hb] Hen. split; [by apply tidy_step | by apply beating_step].
Qed.

(** C6, as the code has it.  While the socket is open, the interval set
    at ['open'] is armed and due 25000 ms after the latest beat on the
    socket -- a ping, or at first the ['open'] with its auth frame -- and
    it can fire from that moment on, not before; each time it fires on the
    open socket it sends one ping and is armed again, 25000 ms from then.
    So two beats on one socket are never less than 25000 ms apart, and are
    more than 25000 ms apart by as much as the event loop runs the timer
    late.  After ['close'] no ping interval is live any more, and whatever
    happens next, no frame, so no ping, is sent on the closed socket
    again. *)
Theorem heartbeat :
  (∀ s,
     reachable s → readyState s = OPEN →
     ∃ t x,
       pingInterval s = Some t
       ∧ timers s !! t = Some (PingEvery (at_time x + 25000))
       ∧ x ∈ sent s ∧ on_socket x = ws s
       ∧ (frame x = PingFrame ∨ frame x = AuthFrame API_KEY)
       ∧ (∀ y, y ∈ sent s → on_socket y = ws s →
               frame y = PingFrame ∨ frame y = AuthFrame API_KEY →
               at_time y ≤ at_time x)
       ∧ (alive s = true →
          (enabled (TimerFires t) s ↔ at_time x + 25000 ≤ now s)))
  ∧ (∀ s t d,
       timers s !! t = Some (PingEvery d) → readyState s = OPEN →
       sent (handle (TimerFires t) s)
       = sent s ++ [{| on_socket := ws s; at_time := now s; frame := PingFrame |}]
       ∧ timers (handle (TimerFires t) s) !! t = Some (PingEvery (now s + 25000)))
  ∧ (∀ s i j x y,
       reachable s → (i < j)%nat →
       sent s !! i = Some x → sent s !! j = Some y →
       on_socket x = on_socket y →
       frame x = PingFrame ∨ frame x = AuthFrame API_KEY →
       frame y = PingFrame ∨ frame y = AuthFrame API_KEY →
       at_time x + 25000 ≤ at_time y)
  ∧ (∀ s tr s',
       reachable s → enabled WsClose s →
       run tr (handle WsClose s) = Some s' →
       (∀ t d, timers (handle WsClose s) !! t ≠ Some (PingEvery d))
       ∧ (∀ x, x ∈ sent s' → on_socket x = ws s → x ∈ sent s)).
Proof.
  split_and!.
  - intros s Hreach Hopen.
    destruct (beating_reachable s Hreach) as [_ _ _ Hdue].
    destruct (Hdue Hopen) as (t & d & x & Hp & Ht & Hx & Hon & Hbeat & -> & Hlast).
    exists t, x. split_and!; try done.
    intros Halive. unfold enabled. rewrite Ht. simpl. tauto.
  - intros s t d Ht Hopen. simpl. rewrite Ht. unfold ping, ws_send. simpl.
    rewrite decide_True by done. rewrite Hopen. simpl.
    by rewrite lookup_insert_eq.
  - intros s i j x y Hreach Hij Hi Hj Hon Hbx Hby.
    destruct (beating_reachable s Hreach) as [Hsp _ _ _]. by apply (Hsp i j).
  - intros s tr s' Hreach Hen Hrun. split.
    + intros t d Hlk.
      destruct (tidy_step WsClose s (tidy_reachable s Hreach) Hen) as (Hping & _ & _).
      destruct (Hping t d Hlk) as [_ Hrs].
      assert (Hc : readyState (handle WsClose s) = CLOSED).
      { handlers. simpl. by destruct (pingInterval s). }
      rewrite Hc in Hrs. by destruct Hrs.
    + assert (Hs : sealed (ws s) (sent s) (handle WsClose s)).
      { split.
        - left. handlers. simpl. by destruct (pingInterval s).
        - intros x. handlers. simpl. by destruct (pingInterval s). }
      pose proof (run_invariant (sealed (ws s) (sent s)) (sealed_step _ _)
                    tr _ _ Hs Hrun) as [_ Hbase].
      exact Hbase.
Qed.

(** ** A request answered twice *)

(** C1 fails on a local call that times out before any response: the
    timeout callback destroys the request and sends the 504 frame; Node.js
    then emits ['error'] (socket hang up) on the destroyed request, and the
    error callback sends a 502 frame with the same [id].  Two Response
    Frames for one request, the socket open throughout. *)
Theorem timeout_answers_twice s h r :
  requests s !! h = Some r →
  rq_phase r = Pending →
  readyState s = OPEN →
  alive s = true →
  enabled (HttpTimeout h) s
  ∧ enabled (HttpError h) (handle (HttpTimeout h) s)
  ∧ sent (handle (HttpError h) (handle (HttpTimeout h) s))
    = sent s
        ++ [{| on_socket := ws s; at_time := now s;
               frame := ResponseFrame (rq_id r) 504 error_headers (error_body "timeout") |};
            {| on_socket := ws s; at_time := now s;
               frame := ResponseFrame (rq_id r) 502 error_headers
                          (error_body "local server unreachable") |}].
Proof.
  intros Hr Hph Hopen Halive.
  split; [|split].
  - split; [done|]. left. unfold phase_of. by rewrite Hr; simpl; rewrite Hph.
  - unfold handle, on_timeout. rewrite Hr. unfold with_request. simpl.
    rewrite decide_True by done. unfold ws_send. simpl. rewrite Hopen.
    split; [done|]. right. right. unfold phase_of. simpl.
    rewrite list_lookup_alter_eq, Hr. simpl. unfold destroy. by rewrite Hph.
  - unfold handle, on_timeout. rewrite Hr. unfold with_request. simpl.
    rewrite decide_True by done. unfold ws_send. simpl. rewrite Hopen.
    unfold on_error. simpl. rewrite !list_lookup_alter_eq, Hr. simpl.
    rewrite decide_True by done. unfold ws_send. simpl.
    rewrite Hopen. simpl. by rewrite <- app_assoc.
Qed.

(** ** Further properties of the client *)

(** Without an API key the script exits at line 22: nothing is enabled in
    the boot state. *)
Lemma run_dead tr s s' : alive s = false → run tr s = Some s' → tr = [] ∧ s' = s.
Proof.
  intros Hdead Hrun. destruct tr as [|e tr]; simpl in Hrun.
  - by injection Hrun as <-.
  - destruct (decide (enabled e s)) as [[Ha _]|]; [congruence|done].
Qed.

(** X5.  With [BOTROULETTE_API_KEY] unset or empty the client does nothing
    at all: it opens no socket, sets no timer, sends no frame and makes no
    local call, ever. *)
Theorem no_key_no_tunnel s :
  BOTROULETTE_API_KEY env = None ∨ BOTROULETTE_API_KEY env = Some EmptyString →
  reachable s →
  alive s = false ∧ ws s = 0%nat ∧ timers s = ∅ ∧ sent s = [] ∧ calls s = [].
Proof.
  intros Hkey (t0 & tr & Hrun).
  assert (Hk : nonempty API_KEY = false)
    by (unfold API_KEY; by destruct Hkey as [-> | ->]).
  assert (Hdead : alive (boot t0) = false) by (unfold boot; simpl; by rewrite Hk).
  destruct (run_dead _ _ _ Hdead Hrun) as [_ ->].
  unfold boot. simpl. by rewrite Hk.
Qed.

(** What one event does to the socket and to the frames sent: it makes a
    new socket; or it opens the socket and sends the auth frame; or it
    sends nothing; or it sends, on the open socket, one frame that is not
    an auth frame. *)
Definition auth_now (s : State) : Sent :=
  {| on_socket := ws s; at_time := now s; frame := AuthFrame API_KEY |}.

Definition is_auth (f : Frame) : Prop :=
  match f with AuthFrame _ => True | _ => False end.

#[global] Instance is_auth_dec f : Decision (is_auth f).
Proof. destruct f; apply _. Defined.

Lemma step_summary e s :
  enabled e s →
  (ws (handle e s) = S (ws s) ∧ readyState (handle e s) = CONNECTING
   ∧ sent (handle e s) = sent s)
  ∨ (ws (handle e s) = ws s ∧ readyState s = CONNECTING
     ∧ readyState (handle e s) = OPEN ∧ sent (handle e s) = sent s ++ [auth_now s])
  ∨ (ws (handle e s) = ws s ∧ sent (handle e s) = sent s
     ∧ (readyState (handle e s) = readyState s
        ∨ readyState (handle e s) = CLOSING ∧ readyState s = OPEN
        ∨ readyState (handle e s) = CLOSED))
  ∨ (ws (handle e s) = ws s ∧ readyState s = OPEN ∧ readyState (handle e s) = OPEN
     ∧ ∃ x, sent (handle e s) = sent s ++ [x] ∧ on_socket x = ws s
            ∧ ¬ is_auth (frame x)).
Proof.
  intros [_ Hen].
  destruct e; simpl in Hen; handlers; simpl; split_tests;
    first
      [ by (left; split_and!)
      | by (right; left; split_and!)
      | by (right; right; left; split_and!; auto)
      | by (right; right; right; split_and!; try done;
            eexists; split_and!; [reflexivity|done|by intros []]) ].
Qed.

(** The frames sent on socket [k], oldest first. *)
Definition on_sock (k : nat) (l : list Sent) : list Sent :=
  filter (λ x, on_socket x = k) l.

(** On a socket the auth frame comes first, and only there. *)
Definition auth_first (l : list Sent) : Prop :=
  match l with
  | [] => True
  | x :: rest => frame x = AuthFrame API_KEY ∧ Forall (λ y, ¬ is_auth (frame y)) rest
  end.

Definition greeted (s : State) : Prop :=
  Forall (λ x, (on_socket x ≤ ws s)%nat) (sent s)
  ∧ (readyState s = CONNECTING → on_sock (ws s) (sent s) = [])
  ∧ (readyState s = OPEN → on_sock (ws s) (sent s) ≠ [])
  ∧ ∀ k, auth_first (on_sock k (sent s)).

Lemma on_sock_snoc k l x :
  on_sock k (l ++ [x]) = on_sock k l ++ (if decide (on_socket x = k) then [x] else []).
Proof.
  unfold on_sock. rewrite filter_app. by f_equal.
Qed.

Lemma on_sock_above k l :
  Forall (λ x, (on_socket x < k)%nat) l → on_sock k l = [].
Proof.
  intros Hall. unfold on_sock. induction Hall as [|x l Hx _ IH]; [done|].
  rewrite filter_cons, decide_False by lia. exact IH.
Qed.

Lemma auth_first_snoc l x :
  auth_first l → l ≠ [] → ¬ is_auth (frame x) → auth_first (l ++ [x]).
Proof.
  destruct l as [|y l]; [done|]. intros [Hy Hrest] _ Hx. split; [done|].
  apply Forall_app. split; [done|]. by apply Forall_singleton.
Qed.

Lemma greeted_boot t0 : greeted (boot t0).
Proof.
  unfold boot, greeted. simpl. destruct (nonempty API_KEY); simpl;
    split_and!; try done; apply Forall_nil_2.
Qed.

Lemma greeted_step e s : greeted s → enabled e s → greeted (handle e s).
Proof.
  intros (Hle & Hnew & Hopen & Hfirst) Hen.
  destruct (step_summary e s Hen)
    as [(Hws & Hrs & Hsent)
       |[(Hws & Hrs & Hrs' & Hsent)
        |[(Hws & Hsent & Hrs)
         |(Hws & Hrs & Hrs' & x & Hsent & Hon & Hna)]]];
    unfold greeted; rewrite Hws, Hsent.
  - (* a new socket *)
    split_and!.
    + eapply Forall_impl; [exact Hle|]. simpl. lia.
    + intros _. apply on_sock_above. eapply Forall_impl; [exact Hle|]. simpl. lia.
    + congruence.
    + exact Hfirst.
  - (* the socket opens *)
    split_and!.
    + apply Forall_app. split; [done|]. apply Forall_singleton. simpl. lia.
    + congruence.
    + intros _. rewrite on_sock_snoc. simpl. rewrite decide_True by done.
      intros Heq. by apply app_eq_nil in Heq as [_ ?].
    + intros k. rewrite on_sock_snoc. simpl.
      destruct (decide (ws s = k)) as [<-|Hne]; [|by rewrite app_nil_r].
      rewrite (Hnew Hrs). simpl. split; [done|apply Forall_nil_2].
  - (* nothing is sent *)
    split_and!; try done.
    + intros Hc. apply Hnew. destruct Hrs as [<-|[[? ?]|?]]; congruence.
    + intros Ho. apply Hopen. destruct Hrs as [<-|[[? ?]|?]]; congruence.
  - (* a frame on the open socket *)
    split_and!.
    + apply Forall_app. split; [done|]. apply Forall_singleton. lia.
    + congruence.
    + intros _. rewrite on_sock_snoc, decide_True by done.
      intros Heq. by apply app_eq_nil in Heq as [_ ?].
    + intros k. rewrite on_sock_snoc.
      destruct (decide (on_socket x = k)) as [<-|Hne]; [|by rewrite app_nil_r].
      rewrite Hon. apply auth_first_snoc; [apply Hfirst | by apply Hopen | done].
Qed.

(** X6.  On every connection the auth frame is the first frame the client
    sends, and the only auth frame: no ping and no response ever goes out
    on a socket before the key was presented on it.  A socket that is open
    has been sent its auth frame. *)
Theorem auth_opens_every_socket s :
  reachable s →
  (∀ k, match filter (λ x, on_socket x = k) (sent s) with
        | [] => True
        | x :: rest =>
            frame x = AuthFrame API_KEY
            ∧ Forall (λ y, ∀ key, frame y ≠ AuthFrame key) rest
        end)
  ∧ (readyState s = OPEN →
       ∃ x, x ∈ sent s ∧ on_socket x = ws s ∧ frame x = AuthFrame API_KEY).
Proof.
  intros Hreach.
  assert (Hg : greeted s).
  { revert s Hreach. apply (reachable_invariant greeted);
      [apply greeted_boot | apply greeted_step]. }
  destruct Hg as (_ & _ & Hopen & Hfirst). split.
  - intros k. specialize (Hfirst k). unfold on_sock, auth_first in Hfirst.
    destruct (filter _ _) as [|x rest]; [done|]. destruct Hfirst as [Hx Hrest].
    split; [done|]. eapply Forall_impl; [exact Hrest|].
    intros y Hy key Heq. apply Hy. by rewrite Heq.
  - intros Ho. specialize (Hopen Ho). specialize (Hfirst (ws s)).
    unfold on_sock, auth_first in *.
    destruct (filter _ _) as [|x rest] eqn:E; [done|]. destruct Hfirst as [Hx _].
    assert (Hin : x ∈ filter (λ x, on_socket x = ws s) (sent s))
      by (rewrite E; apply elem_of_cons; by left).
    apply list_elem_of_filter in Hin as [Hon Hin]. by exists x.
Qed.

(** What a [request] frame makes the client call. *)
Definition local_call (c : LocalCall) : Prop :=
  hostname c = "127.0.0.1" ∧ port c = LOCAL_PORT
  ∧ headers c !! "Content-Type" = Some (FwdStr "application/json")
  ∧ match written c with
    | [] => headers c !! "Content-Length" = None
    | [str] => str ≠ EmptyString
               ∧ headers c !! "Content-Length" = Some (FwdNum (byteLength rt str))
    | _ => False
    end.

Lemma handleRequest_call msg s :
  (∃ c r, calls (handleRequest msg s) = calls s ++ [c]
          ∧ requests (handleRequest msg s) = requests s ++ [r]
          ∧ local_call c ∧ rq_id r = prop msg "id" ∧ rq_phase r = Pending)
  ∨ (calls (handleRequest msg s) = calls s
     ∧ requests (handleRequest msg s) = requests s).
Proof.
  unfold handleRequest. destruct (request_throws _ _); [by right|left].
  simpl. eexists _, _. split_and!; try done.
  unfold local_call, fwdHeaders. simpl.
  destruct (nonempty (bodyStr (prop msg "body"))) eqn:E; simpl.
  - unfold nonempty in E. split_and!; try done.
    intros Heq. by rewrite Heq in E.
  - by split_and!.
Qed.

(** What one event does to the requests and the calls: it adds one of
    each, or leaves the calls alone and every request its [id]. *)
Lemma step_calls e s :
  (∃ c r, calls (handle e s) = calls s ++ [c]
          ∧ requests (handle e s) = requests s ++ [r] ∧ local_call c)
  ∨ (calls (handle e s) = calls s
     ∧ length (requests (handle e s)) = length (requests s)
     ∧ ∀ h, rq_id <$> requests (handle e s) !! h = rq_id <$> requests s !! h).
Proof.
  assert (Halter : ∀ (f : Request → Request) h l,
            (∀ r, rq_id (f r) = rq_id r) →
            length (alter f h l) = length l
            ∧ ∀ h', rq_id <$> alter f h l !! h' = rq_id <$> l !! h').
  { intros f h l Hf. split; [apply length_alter|]. intros h'.
    destruct (decide (h = h')) as [->|Hne].
    - rewrite list_lookup_alter_eq. destruct (l !! h'); simpl; [by rewrite Hf|done].
    - by rewrite list_lookup_alter_ne. }
  destruct e;
    try (right; handlers; simpl; split_tests; simpl;
         first [ by split_and! | by (split; [done|]; apply Halter) ]).
  (* a frame arrives *)
  simpl. unfold on_message. destruct parsed as [msg|]; [|by right].
  destruct msg; try (by right); simpl;
    destruct (is_str _ "auth_ok"); try (by right);
    destruct (is_str _ "request"); try (by right).
  destruct (handleRequest_call (JObj props) s)
    as [(c & r & ? & ? & ? & _)|[Hc Hr]].
  - left. by exists c, r.
  - right. by rewrite Hc, Hr.
Qed.

(** X7.  The local calls of the client all go to 127.0.0.1 at [LOCAL_PORT]
    (8900 unless the variable is set and not empty), with [Content-Type:
    application/json], and with a [Content-Length] exactly when a body is
    written, which then is the byte length of that body; and there is one
    call for each request the client took on. *)
Theorem calls_stay_local s :
  reachable s →
  Forall (λ c, hostname c = "127.0.0.1" ∧ port c = LOCAL_PORT
               ∧ headers c !! "Content-Type" = Some (FwdStr "application/json")
               ∧ match written c with
                 | [] => headers c !! "Content-Length" = None
                 | [str] => str ≠ EmptyString
                            ∧ headers c !! "Content-Length"
                              = Some (FwdNum (byteLength rt str))
                 | _ => False
                 end) (calls s)
  ∧ length (calls s) = length (requests s)
  ∧ (LOCAL_PORT_var env = None ∨ LOCAL_PORT_var env = Some EmptyString →
     LOCAL_PORT = inr 8900).
Proof.
  intros Hreach. split_and!.
  - revert s Hreach. apply (reachable_invariant (λ s, Forall local_call (calls s))).
    + intros t0. unfold boot. simpl. destruct (nonempty API_KEY); apply Forall_nil_2.
    + intros e s IH _.
      destruct (step_calls e s) as [(c & r & -> & _ & Hc)|(-> & _)]; [|done].
      apply Forall_app. split; [done|]. by apply Forall_singleton.
  - revert s Hreach.
    apply (reachable_invariant (λ s, length (calls s) = length (requests s))).
    + intros t0. unfold boot. simpl. by destruct (nonempty API_KEY).
    + intros e s IH _.
      destruct (step_calls e s) as [(c & r & -> & -> & _)|(-> & -> & _)]; [|done].
      rewrite !length_app. simpl. lia.
  - unfold LOCAL_PORT. by intros [-> | ->].
Qed.

(** Where the [id] of a response frame comes from. *)
Definition echoes (s : State) (x : Sent) : Prop :=
  match frame x with
  | ResponseFrame id _ _ _ => ∃ h r, requests s !! h = Some r ∧ rq_id r = id
  | _ => True
  end.

Lemma step_echo e s :
  ∃ new, sent (handle e s) = sent s ++ new ∧ Forall (echoes s) new.
Proof.
  assert (Hnone : ∀ s', sent s' = sent s →
            ∃ new, sent s' = sent s ++ new ∧ Forall (echoes s) new).
  { intros s' ->. exists []. rewrite app_nil_r. split; [done|apply Forall_nil_2]. }
  assert (Hsend : ∀ s' f, sent s' = sent s →
            (∀ k t, echoes s {| on_socket := k; at_time := t; frame := f |}) →
            ∃ new, sent (ws_send f s') = sent s ++ new ∧ Forall (echoes s) new).
  { intros s' f Hs Hf. unfold ws_send.
    destruct (readyState s'); simpl; try (by apply Hnone).
    rewrite Hs. eexists [_]. split; [done|].
    apply Forall_cons_2; [apply Hf|apply Forall_nil_2]. }
  destruct e; simpl.
  - by apply Hnone.
  - unfold on_open. simpl.
    destruct (Hsend (set_readyState OPEN s) (AuthFrame API_KEY)) as (new & Hs & Hn);
      [done|done|].
    exists new. split; [|done]. rewrite <- Hs. unfold ws_send. simpl. done.
  - unfold on_message. destruct parsed as [msg|]; [|by apply Hnone].
    destruct msg; try (by apply Hnone); simpl;
      destruct (is_str _ "auth_ok"); try (by apply Hnone);
      destruct (is_str _ "request"); try (by apply Hnone);
      unfold handleRequest; destruct (request_throws _ _); by apply Hnone.
  - by apply Hnone.
  - apply Hnone. unfold on_close. handlers. simpl. by destruct (pingInterval s).
  - by apply Hnone.
  - destruct (timers s !! t) as [[d|d]|]; try (by apply Hnone).
    unfold ping. destruct (decide _); [|by apply Hnone]. by apply Hsend.
  - by apply Hnone.
  - by apply Hnone.
  - unfold on_end. rewrite lookup_with_request.
    destruct (requests s !! h) as [r|] eqn:Hr; simpl; [|by apply Hnone].
    destruct r as [id ph [[status hdrs]|] chunks]; simpl; [|by apply Hnone].
    destruct (decide _); [|by apply Hnone].
    apply Hsend; [done|]. intros k t. unfold echoes. simpl. by eexists h, _.
  - by apply Hnone.
  - unfold on_error. rewrite lookup_with_request.
    destruct (requests s !! h) as [r|] eqn:Hr; simpl; [|by apply Hnone].
    destruct (decide _); [|by apply Hnone].
    apply Hsend; [done|]. intros k t. unfold echoes. simpl. by eexists h, _.
  - unfold on_timeout. destruct (requests s !! h) as [r|] eqn:Hr; [|by apply Hnone].
    destruct (decide _); [|by apply Hnone].
    apply Hsend; [done|]. intros k t. unfold echoes. simpl. by eexists h, _.
Qed.

Lemma echoes_step e s x : echoes s x → echoes (handle e s) x.
Proof.
  unfold echoes. destruct (frame x) as [| |id status hs body]; try done.
  intros (h & r & Hr & Hid).
  destruct (step_calls e s) as [(c & r0 & _ & -> & _)|(_ & _ & Hsame)].
  - exists h, r. split; [|done]. by apply lookup_app_l_Some.
  - specialize (Hsame h). rewrite Hr in Hsame. simpl in Hsame.
    apply fmap_Some in Hsame as (r' & Hr' & Hid'). exists h, r'.
    split; [done|congruence].
Qed.

(** X8.  The client makes up no [id]: every response frame it sends, for a
    local response or for a failure, carries the [id] of a request frame it
    received and still holds the request of. *)
Theorem responses_echo_request_ids s x id status hs body :
  reachable s → x ∈ sent s →
  frame x = ResponseFrame id status hs body →
  ∃ h r, requests s !! h = Some r ∧ rq_id r = id.
Proof.
  intros Hreach Hx Hfr.
  assert (Hall : Forall (echoes s) (sent s)).
  { clear x Hx Hfr. revert s Hreach.
    apply (reachable_invariant (λ s, Forall (echoes s) (sent s))).
    - intros t0. unfold boot. simpl. destruct (nonempty API_KEY); apply Forall_nil_2.
    - intros e s IH _. destruct (step_echo e s) as (new & -> & Hnew).
      apply Forall_app. split; (eapply Forall_impl; [eassumption|]);
        intros y; apply echoes_step. }
  rewrite Forall_forall in Hall. specialize (Hall x Hx).
  unfold echoes in Hall. by rewrite Hfr in Hall.
Qed.

(** X9.  Frames the client has no use for.  Data that is not JSON, and JSON
    other than [null] whose [type] is not ['request'] -- [auth_ok],
    [error], anything else, or no object at all -- change nothing.  The
    frame [null] ends the process, [msg.type] throwing outside the [try]:
    no event is handled after it, so the client does not reconnect. *)
Theorem frames_without_use s :
  (∀ parsed,
     match parsed with
     | None => True
     | Some msg => msg ≠ JNull ∧ is_str (prop msg "type") "request" = false
     end →
     handle (WsMessage parsed) s = s)
  ∧ alive (handle (WsMessage (Some JNull)) s) = false
  ∧ (∀ tr s', run tr (handle (WsMessage (Some JNull)) s) = Some s' → tr = []).
Proof.
  split_and!.
  - intros [msg|]; [|done]. intros [Hnull Hty]. simpl. unfold on_message.
    destruct msg; try done; simpl in *; rewrite Hty; by destruct (is_str _ "auth_ok").
  - done.
  - intros tr s' Hrun. by apply run_dead in Hrun as [-> _].
Qed.

(** No timer is due later than 30 seconds from now. *)
Definition timely (s : State) : Prop :=
  ∀ t tm, timers s !! t = Some tm → due tm ≤ now s + 30000.

(** A running client whose socket is closed has its reconnect scheduled. *)
Definition retrying (s : State) : Prop :=
  alive s = true → readyState s = CLOSED →
  ∃ t d, timers s !! t = Some (ConnectAt d).

Lemma timely_boot t0 : timely (boot t0).
Proof.
  unfold boot, timely. simpl. destruct (nonempty API_KEY); simpl;
    intros *; by rewrite lookup_empty.
Qed.

Lemma retrying_boot t0 : retrying (boot t0).
Proof. unfold boot, retrying. simpl. by destruct (nonempty API_KEY). Qed.

(** Events that leave clock and timers alone. *)
Lemma timely_frame s s' :
  timely s → timers s' = timers s → now s' = now s → timely s'.
Proof. intros Ht Htm Hn. unfold timely. by rewrite Htm, Hn. Qed.

Lemma timely_step e s :
  delay_ok s → timely s → enabled e s → timely (handle e s).
Proof.
  intros [Hd _] Ht [_ Hen].
  destruct e; simpl in Hen;
    try (apply (timely_frame s); [done | handlers; simpl; by split_tests ..]).
  - (* time passes *)
    intros t tm Hlk. simpl in *. specialize (Ht t tm Hlk). lia.
  - (* 'open' *)
    intros t tm. unfold handle, on_open, ws_send. simpl. intros Hlk.
    destruct (decide (t = timer_count s)) as [->|Hne].
    + rewrite lookup_insert_eq in Hlk. injection Hlk as <-. simpl. lia.
    + rewrite lookup_insert_ne in Hlk by done. by apply (Ht _ _ Hlk).
  - (* 'close' *)
    intros t tm. unfold handle, on_close, setTimeout_connect, clearInterval.
    simpl. destruct (pingInterval s) as [p|]; simpl; intros Hlk;
      (destruct (decide (t = timer_count s)) as [->|Hne];
       [rewrite lookup_insert_eq in Hlk; injection Hlk as <-; simpl; lia
       |rewrite lookup_insert_ne in Hlk by done]).
    + apply lookup_delete_Some in Hlk as [_ Hlk]. by apply (Ht _ _ Hlk).
    + by apply (Ht _ _ Hlk).
  - (* a timer fires *)
    simpl. destruct (timers s !! t) as [[d|d]|] eqn:Hlk0; [| |done]; simpl in Hen.
    + pose proof (Ht t _ Hlk0) as Hd0. simpl in Hd0.
      assert (Hsame : ∀ s0, timers (ping s0) = timers s0 ∧ now (ping s0) = now s0).
      { intros s0. unfold ping, ws_send. by split_tests. }
      intros t' tm. destruct (Hsame (set_timers (<[t:=PingEvery (now s + 25000)]> (timers s)) s))
        as [-> ->]. simpl. intros Hlk.
      destruct (decide (t' = t)) as [->|Hne].
      * rewrite lookup_insert_eq in Hlk. injection Hlk as <-. simpl. lia.
      * rewrite lookup_insert_ne in Hlk by done. by apply (Ht _ _ Hlk).
    + intros t' tm. unfold connect. simpl. intros Hlk.
      apply lookup_delete_Some in Hlk as [_ Hlk]. by apply (Ht _ _ Hlk).
Qed.

Lemma retrying_step e s :
  tidy s → retrying s → enabled e s → retrying (handle e s).
Proof.
  intros (Hping & _ & _) Hr [Halive Hen].
  assert (Hsame : ∀ s', timers s' = timers s → readyState s' = readyState s →
                        retrying s').
  { intros s' Htm Hrs _ Hc. rewrite Htm. apply Hr; congruence. }
  destruct e; simpl in Hen;
    try (apply Hsame; handlers; simpl; by split_tests).
  - (* 'open' *)
    intros _ Hc. revert Hc. unfold handle, on_open, ws_send. by simpl.
  - (* a frame arrives *)
    intros _ Hc. exfalso. revert Hc. unfold handle, on_message, handleRequest.
    split_tests; simpl; congruence.
  - (* 'close' *)
    intros _ _. unfold handle, on_close, setTimeout_connect, clearInterval.
    simpl. destruct (pingInterval s); simpl; eexists _, _; apply lookup_insert_eq.
  - (* a timer fires *)
    simpl. destruct (timers s !! t) as [[d|d]|] eqn:Hlk0; [| |done].
    + intros _ Hc. exfalso.
      assert (Hrs : ∀ s0, readyState (ping s0) = readyState s0)
        by (intros s0; unfold ping, ws_send; by split_tests).
      rewrite Hrs in Hc. simpl in Hc.
      destruct (Hping t d Hlk0) as [_ [?|?]]; congruence.
    + intros _ Hc. unfold connect in Hc. by simpl in Hc.
Qed.

(** X10.  The client never gives up: whenever it runs and its socket is
    closed, exactly one timer is alive, the reconnect, due no later than 30
    seconds from now; and once it is due it can fire, and then the client
    makes a new socket. *)
Theorem reconnect_is_pending s :
  reachable s → alive s = true → readyState s = CLOSED →
  ∃ t d, timers s !! t = Some (ConnectAt d)
         ∧ (∀ t' tm, timers s !! t' = Some tm → t' = t)
         ∧ d ≤ now s + 30000
         ∧ (d ≤ now s →
            enabled (TimerFires t) s
            ∧ ws (handle (TimerFires t) s) = S (ws s)
            ∧ readyState (handle (TimerFires t) s) = CONNECTING).
Proof.
  intros Hreach Halive Hc.
  assert (Hinv : (delay_ok s ∧ tidy s) ∧ timely s ∧ retrying s).
  { clear Halive Hc. revert s Hreach.
    apply (reachable_invariant (λ s, (delay_ok s ∧ tidy s) ∧ timely s ∧ retrying s)).
    - intros t0. split_and!;
        [apply delay_ok_boot | apply tidy_boot | apply timely_boot | apply retrying_boot].
    - intros e s ([Hd Hty] & Ht & Hr) Hen. split_and!.
      + by apply delay_ok_step.
      + by apply tidy_step.
      + by apply timely_step.
      + by apply retrying_step. }
  destruct Hinv as ([_ (_ & _ & Huniq)] & Ht & Hr).
  destruct (Hr Halive Hc) as (t & d & Hlk). exists t, d. split_and!.
  - done.
  - intros t' tm Hlk'. by apply (Huniq _ _ _ _ Hlk' Hlk).
  - apply (Ht _ _ Hlk).
  - intros Hdue. split_and!.
    + split; [done|]. simpl. by rewrite Hlk.
    + simpl. by rewrite Hlk.
    + simpl. by rewrite Hlk.
Qed.

(** X11.  Timers do not pile up over reconnects: in every state the client
    can reach at most one timer is alive.  A ping interval is alive only
    while the socket is open or closing, and is the one [pingInterval]
    names; a reconnect timeout only while the socket is closed. *)
Theorem timers_do_not_pile_up s :
  reachable s →
  (∀ t t' tm tm', timers s !! t = Some tm → timers s !! t' = Some tm' → t = t')
  ∧ (∀ t d, timers s !! t = Some (PingEvery d) →
       pingInterval s = Some t ∧ (readyState s = OPEN ∨ readyState s = CLOSING))
  ∧ (∀ t d, timers s !! t = Some (ConnectAt d) → readyState s = CLOSED).
Proof.
  intros Hreach. destruct (tidy_reachable s Hreach) as (Hping & Hconn & Huniq).
  split_and!; [exact Huniq | exact Hping | exact Hconn].
Qed.

(** How many response frames a local request may still cause: two while
    nothing came back (a timeout and then the error of the destroyed
    request), one once its response is coming in or once it was destroyed,
    none when it is over. *)
Definition owes (r : Request) : nat :=
  match rq_phase r with
  | Pending => 2
  | Receiving | Hangup => 1
  | Over => 0
  end.

(** The same by handle; a request not made yet may cause two. *)
Definition due_of (h : nat) (s : State) : nat :=
  match requests s !! h with
  | Some r => owes r
  | None => 2
  end.

Definition is_response (f : Frame) : bool :=
  match f with ResponseFrame _ _ _ _ => true | _ => false end.

(** The response frames among the frames sent. *)
Definition responses (l : list Sent) : nat :=
  length (filter (λ x, is_response (frame x)) l).

(** The local request whose callback an event runs. *)
Definition about (e : Event) : option nat :=
  match e with
  | HttpResponse h _ _ | HttpData h _ | HttpEnd h | HttpAborted h
  | HttpError h | HttpTimeout h => Some h
  | _ => None
  end.

(** The response frames that delivering [e] in [s] adds. *)
Definition answers_added (e : Event) (s : State) : nat :=
  responses (sent (handle e s)) - responses (sent s).

(** The response frames sent for request [h] along a trace: those added by
    the events that run a callback of [h]. *)
Fixpoint answers_for (h : nat) (tr : list Event) (s : State) : nat :=
  match tr with
  | [] => 0
  | e :: tr =>
      (if decide (about e = Some h) then answers_added e s else 0)
      + answers_for h tr (handle e s)
  end.

(** The same summed over the requests [0 .. n-1]. *)
Definition answers_upto (n : nat) (tr : list Event) (s : State) : nat :=
  foldr (λ h acc, answers_for h tr s + acc)%nat 0%nat (seq 0 n).

Lemma responses_snoc l x :
  responses (l ++ [x]) = (responses l + if is_response (frame x) then 1 else 0)%nat.
Proof.
  unfold responses. rewrite filter_app, length_app. f_equal.
  rewrite filter_cons. by destruct (is_response (frame x)).
Qed.

(** An event that runs no callback of a local call sends no response
    frame; it leaves the requests alone or adds a pending one. *)
Lemma step_no_call e s :
  about e = None →
  responses (sent (handle e s)) = responses (sent s)
  ∧ (requests (handle e s) = requests s
     ∨ ∃ r, requests (handle e s) = requests s ++ [r] ∧ rq_phase r = Pending).
Proof.
  destruct e; try done; intros _; handlers; simpl; split_tests;
    rewrite ?responses_snoc; simpl;
    (split; [lia | first [by left | right; by eexists]]).
Qed.

(** An event that runs a callback of request [h]: at most one frame, with
    the [id] of [h], and [h] owes that much less. *)
Lemma step_call e s h :
  about e = Some h → enabled e s →
  ∃ r, requests s !! h = Some r
    ∧ ∃ f new,
        requests (handle e s) = alter f h (requests s)
        ∧ sent (handle e s) = sent s ++ new
        ∧ (length new ≤ 1)%nat
        ∧ (length new + owes (f r) ≤ owes r)%nat
        ∧ Forall (λ x, ∃ status hs body,
                    frame x = ResponseFrame (rq_id r) status hs body) new.
Proof.
  intros Hab [_ Hen].
  assert (Hphase : ∀ p, phase_of h s = Some p →
            ∃ r, requests s !! h = Some r ∧ rq_phase r = p).
  { intros p Hp. unfold phase_of in Hp. apply fmap_Some in Hp as (r & Hr & ->).
    by exists r. }
  assert (Hsend : ∀ fr s', sent s' = sent s →
            ∃ new, sent (ws_send fr s') = sent s ++ new
                   ∧ requests (ws_send fr s') = requests s'
                   ∧ (length new ≤ 1)%nat
                   ∧ Forall (λ x, frame x = fr) new).
  { intros fr s' Hs. unfold ws_send. destruct (readyState s'); simpl; rewrite Hs;
      first [ by (exists []; rewrite app_nil_r; split_and!;
                  [done | done | simpl; lia | apply Forall_nil_2])
            | by (eexists [_]; split_and!;
                  [done | done | simpl; lia | by apply Forall_singleton]) ]. }
  assert (Hnone : ∀ s' f (r : Request), sent s' = sent s →
            requests s' = alter f h (requests s) →
            (owes (f r) ≤ owes r)%nat →
            ∃ f new,
              requests s' = alter f h (requests s)
              ∧ sent s' = sent s ++ new
              ∧ (length new ≤ 1)%nat
              ∧ (length new + owes (f r) ≤ owes r)%nat
              ∧ Forall (λ x, ∃ status hs body,
                          frame x = ResponseFrame (rq_id r) status hs body) new).
  { intros s' f r Hs Hrq Hle. exists f, []. rewrite app_nil_r.
    split_and!; first [done | simpl; lia | apply Forall_nil_2]. }
  assert (Hone : ∀ s' f (r : Request) status hs body, sent s' = sent s →
            requests s' = alter f h (requests s) →
            (1 + owes (f r) ≤ owes r)%nat →
            ∃ f new,
              requests (ws_send (ResponseFrame (rq_id r) status hs body) s')
              = alter f h (requests s)
              ∧ sent (ws_send (ResponseFrame (rq_id r) status hs body) s')
                = sent s ++ new
              ∧ (length new ≤ 1)%nat
              ∧ (length new + owes (f r) ≤ owes r)%nat
              ∧ Forall (λ x, ∃ status hs body,
                          frame x = ResponseFrame (rq_id r) status hs body) new).
  { intros s' f r status hs body Hs Hrq Hle.
    destruct (Hsend (ResponseFrame (rq_id r) status hs body) s' Hs)
      as (new & Hsent & Hreq & Hlen & Hall).
    exists f, new. rewrite Hreq. split_and!; try done; [lia|].
    eapply Forall_impl; [exact Hall|]. intros x ->. by eexists _, _, _. }
  destruct e; try done; simpl in Hab; injection Hab as ->; simpl in Hen.
  - (* the response callback *)
    destruct (Hphase _ Hen) as (r & Hr & Hp). exists r. split; [exact Hr|].
    apply (Hnone (on_response h status hdrs s) _ r eq_refl eq_refl).
    unfold owes. simpl. rewrite Hp. lia.
  - (* a chunk *)
    destruct (Hphase _ Hen) as (r & Hr & Hp). exists r. split; [exact Hr|].
    apply (Hnone (on_data h chunk s) _ r eq_refl eq_refl).
    unfold owes. simpl. lia.
  - (* the response ends *)
    destruct (Hphase _ Hen) as (r & Hr & Hp). exists r. split; [exact Hr|].
    assert (Hle : (1 + owes (set_phase Over r) ≤ owes r)%nat)
      by (unfold owes; simpl; rewrite Hp; lia).
    pose proof (Hnone (with_request h (set_phase Over) s) (set_phase Over) r
                  eq_refl eq_refl ltac:(lia)) as Hquiet.
    pose proof (λ status hs body,
                  Hone (with_request h (set_phase Over) s) (set_phase Over) r
                    status hs body eq_refl eq_refl Hle) as Hframe.
    simpl. unfold on_end. rewrite lookup_with_request, Hr.
    destruct r as [id ph [[status hdrs]|] chunks]; simpl in *; [|exact Hquiet].
    destruct (decide _); [|exact Hquiet]. apply Hframe.
  - (* the connection is lost mid-body *)
    destruct (Hphase _ Hen) as (r & Hr & Hp). exists r. split; [exact Hr|].
    apply (Hnone (with_request h (set_phase Over) s) _ r eq_refl eq_refl).
    unfold owes. simpl. rewrite Hp. lia.
  - (* 'error' on the request *)
    assert (∃ r, requests s !! h = Some r ∧ rq_phase r ≠ Over) as (r & Hr & Hp).
    { destruct Hen as [Hen|[Hen|Hen]]; destruct (Hphase _ Hen) as (r & Hr & Hp);
        exists r; split; try done; congruence. }
    exists r. split; [exact Hr|].
    assert (Hle : (1 + owes (set_phase Over r) ≤ owes r)%nat)
      by (unfold owes; simpl; destruct (rq_phase r); try done; lia).
    simpl. unfold on_error. rewrite lookup_with_request, Hr. simpl.
    destruct (decide _).
    + by apply (Hone (with_request h (set_phase Over) s) (set_phase Over) r).
    + apply (Hnone (with_request h (set_phase Over) s) (set_phase Over) r
               eq_refl eq_refl). lia.
  - (* the timeout *)
    assert (∃ r, requests s !! h = Some r ∧ (rq_phase r = Pending ∨ rq_phase r = Receiving))
      as (r & Hr & Hp).
    { destruct Hen as [Hen|Hen]; destruct (Hphase _ Hen) as (r & Hr & Hp);
        exists r; auto. }
    exists r. split; [exact Hr|].
    assert (Hle : (1 + owes (destroy r) ≤ owes r)%nat)
      by (unfold owes, destroy; simpl; destruct Hp as [-> | ->]; simpl; lia).
    simpl. unfold on_timeout. rewrite Hr.
    destruct (decide _).
    + by apply (Hone (with_request h destroy s) destroy r).
    + apply (Hnone (with_request h destroy s) destroy r eq_refl eq_refl). lia.
Qed.

Lemma responses_app l new :
  (length new ≤ 1)%nat →
  Forall (λ x, is_response (frame x) = true) new →
  responses (l ++ new) = (responses l + length new)%nat.
Proof.
  intros Hlen Hall. destruct new as [|x [|? ?]]; [| |simpl in Hlen; lia].
  - rewrite app_nil_r. simpl. lia.
  - apply Forall_cons in Hall as [Hx _]. by rewrite responses_snoc, Hx.
Qed.

Lemma step_call_added e s h :
  about e = Some h → enabled e s →
  ∃ r f,
    requests s !! h = Some r
    ∧ requests (handle e s) = alter f h (requests s)
    ∧ responses (sent (handle e s)) = (responses (sent s) + answers_added e s)%nat
    ∧ (answers_added e s + owes (f r) ≤ owes r)%nat.
Proof.
  intros Hab Hen.
  destruct (step_call e s h Hab Hen)
    as (r & Hr & f & new & Hrq & Hs & Hlen & Hle & Hall).
  assert (Hresp : responses (sent (handle e s)) = (responses (sent s) + length new)%nat).
  { rewrite Hs. apply responses_app; [done|].
    eapply Forall_impl; [exact Hall|]. by intros x (? & ? & ? & ->). }
  exists r, f. unfold answers_added. rewrite Hresp. split_and!; try done; lia.
Qed.

(** One step: what it sends for [h] comes off what [h] owes. *)
Lemma due_of_step e s h :
  enabled e s →
  ((if decide (about e = Some h) then answers_added e s else 0)
   + due_of h (handle e s) ≤ due_of h s)%nat.
Proof.
  intros Hen. destruct (about e) as [h'|] eqn:Hab.
  - destruct (step_call_added e s h' Hab Hen) as (r & f & Hr & Hrq & _ & Hle).
    unfold due_of. rewrite Hrq.
    destruct (decide (Some h' = Some h)) as [[= ->]|Hne].
    + by rewrite list_lookup_alter_eq, Hr.
    + rewrite list_lookup_alter_ne by congruence. simpl. lia.
  - rewrite decide_False by done.
    destruct (step_no_call e s Hab) as [_ [Hrq|(r & Hrq & Hp)]];
      unfold due_of; rewrite Hrq; [simpl; lia|].
    destruct (requests s !! h) as [r0|] eqn:Hr0.
    + by rewrite (lookup_app_l_Some _ _ _ _ Hr0).
    + simpl. destruct ((requests s ++ [r]) !! h) as [r1|] eqn:Hr1; [|lia].
      apply lookup_app_Some in Hr1 as [Hr1|[_ Hr1]]; [congruence|].
      apply list_lookup_singleton_Some in Hr1 as [_ <-]. unfold owes. by rewrite Hp.
Qed.

Lemma due_of_run h tr : ∀ s s',
  run tr s = Some s' → (answers_for h tr s + due_of h s' ≤ due_of h s)%nat.
Proof.
  induction tr as [|e tr IH]; intros s s' Hrun; simpl in Hrun.
  - injection Hrun as <-. simpl. lia.
  - destruct (decide (enabled e s)) as [Hen|]; [|done].
    specialize (IH _ _ Hrun). pose proof (due_of_step e s h Hen). simpl. lia.
Qed.

Lemma answers_upto_nil n s : answers_upto n [] s = 0%nat.
Proof. unfold answers_upto. induction (seq 0 n) as [|h l IH]; simpl in *; done. Qed.

(** One event of request [h'], summed over the requests. *)
Lemma answers_upto_cons n e tr s :
  answers_upto n (e :: tr) s
  = (match about e with
     | Some h' => if decide (h' < n)%nat then answers_added e s else 0
     | None => 0
     end + answers_upto n tr (handle e s))%nat.
Proof.
  unfold answers_upto.
  assert (Hgen : ∀ k,
    foldr (λ h acc, answers_for h (e :: tr) s + acc)%nat 0%nat (seq k n)
    = (match about e with
       | Some h' => if decide (k ≤ h' < k + n)%nat then answers_added e s else 0
       | None => 0
       end
       + foldr (λ h acc, answers_for h tr (handle e s) + acc)%nat 0%nat (seq k n))%nat).
  { induction n as [|n IH]; intros k; simpl.
    - destruct (about e) as [h'|]; [|done]. by rewrite decide_False by lia.
    - rewrite IH. destruct (about e) as [h'|]; simpl.
      + destruct (decide (Some h' = Some k)) as [[= ->]|Hne].
        * repeat case_decide; lia.
        * assert (h' ≠ k) by congruence. repeat case_decide; lia.
      + repeat case_decide; first [done | lia]. }
  rewrite (Hgen 0%nat). destruct (about e) as [h'|]; [|done].
  repeat case_decide; lia.
Qed.

Lemma requests_grow e s : (length (requests s) ≤ length (requests (handle e s)))%nat.
Proof.
  destruct (step_calls e s) as [(c & r & _ & -> & _)|(_ & -> & _)]; [|done].
  rewrite length_app. simpl. lia.
Qed.

Lemma requests_grow_run tr : ∀ s s',
  run tr s = Some s' → (length (requests s) ≤ length (requests s'))%nat.
Proof.
  induction tr as [|e tr IH]; intros s s' Hrun; simpl in Hrun.
  - by injection Hrun as <-.
  - destruct (decide (enabled e s)); [|done].
    specialize (IH _ _ Hrun). pose proof (requests_grow e s). lia.
Qed.

Lemma responses_run tr : ∀ s s' n,
  run tr s = Some s' → (length (requests s') ≤ n)%nat →
  responses (sent s') = (responses (sent s) + answers_upto n tr s)%nat.
Proof.
  induction tr as [|e tr IH]; intros s s' n Hrun Hn; simpl in Hrun.
  - injection Hrun as <-. rewrite answers_upto_nil. lia.
  - destruct (decide (enabled e s)) as [Hen|]; [|done].
    rewrite (IH _ _ n Hrun Hn), answers_upto_cons.
    destruct (about e) as [h'|] eqn:Hab.
    + destruct (step_call_added e s h' Hab Hen) as (r & f & Hr & _ & -> & _).
      apply lookup_lt_Some in Hr.
      pose proof (requests_grow e s). pose proof (requests_grow_run _ _ _ Hrun).
      rewrite decide_True by lia. lia.
    + destruct (step_no_call e s Hab) as [-> _]. lia.
Qed.

(** X12.  However its local call ends, no request is answered more than
    twice.  Response frames are sent only by the callbacks of the local
    calls, one frame at most each time one runs, carrying the [id] of its
    own request; and counting for each request the frames its callbacks
    sent, together with those it may yet cause (two before anything came
    back, one while its response comes in or after it was destroyed), never
    gives more than two.  These counts add up to all the response frames
    sent. *)
Theorem at_most_two_answers :
  (∀ t0 tr s h,
     run tr (boot t0) = Some s →
     (answers_for h tr (boot t0) + due_of h s ≤ 2)%nat)
  ∧ (∀ t0 tr s,
       run tr (boot t0) = Some s →
       length (filter (λ x, is_response (frame x)) (sent s))
       = answers_upto (length (requests s)) tr (boot t0))
  ∧ (∀ e s, about e = None →
       length (filter (λ x, is_response (frame x)) (sent (handle e s)))
       = length (filter (λ x, is_response (frame x)) (sent s)))
  ∧ (∀ e s h,
       about e = Some h → enabled e s →
       ∃ r new,
         requests s !! h = Some r
         ∧ sent (handle e s) = sent s ++ new
         ∧ (length new ≤ 1)%nat
         ∧ Forall (λ x, ∃ status hs body,
                     frame x = ResponseFrame (rq_id r) status hs body) new).
Proof.
  split_and!.
  - intros t0 tr s h Hrun. pose proof (due_of_run h tr _ _ Hrun) as Hle.
    assert (due_of h (boot t0) = 2%nat)
      by (unfold due_of, boot; simpl; by destruct (nonempty API_KEY)).
    lia.
  - intros t0 tr s Hrun.
    pose proof (responses_run tr _ _ (length (requests s)) Hrun (le_n _)) as Heq.
    unfold responses in Heq at 1. rewrite Heq.
    assert (responses (sent (boot t0)) = 0%nat)
      by (unfold boot; simpl; by destruct (nonempty API_KEY)).
    lia.
  - intros e s Hab. by destruct (step_no_call e s Hab) as [? _].
  - intros e s h Hab Hen.
    destruct (step_call e s h Hab Hen) as (r & Hr & f & new & _ & Hs & Hlen & _ & Hall).
    by exists r, new.
Qed.

End Model.

Arguments Elapse {rt} dt.
Arguments WsOpen {rt}.
Arguments WsMessage {rt} parsed.
Arguments WsClosing {rt}.
Arguments WsClose {rt}.
Arguments WsError {rt}.
Arguments TimerFires {rt} t.
Arguments HttpResponse {rt} h status hdrs.
Arguments HttpData {rt} h chunk.
Arguments HttpEnd {rt} h.
Arguments HttpAborted {rt} h.
Arguments HttpError {rt} h.
Arguments HttpTimeout {rt} h.
Arguments AuthFrame {rt} api_key.
Arguments PingFrame {rt}.
Arguments ResponseFrame {rt} id status headers body.

(** ** Worked examples, on the integer runtime *)

Definition demo_env : Env :=
  {| BOTROULETTE_API_KEY := Some "kp_live_k1"; LOCAL_PORT_var := None |}.

Definition auth_ok_msg : JSON (number int_runtime) :=
  JObj [("type", JStr "auth_ok"); ("tunnel_url", JStr "https://x.example")].

Definition request_r1 : JSON (number int_runtime) :=
  JObj [("type", JStr "request"); ("id", JStr "r1"); ("method", JStr "POST");
        ("path", JStr "/"); ("body", JObj [("message", JStr "hi")])].

(** A frame that leaves method, path and body out. *)
Definition request_bare : JSON (number int_runtime) :=
  JObj [("type", JStr "request"); ("id", JStr "r2")].

Definition reply_headers : gmap string HeaderValue :=
  list_to_map [("content-type", HString "application/json");
               ("content-length", HString "17");
               ("ETag", HString "W/x");
               ("set-cookie", HArray ["a=1"])].

(** The script started at time 0; then the socket opened; then [r1] came. *)
Definition started : State int_runtime := boot int_runtime demo_env 0.
Definition opened : State int_runtime := handle int_runtime demo_env WsOpen started.
Definition asked : State int_runtime :=
  handle int_runtime demo_env (WsMessage (Some request_r1)) opened.
(** The local server answered 200 with one chunk, not yet ended. *)
Definition answered : State int_runtime :=
  handle int_runtime demo_env (HttpData 0 "{}")
    (handle int_runtime demo_env (HttpResponse 0 200 reply_headers) asked).

Definition pending_r1 : Request int_runtime :=
  {| rq_id := Some (JStr "r1"); rq_phase := Pending; rq_res := None; rq_chunks := [] |}.

Lemma opened_reachable : reachable int_runtime demo_env opened.
Proof. exists 0, [WsOpen]. (vm_compute; reflexivity). Defined.

Lemma asked_reachable : reachable int_runtime demo_env asked.
Proof. exists 0, [WsOpen; WsMessage (Some request_r1)]. (vm_compute; reflexivity). Defined.

Lemma timeout_answers_twice_witness :
  requests _ asked !! 0%nat = Some pending_r1
  ∧ map (frame _)
        (sent _ (handle int_runtime demo_env (HttpError 0)
                   (handle int_runtime demo_env (HttpTimeout 0) asked)))
    = [AuthFrame "kp_live_k1";
       ResponseFrame (Some (JStr "r1")) 504
         {[ "content-type" := "application/json" ]}
         (stringify (JObj [("error", JStr "timeout")]));
       ResponseFrame (Some (JStr "r1")) 502
         {[ "content-type" := "application/json" ]}
         (stringify (JObj [("error", JStr "local server unreachable")]))].
Proof.
  split; [(vm_compute; reflexivity)|].
  destruct (timeout_answers_twice int_runtime demo_env asked 0 pending_r1)
    as (_ & _ & ->); (vm_compute; reflexivity).
Defined.

(** C2 as stated fails: the socket closes while the local call is in
    flight, the call then fails with a connection error, and no Response
    Frame goes out -- the auth frame is all the client ever sent. *)
Lemma closed_socket_drops_502 :
  (sent _ <$> run int_runtime demo_env
                [WsOpen; WsMessage (Some request_r1); WsClose; HttpError 0]
                started)
  = Some [{| on_socket := 1; at_time := 0; frame := AuthFrame "kp_live_k1" |}].
Proof. (vm_compute; reflexivity). Qed.

Lemma local_failure_frames_witness :
  requests _ asked !! 0%nat = Some pending_r1
  ∧ readyState _ asked = OPEN
  ∧ sent _ (handle int_runtime demo_env (HttpError 0) asked)
    = sent _ asked
        ++ [{| on_socket := 1; at_time := 0;
               frame := ResponseFrame (Some (JStr "r1")) 502
                          {[ "content-type" := "application/json" ]}
                          (stringify (JObj [("error", JStr "local server unreachable")])) |}].
Proof.
  split; [(vm_compute; reflexivity)|]. split; [(vm_compute; reflexivity)|].
  destruct (local_failure_frames int_runtime demo_env asked 0 pending_r1)
    as [Hopen _]; [(vm_compute; reflexivity)|].
  destruct Hopen as [Herr _]; [(vm_compute; reflexivity)|]. exact Herr.
Defined.

(** Six failed attempts in a row, each retried when its timer fires. *)
Definition failures : list (Event int_runtime) :=
  [WsClose; Elapse 1000; TimerFires 0;
   WsClose; Elapse 2000; TimerFires 1;
   WsClose; Elapse 4000; TimerFires 2;
   WsClose; Elapse 8000; TimerFires 3;
   WsClose; Elapse 16000; TimerFires 4;
   WsClose; Elapse 30000; TimerFires 5;
   WsClose].

Lemma reconnect_backoff_witness :
  ∃ s', run int_runtime demo_env failures started = Some s'
        ∧ delays _ s' = [1000; 2000; 4000; 8000; 16000; 30000; 30000].
Proof.
  destruct (reconnect_backoff int_runtime demo_env) as (_ & _ & _ & Hrun).
  destruct (run int_runtime demo_env failures started) as [s'|] eqn:E;
    [|vm_compute in E; discriminate E].
  exists s'. split; [reflexivity|].
  destruct (Hrun started failures s') as [-> _];
    [vm_compute; reflexivity | exact E | repeat constructor | vm_compute; reflexivity].
Defined.

(** Two attempts failed: the delay has grown to 4000 ms and a third socket
    is being connected (the second reconnect timer ran 31 ms late). *)
Definition retries : list (Event int_runtime) :=
  [WsClose; Elapse 1000; TimerFires 0; WsClose; Elapse 2031; TimerFires 1].

Definition retried : State int_runtime :=
  foldl (λ s e, handle int_runtime demo_env e s) started retries.

Lemma retried_run : run int_runtime demo_env retries started = Some retried.
Proof. vm_compute; reflexivity. Qed.

Lemma auth_ok_delay_floor_witness :
  reconnectDelay _ retried = 4000
  ∧ enabled int_runtime WsOpen retried
  ∧ ∃ s', run int_runtime demo_env [WsOpen; WsMessage (Some auth_ok_msg)] retried
          = Some s'
          ∧ reconnectDelay _ s' = 1000.
Proof.
  assert (Hen : enabled int_runtime WsOpen retried)
    by (split; (vm_compute; reflexivity)).
  split; [vm_compute; reflexivity|]. split; [exact Hen|].
  destruct (auth_ok_delay_floor int_runtime demo_env) as (_ & _ & _ & Hreset).
  apply Hreset; [exact Hen | vm_compute; reflexivity].
Defined.

Lemma answered_reachable : reachable int_runtime demo_env answered.
Proof.
  exists 0, [WsOpen; WsMessage (Some request_r1);
             HttpResponse 0 200 reply_headers; HttpData 0 "{}"].
  vm_compute; reflexivity.
Defined.

(** The scenario the guides walk through: [r1] is forwarded as
    [POST /] with its body serialized, the local server answers 200 with
    [hello_body], and one frame goes back with the same [id], the status,
    the [content-type] header alone and the body as it came. *)
Definition hello_body : string := stringify (JObj [("reply", JStr "hello")]).

Example end_to_end :
  (λ s, (map (frame _) (sent _ s), map (written _) (calls _ s)))
    <$> run int_runtime demo_env
          [WsOpen; WsMessage (Some auth_ok_msg); WsMessage (Some request_r1);
           HttpResponse 0 200 reply_headers; HttpData 0 hello_body; HttpEnd 0]
          started
  = Some ([AuthFrame "kp_live_k1";
           ResponseFrame (Some (JStr "r1")) 200
             {[ "content-type" := "application/json" ]} hello_body],
          [[stringify (JObj [("message", JStr "hi")])]]).
Proof. vm_compute; reflexivity. Qed.

(** The variable [ws] is shared: an answer that comes after the socket was
    replaced goes out on the newer socket. *)
Example late_answer_on_newer_socket :
  (λ s, map (λ x, (on_socket _ x, frame _ x)) (sent _ s))
    <$> run int_runtime demo_env
          [WsOpen; WsMessage (Some request_r1); WsClose; Elapse 1000;
           TimerFires 1; WsOpen;
           HttpResponse 0 200 reply_headers; HttpData 0 hello_body; HttpEnd 0]
          started
  = Some [(1%nat, AuthFrame "kp_live_k1"); (2%nat, AuthFrame "kp_live_k1");
          (2%nat, ResponseFrame (Some (JStr "r1")) 200
                    {[ "content-type" := "application/json" ]} hello_body)].
Proof. vm_compute; reflexivity. Qed.

(** The local answer of [answered], ended: its frame keeps [content-type]
    and loses [content-length], [ETag] and the array-valued [set-cookie]. *)
Lemma response_headers_filtered_witness :
  ∃ hs body,
    sent _ (handle int_runtime demo_env (HttpEnd 0) answered)
    = sent _ answered
        ++ [{| on_socket := 1; at_time := 0;
               frame := ResponseFrame (Some (JStr "r1")) 200 hs body |}]
    ∧ hs !! "content-type" = Some "application/json"
    ∧ hs !! "ETag" = None.
Proof.
  destruct (response_headers_filtered int_runtime demo_env) as [Hnever Hfwd].
  destruct (Hfwd answered 0%nat
              {| rq_id := Some (JStr "r1"); rq_phase := Receiving;
                 rq_res := Some (200, reply_headers); rq_chunks := ["{}"] |}
              200 reply_headers)
    as (hs & body & Hsent & Hkeep);
    [vm_compute; reflexivity | reflexivity | vm_compute; reflexivity |].
  exists hs, body. split; [exact Hsent|]. split.
  - apply Hkeep; [vm_compute; reflexivity | | done].
    intros Hin. vm_compute in Hin. by repeat (apply elem_of_cons in Hin as [Hin|Hin]; [done|]);
      apply elem_of_nil in Hin.
  - apply (Hnever (handle int_runtime demo_env (HttpEnd 0) answered)
             {| on_socket := 1; at_time := 0;
                frame := ResponseFrame (Some (JStr "r1")) 200 hs body |}
             (Some (JStr "r1")) 200 hs body).
    + apply (reachable_step _ _ (HttpEnd 0)); [exact answered_reachable|].
      split; vm_compute; reflexivity.
    + rewrite Hsent. apply elem_of_app. right. by apply list_elem_of_singleton.
    + reflexivity.
    + vm_compute. apply elem_of_cons. right. apply elem_of_cons. right.
      apply elem_of_cons. right. apply elem_of_cons. right.
      apply elem_of_cons. by left.
Defined.

(** C6 as stated fails: the event loop runs the interval's callback 32 ms
    late.  At 25032 ms after the ['open'] the socket is open and the auth
    frame, 25032 ms old, is all that was sent on it; then the ping goes
    out. *)
Lemma ping_later_than_25_seconds :
  (∃ s, run int_runtime demo_env [WsOpen; Elapse 25032] started = Some s
        ∧ readyState _ s = OPEN
        ∧ now _ s = 25032
        ∧ sent _ s = [{| on_socket := 1; at_time := 0;
                         frame := AuthFrame "kp_live_k1" |}])
  ∧ (sent _ <$> run int_runtime demo_env
                   [WsOpen; Elapse 25032; TimerFires 0] started)
    = Some [{| on_socket := 1; at_time := 0; frame := AuthFrame "kp_live_k1" |};
            {| on_socket := 1; at_time := 25032; frame := PingFrame |}].
Proof.
  split; [|vm_compute; reflexivity].
  eexists. split; [vm_compute; reflexivity|]. by split_and!.
Qed.

(** The first ping goes out 25032 ms after the open, and ten seconds
    pass. *)
Definition beat_then_close : list (Event int_runtime) :=
  [Elapse 25032; TimerFires 0; Elapse 10000].

Definition beaten : State int_runtime :=
  foldl (λ s e, handle int_runtime demo_env e s) opened beat_then_close.

(** After the close the client reconnects, opens, and beats again. *)
Definition reopened : list (Event int_runtime) :=
  [Elapse 1000; TimerFires 1; WsOpen; Elapse 25000; TimerFires 2].

Definition beaten_again : State int_runtime :=
  foldl (λ s e, handle int_runtime demo_env e s)
        (handle int_runtime demo_env WsClose opened) reopened.

Lemma beaten_run : run int_runtime demo_env beat_then_close opened = Some beaten.
Proof. vm_compute; reflexivity. Qed.

Lemma beaten_again_run :
  run int_runtime demo_env reopened (handle int_runtime demo_env WsClose opened)
  = Some beaten_again.
Proof. vm_compute; reflexivity. Qed.

Lemma heartbeat_witness :
  (reachable int_runtime demo_env beaten
   ∧ readyState _ beaten = OPEN
   ∧ now _ beaten = 35032
   ∧ ∃ t x, timers _ beaten !! t = Some (PingEvery (at_time _ x + 25000))
            ∧ x ∈ sent _ beaten ∧ on_socket _ x = ws _ beaten
            ∧ (∀ y, y ∈ sent _ beaten → on_socket _ y = ws _ beaten →
                    frame _ y = PingFrame ∨ frame _ y = AuthFrame "kp_live_k1" →
                    at_time _ y ≤ at_time _ x)
            ∧ ¬ enabled int_runtime (TimerFires t) beaten)
  ∧ (∀ x, x ∈ sent _ beaten_again → on_socket _ x = 1%nat → x ∈ sent _ opened).
Proof.
  destruct (heartbeat int_runtime demo_env) as (Hbeat & _ & _ & Hclosed).
  assert (Hreach : reachable int_runtime demo_env beaten)
    by (eapply reachable_run; [exact opened_reachable | exact beaten_run]).
  assert (Hopen : readyState _ beaten = OPEN) by (vm_compute; reflexivity).
  split.
  - split; [exact Hreach|]. split; [exact Hopen|]. split; [vm_compute; reflexivity|].
    destruct (Hbeat beaten Hreach Hopen) as (t & x & _ & Ht & Hx & Hon & _ & Hlast & Hfire).
    exists t, x. split; [exact Ht|]. split; [exact Hx|]. split; [exact Hon|].
    split; [exact Hlast|].
    intros Hen. apply Hfire in Hen; [|vm_compute; reflexivity].
    assert (Hnow : now _ beaten = 35032) by (vm_compute; reflexivity).
    assert (Hin : {| on_socket := 1; at_time := 25032; frame := PingFrame |}
                  ∈ sent _ beaten).
    { vm_compute. apply elem_of_cons. right. apply elem_of_cons. by left. }
    pose proof (Hlast _ Hin eq_refl (or_introl eq_refl)) as Hlate.
    simpl in Hlate. lia.
  - assert (Hen : enabled int_runtime WsClose opened)
      by (split; [vm_compute; reflexivity | vm_compute; discriminate]).
    destruct (Hclosed opened reopened beaten_again opened_reachable Hen beaten_again_run)
      as [_ Hnone].
    exact Hnone.
Defined.

(** A frame whose path has a blank: [http.request] refuses it. *)
Definition request_blank : JSON (number int_runtime) :=
  JObj [("type", JStr "request"); ("id", JStr "r3"); ("path", JStr "/a b")].

Lemma forwarded_call_witness :
  (∃ call,
     calls _ (handle int_runtime demo_env (WsMessage (Some request_bare)) opened)
     = calls _ opened ++ [call]
     ∧ method _ call = JStr "POST" ∧ path _ call = JStr "/"
     ∧ headers _ call !! "Content-Type" = Some (FwdStr "application/json")
     ∧ String.concat EmptyString (written _ call) = EmptyString)
  ∧ calls _ (handle int_runtime demo_env (WsMessage (Some request_blank)) opened) = []
  ∧ alive _ (handle int_runtime demo_env (WsMessage (Some request_blank)) opened)
    = false.
Proof.
  split.
  - destruct (forwarded_call int_runtime demo_env opened request_bare eq_refl)
      as [Hcall _].
    destruct Hcall as (call & Hcalls & _ & _ & Hm & Hp & Hct & Hbody);
      [vm_compute; reflexivity|].
    exists call. split; [exact Hcalls|].
    split; [by apply Hm|]. split; [by apply Hp|]. split; [exact Hct|].
    exact Hbody.
  - destruct (forwarded_call int_runtime demo_env opened request_blank eq_refl)
      as [_ Hnone].
    destruct Hnone as [Hcalls Hdead]; [vm_compute; reflexivity|].
    split; [exact Hcalls | exact Hdead].
Defined.

(** ** Further examples *)

(** No key in the environment: the boot state is all there is. *)
Definition keyless_env : Env :=
  {| BOTROULETTE_API_KEY := None; LOCAL_PORT_var := Some "3000" |}.

Lemma no_key_no_tunnel_witness :
  reachable int_runtime keyless_env (boot int_runtime keyless_env 0)
  ∧ ws _ (boot int_runtime keyless_env 0) = 0%nat
  ∧ sent _ (boot int_runtime keyless_env 0) = [].
Proof.
  assert (Hreach : reachable int_runtime keyless_env (boot int_runtime keyless_env 0))
    by (by exists 0, []).
  split; [exact Hreach|].
  destruct (no_key_no_tunnel int_runtime keyless_env _ (or_introl eq_refl) Hreach)
    as (_ & Hws & _ & Hsent & _).
  by split.
Defined.

Lemma beaten_again_reachable : reachable int_runtime demo_env beaten_again.
Proof.
  eapply reachable_run; [|exact beaten_again_run].
  apply reachable_step; [exact opened_reachable|].
  split; [vm_compute; reflexivity | vm_compute; discriminate].
Qed.

(** The second socket of [beaten_again] got its own auth frame. *)
Lemma auth_opens_every_socket_witness :
  ∃ x, x ∈ sent _ beaten_again ∧ on_socket _ x = ws _ beaten_again
       ∧ ws _ beaten_again = 2%nat ∧ frame _ x = AuthFrame "kp_live_k1".
Proof.
  destruct (auth_opens_every_socket int_runtime demo_env beaten_again
              beaten_again_reachable) as [_ Hopen].
  destruct Hopen as (x & Hx & Hon & Hfr); [vm_compute; reflexivity|].
  exists x. split; [exact Hx|]. split; [exact Hon|].
  split; [vm_compute; reflexivity | exact Hfr].
Defined.

Lemma calls_stay_local_witness :
  Forall (λ c, hostname _ c = "127.0.0.1" ∧ port _ c = inr 8900) (calls _ asked)
  ∧ length (calls _ asked) = length (requests _ asked).
Proof.
  destruct (calls_stay_local int_runtime demo_env asked asked_reachable)
    as (Hall & Hlen & Hport).
  split; [|exact Hlen].
  eapply Forall_impl; [exact Hall|]. intros c (Hh & Hp & _).
  split; [exact Hh|]. rewrite Hp. apply Hport. by left.
Defined.

(** The local answer of [answered], ended. *)
Definition ended : State int_runtime :=
  handle int_runtime demo_env (HttpEnd 0) answered.

Lemma ended_reachable : reachable int_runtime demo_env ended.
Proof.
  apply reachable_step; [exact answered_reachable|].
  split; vm_compute; reflexivity.
Qed.

Lemma ended_sent :
  sent _ ended
  = [{| on_socket := 1; at_time := 0; frame := AuthFrame "kp_live_k1" |};
     {| on_socket := 1; at_time := 0;
        frame := ResponseFrame (Some (JStr "r1")) 200
                   {[ "content-type" := "application/json" ]} "{}" |}].
Proof. vm_compute; reflexivity. Qed.

Lemma responses_echo_request_ids_witness :
  ∃ h r, requests _ ended !! h = Some r ∧ rq_id _ r = Some (JStr "r1").
Proof.
  apply (responses_echo_request_ids int_runtime demo_env ended
           {| on_socket := 1; at_time := 0;
              frame := ResponseFrame (Some (JStr "r1")) 200
                         {[ "content-type" := "application/json" ]} "{}" |}
           (Some (JStr "r1")) 200 {[ "content-type" := "application/json" ]} "{}").
  - exact ended_reachable.
  - rewrite ended_sent. apply elem_of_cons. right. apply elem_of_cons. by left.
  - reflexivity.
Defined.

Lemma frames_without_use_witness :
  handle int_runtime demo_env (WsMessage (Some auth_ok_msg)) opened = opened
  ∧ alive _ (handle int_runtime demo_env (WsMessage (Some JNull)) opened) = false.
Proof.
  destruct (frames_without_use int_runtime demo_env opened) as (Hsame & Hdead & _).
  split; [|exact Hdead].
  apply (Hsame (Some auth_ok_msg)). split; [discriminate | reflexivity].
Defined.

(** The socket of [opened] closes at time 0: the reconnect is due at 1000.
    Five seconds later it has not fired yet. *)
Definition dropped : State int_runtime :=
  handle int_runtime demo_env (Elapse 5000) (handle int_runtime demo_env WsClose opened).

Lemma dropped_reachable : reachable int_runtime demo_env dropped.
Proof.
  apply reachable_step; [apply reachable_step; [exact opened_reachable|]|].
  - split; [vm_compute; reflexivity | vm_compute; discriminate].
  - split; vm_compute; reflexivity.
Qed.

Lemma reconnect_is_pending_witness :
  now _ dropped = 5000
  ∧ ∃ t, timers _ dropped !! t = Some (ConnectAt 1000)
         ∧ enabled int_runtime (TimerFires t) dropped
         ∧ ws _ (handle int_runtime demo_env (TimerFires t) dropped) = 2%nat.
Proof.
  split; [vm_compute; reflexivity|].
  destruct (reconnect_is_pending int_runtime demo_env dropped dropped_reachable)
    as (t & d & Hlk & Huniq & _ & Hfire);
    [vm_compute; reflexivity | vm_compute; reflexivity |].
  assert (Hlk0 : timers _ dropped !! 1%nat = Some (ConnectAt 1000))
    by (vm_compute; reflexivity).
  assert (t = 1%nat) as -> by (symmetry; exact (Huniq _ _ Hlk0)).
  rewrite Hlk0 in Hlk. injection Hlk as <-.
  exists 1%nat. split; [exact Hlk0|].
  destruct Hfire as (Hen & Hws & _); [vm_compute; discriminate|].
  split; [exact Hen|]. rewrite Hws. vm_compute; reflexivity.
Defined.

(** After a close, a reconnect and a second ping, the one timer alive is
    the second socket's ping interval. *)
Lemma timers_do_not_pile_up_witness :
  timers _ beaten_again !! 2%nat = Some (PingEvery 51000)
  ∧ ∀ t tm, timers _ beaten_again !! t = Some tm → t = 2%nat.
Proof.
  assert (Hlk : timers _ beaten_again !! 2%nat = Some (PingEvery 51000))
    by (vm_compute; reflexivity).
  split; [exact Hlk|].
  destruct (timers_do_not_pile_up int_runtime demo_env beaten_again
              beaten_again_reachable) as (Huniq & _ & _).
  intros t tm Ht. exact (Huniq _ _ _ _ Ht Hlk).
Defined.

(** The request of [asked], timed out and then failed: two response frames
    for one request, which is as many as there can be. *)
Definition answered_twice : State int_runtime :=
  handle int_runtime demo_env (HttpError 0)
    (handle int_runtime demo_env (HttpTimeout 0) asked).

Lemma answered_twice_reachable : reachable int_runtime demo_env answered_twice.
Proof.
  apply reachable_step; [apply reachable_step; [exact asked_reachable|]|].
  - split; [vm_compute; reflexivity | left; vm_compute; reflexivity].
  - split; [vm_compute; reflexivity | right; right; vm_compute; reflexivity].
Qed.

Lemma at_most_two_answers_witness :
  let tr := [WsOpen; WsMessage (Some request_r1); HttpTimeout 0; HttpError 0] in
  run int_runtime demo_env tr started = Some answered_twice
  ∧ answers_for int_runtime demo_env 0 tr started = 2%nat
  ∧ due_of _ 0 answered_twice = 0%nat
  ∧ length (filter (λ x, is_response _ (frame _ x)) (sent _ answered_twice)) = 2%nat.
Proof.
  intros tr.
  assert (Hrun : run int_runtime demo_env tr started = Some answered_twice)
    by (vm_compute; reflexivity).
  destruct (at_most_two_answers int_runtime demo_env) as (Htwo & Hsum & _ & _).
  pose proof (Htwo 0 tr answered_twice 0%nat Hrun) as Hle.
  pose proof (Hsum 0 tr answered_twice Hrun) as Hall.
  split; [exact Hrun|].
  assert (Hfor : answers_for int_runtime demo_env 0 tr started = 2%nat)
    by (vm_compute; reflexivity).
  split; [exact Hfor|]. split; [fold started in Hle; lia|].
  rewrite Hall. vm_compute; reflexivity.
Defined.

End Tunnel.

(* ===================================================================== *)
(** * The mailbox bridge: the guide's [server.js] and [bridge.js]         *)
(* ===================================================================== *)

(** The forwarder is [handleChat] of the inbox/outbox [server.js] printed in
    the OpenClaw guide (step 4, lines 390-438 of the guide); the worker is
    [processInbox] of [openclaw-template/bridge.js].  The two run as
    separate processes and meet in two directories. *)

Module Mailbox.
Import JS.

(** A file of the inbox or the outbox, as [JSON.parse] of its text sees it:
    a document, or text that does not parse (a half-written file, say).  A
    file written as [JSON.stringify(v)] reads back as [v]. *)
Inductive File (number : Type) :=
| Doc (data : JSON number)
| Garbled (text : string).
Arguments Doc {number} data.
Arguments Garbled {number} text.

(** [`${id}.json`] for a string [id]. *)
Definition file_of (id : string) : string := id +:+ ".json".

(** What [execSync('openclaw agent ...')] came to: its output, with what
    [JSON.parse] makes of it, or an exception (exit code, timeout). *)
Inductive Agent (number : Type) :=
| Returned (result : string) (parsed : option (JSON number))
| Threw.
Arguments Returned {number} result parsed.
Arguments Threw {number}.

Section Model.
Context (rt : Runtime).
Local Abbreviation Json := (JSON (number rt)).

(** The two directories, by file name. *)
Record FS := {
  inbox : gmap string (File (number rt));
  outbox : gmap string (File (number rt));
}.

(** ** The forwarder: [handleChat] of the inbox/outbox [server.js] *)

(** What [handleChat] sends back: the status and the object it
    stringifies.  [{response: v}] with [v] undefined stringifies to [{}]. *)
Inductive Payload :=
| ErrorBody (error : string)
| ResponseBody (response : option Json).

Record Reply := { status : Z; payload : Payload }.

Definition rate_limited : Reply :=
  {| status := 429; payload := ErrorBody "rate limited" |}.
Definition invalid_message : Reply :=
  {| status := 400; payload := ErrorBody "missing or invalid message field" |}.
Definition too_long : Reply :=
  {| status := 400; payload := ErrorBody "message too long" |}.
Definition answer (v : option Json) : Reply :=
  {| status := 200; payload := ResponseBody v |}.
(** The timeout fallback. *)
Definition fallback : Reply :=
  answer (Some (JStr "still thinking on that one. try again in a moment.")).

(** An incoming HTTP request, as far as [handleChat] reads it. *)
Record Incoming := {
  ip : string;                     (* req.ip *)
  body : option Json;              (* req.body *)
  session_header : option string;  (* req.headers['x-kpath-session-id'] *)
}.

(** Where a call of [handleChat] stands: in its polling loop for [id] until
    [deadline], or done with a reply. *)
Inductive Forwarder :=
| Waiting (id : string) (deadline : Z)
| Replied (r : Reply).

(** [req.body.session_id || req.headers['x-kpath-session-id'] || 'default'] *)
Definition sessionId_of (req : Incoming) (b : Json) : Json :=
  let from_body := prop b "session_id" in
  if truthy rt from_body then default JNull from_body
  else match session_header req with
       | Some h => if String.eqb h EmptyString then JStr "default" else JStr h
       | None => JStr "default"
       end.

(** The pending entry, lines 412-415. *)
Definition pending_entry (id : string) (sessionId : Json) (message timestamp : string)
    : File (number rt) :=
  Doc (JObj [("id", JStr id); ("sessionId", sessionId);
             ("message", JStr message); ("timestamp", JStr timestamp)]).

(** [handleChat] from its first line to the head of the loop.  The
    environment supplies the clock readings ([now] for [rateLimit],
    [now_deadline] at line 419), the [id] made of time and random digits at
    lines 408-409, and the [timestamp] string. *)
Definition handleChat (req : Incoming) (now : Z) (id timestamp : string)
    (now_deadline : Z) (hits : gmap string (list Z)) (fs : FS)
    : Forwarder * gmap string (list Z) * FS :=
  let '(limited, hits) := RateLimit.rateLimit (ip req) now hits in
  if limited then (Replied rate_limited, hits, fs) else
  (* const { message } = req.body || {}; *)
  let b := match body req with
           | Some b => if truthy rt (Some b) then b else JObj []
           | None => JObj []
           end in
  match prop b "message" with
  | Some (JStr message) =>
      if String.eqb message EmptyString then (Replied invalid_message, hits, fs)
      else if (5000 <? String_length rt message) then (Replied too_long, hits, fs)
      else
        let sessionId := sessionId_of req b in
        let fs := {| inbox := <[file_of id := pending_entry id sessionId message timestamp]>
                                (inbox fs);
                     outbox := outbox fs |} in
        (Waiting id (now_deadline + 25000), hits, fs)
  | _ => (Replied invalid_message, hits, fs)
  end.

(** One turn of the loop of lines 421-431, at clock reading [now]: the test
    of the deadline, [existsSync], [readFileSync] and [JSON.parse],
    [unlinkSync], the reply; or the sleep.  Reading [.reply] off [null]
    throws after the file is gone, and the [catch] breaks out of the loop
    like a failed parse; past the loop is the fallback. *)
Definition poll (now : Z) (id : string) (deadline : Z) (fs : FS) : Forwarder * FS :=
  if now <? deadline then
    match outbox fs !! file_of id with
    | Some (Doc data) =>
        let fs := {| inbox := inbox fs; outbox := delete (file_of id) (outbox fs) |} in
        match data with
        | JNull => (Replied fallback, fs)
        | _ => (Replied (answer (prop data "reply")), fs)
        end
    | Some (Garbled _) => (Replied fallback, fs)
    | None => (Waiting id deadline, fs)
    end
  else (Replied fallback, fs).


(** ** The worker: [processInbox] of [bridge.js] *)

(** [`${v}`] *)
Definition template (v : option Json) : string :=
  match v with
  | None => "undefined"
  | Some (JStr s) => s
  | Some v => String_of rt v
  end.

(** [v?.[0]] on a value that is neither [null] nor [undefined]. *)
Definition first_of (v : Json) : option Json :=
  match v with
  | JArr (x :: _) => Some x
  | JStr (String c _) => Some (JStr (String c EmptyString))
  | JObj props => assoc "0" props
  | _ => None
  end.

(** [parsed.result?.payloads?.[0]], [parsed] not [null]. *)
Definition first_payload (parsed : Json) : option Json :=
  match prop parsed "result" with
  | None | Some JNull => None
  | Some r =>
      match prop r "payloads" with
      | None | Some JNull => None
      | Some p => first_of p
      end
  end.

(** Lines 40-47: the reply made of the agent's output. *)
Definition reply_of (result : string) (parsed : option Json) : option Json :=
  match parsed with
  | None | Some JNull => Some (JStr (substring rt 0 1000 (trim rt result)))
  | Some p =>
      if truthy rt (first_payload p)
      then first_payload p ≫= λ e, prop e "text"
      else Some (JStr "something went sideways. try again.")
  end.

(** The reply the bridge writes for a pending entry, by what the agent did:
    lines 40-47, or line 61 when [execSync] threw. *)
Definition bridge_reply (agent : Agent (number rt)) : option Json :=
  match agent with
  | Returned result parsed => reply_of result parsed
  | Threw => Some (JStr "brain glitched. try again.")
  end.

(** [{ reply }] as [JSON.stringify] keeps it: an undefined [reply] is
    left out. *)
Definition reply_doc (reply : option Json) : Json :=
  JObj (match reply with Some v => [("reply", v)] | None => [] end).

(** ** Where the text of an entry can reach

    Lines 34-37 make one string for [/bin/sh -c]: the entry's [sessionId]
    between double quotes, as it is, and [JSON.stringify(prompt)], in which
    the double quote and the backslash are escaped but [$] and the
    backquote are not, so the shell expands them.  And lines 50 and 60 join
    [`${id}.json`], [id] read from the file, to the outbox path: with a
    [/] in it the path leaves the outbox. *)

Definition has_char (c : Ascii.ascii) (s : string) : bool :=
  existsb (Ascii.eqb c) (String.list_ascii_of_string s).

Definition dollar_char : Ascii.ascii := Ascii.ascii_of_N 36.
Definition backquote_char : Ascii.ascii := Ascii.ascii_of_N 96.
Definition slash_char : Ascii.ascii := Ascii.ascii_of_N 47.
Definition nul_char : Ascii.ascii := Ascii.ascii_of_N 0.

(** Text the shell takes as it is between double quotes. *)
Definition inert_in_quotes (s : string) : bool :=
  negb (has_char quote_char s || has_char backslash_char s
        || has_char dollar_char s || has_char backquote_char s).

(** Text the shell takes as it is once [JSON.stringify] has quoted it. *)
Definition inert_in_json (s : string) : bool :=
  negb (has_char dollar_char s || has_char backquote_char s).

(** A name that [path.join] leaves in the directory it is joined to, and
    that names a file there. *)
Definition plain (name : string) : bool :=
  negb (has_char slash_char name || has_char nul_char name).

(** An entry whose text the shell takes as it is.  ([SYSTEM_CONTEXT],
    lines 19-21, has neither [$] nor backquote.) *)
Definition shell_inert (data : Json) : bool :=
  inert_in_quotes (template (prop data "sessionId"))
  && match prop data "message" with
     | Some (JStr message) => inert_in_json message
     | _ => true
     end.

(** An entry none of whose text reaches beyond the agent's arguments and
    its own completed entry. *)
Definition tame (data : Json) : bool :=
  plain (file_of (template (prop data "id"))) && shell_inert data.

(** Lines 49-53 and 59-63: write the completed entry named by [id], remove
    the pending file.  Where the name is not plain the model does not
    follow the path: what comes of the write, and of the [catch] when it
    throws, is [stray], any change of the two directories at all. *)
Definition complete (file : string) (id : option Json) (reply : option Json)
    (stray : FS → FS) (fs : FS) : FS :=
  let name := file_of (template id) in
  if plain name
  then {| inbox := delete file (inbox fs);
          outbox := <[name := Doc (reply_doc reply)]> (outbox fs) |}
  else stray fs.

(** Lines 55-65, the [catch]: read the file again and answer with the
    glitch text; whatever throws in there is swallowed. *)
Definition glitch (file : string) (stray : FS → FS) (fs : FS) : FS :=
  match inbox fs !! file with
  | Some (Doc JNull) => fs
  | Some (Doc data) =>
      complete file (prop data "id") (Some (JStr "brain glitched. try again."))
        stray fs
  | Some (Garbled _) | None => fs
  end.

(** Lines 27-65, the body of the loop for one file; [agent] is what
    [execSync] comes to.  The [try] block throws when the file is missing
    or garbled, holds [null], has no string [message] (line 31), or the
    agent fails.

    [execSync] hands its string to the shell.  Where the entry's text is
    not inert there, the model does not follow the shell: what it made of
    the text is [stray], any change of the two directories at all, and the
    loop goes on from there.  Otherwise the command leaves the directories
    alone, as the agent itself is taken to do.  The directories take every
    write and unlink of a plain name. *)
Definition processFile (file : string) (agent : Agent (number rt))
    (stray : FS → FS) (fs : FS) : FS :=
  match inbox fs !! file with
  | Some (Doc JNull) => glitch file stray fs
  | Some (Doc data) =>
      match prop data "message" with
      | Some (JStr _) =>
          let fs := if shell_inert data then fs else stray fs in
          match agent with
          | Returned result parsed =>
              complete file (prop data "id") (reply_of result parsed) stray fs
          | Threw => glitch file stray fs
          end
      | _ => glitch file stray fs
      end
  | Some (Garbled _) | None => glitch file stray fs
  end.

(** [f.endsWith('.json')] *)
Definition is_json (f : string) : bool :=
  let n := String.length f in
  String.eqb (String.substring (n - 5) 5 f) ".json" && (5 <=? n)%nat.

(** Lines 24-67, [processInbox()]: [listing] is what [readdirSync] returns,
    [agents] what the agent does for each file, [strays] where its text
    goes when it is not tame. *)
Definition processInbox (listing : list string) (agents : string → Agent (number rt))
    (strays : string → FS → FS) (fs : FS) : FS :=
  foldl (λ fs f, processFile f (agents f) (strays f) fs) fs
        (filter (λ f, is_json f) listing).

(** ** The two processes together *)

(** What can happen: a request arrives and [handleChat] runs up to its
    loop; a forwarder takes one turn of its loop; the bridge handles one
    inbox file. *)
Inductive Action :=
| Arrive (req : Incoming) (now : Z) (id timestamp : string) (now_deadline : Z)
| Turn (id : string) (now : Z)
| Work (file : string) (agent : Agent (number rt)) (stray : FS → FS).

Record Sys := {
  hits : gmap string (list Z);
  files : FS;
  (** the calls of [handleChat] that got an [id], by it *)
  chats : gmap string Forwarder;
  (** what the bridge has handled so far *)
  worked : list (string * Agent (number rt));
}.

Definition init : Sys :=
  {| hits := ∅; files := {| inbox := ∅; outbox := ∅ |}; chats := ∅; worked := [] |}.

(** Lines 408-409: the digits of [(n).toString(36)]. *)
Definition base36 (id : string) : bool :=
  forallb (λ c, has_char c "0123456789abcdefghijklmnopqrstuvwxyz")
          (String.list_ascii_of_string id).

(** The [id] of a request is made of the time and four random digits, in
    base 36, and is taken to be new.  The bridge handles the files
    [readdirSync] lists whose name ends in [.json]. *)
Definition enabled (a : Action) (sys : Sys) : Prop :=
  match a with
  | Arrive _ _ id _ _ => chats sys !! id = None ∧ base36 id = true
  | Turn _ _ => True
  | Work file _ _ => is_Some (inbox (files sys) !! file) ∧ is_json file = true
  end.

#[global] Instance enabled_dec a sys : Decision (enabled a sys).
Proof. destruct a; apply _. Defined.

Definition step (a : Action) (sys : Sys) : Sys :=
  match a with
  | Arrive req now id timestamp now_deadline =>
      let '(fwd, hits', fs') :=
        handleChat req now id timestamp now_deadline (hits sys) (files sys) in
      {| hits := hits'; files := fs';
         chats := match fwd with
                  | Waiting _ _ => <[id := fwd]> (chats sys)
                  | Replied _ => chats sys
                  end;
         worked := worked sys |}
  | Turn id now =>
      match chats sys !! id with
      | Some (Waiting id' deadline) =>
          let '(fwd, fs') := poll now id' deadline (files sys) in
          {| hits := hits sys; files := fs';
             chats := <[id := fwd]> (chats sys); worked := worked sys |}
      | _ => sys
      end
  | Work file agent stray =>
      {| hits := hits sys; files := processFile file agent stray (files sys);
         chats := chats sys; worked := worked sys ++ [(file, agent)] |}
  end.

Fixpoint run (tr : list Action) (sys : Sys) : option Sys :=
  match tr with
  | [] => Some sys
  | a :: tr => if decide (enabled a sys) then run tr (step a sys) else None
  end.

Definition reachable (sys : Sys) : Prop := ∃ tr, run tr init = Some sys.

(** The bridge handles an entry that is tame; any other action. *)
Definition harmless (a : Action) (sys : Sys) : bool :=
  match a with
  | Work file _ _ =>
      match inbox (files sys) !! file with
      | Some (Doc data) => tame data
      | _ => true
      end
  | _ => true
  end.

(** A run in which the bridge handles tame entries only. *)
Fixpoint harmless_run (tr : list Action) (sys : Sys) : bool :=
  match tr with
  | [] => true
  | a :: tr => harmless a sys && harmless_run tr (step a sys)
  end.

(** Reached without the bridge having handled an entry that is not
    tame. *)
Definition reachable_harmlessly (sys : Sys) : Prop :=
  ∃ tr, run tr init = Some sys ∧ harmless_run tr init = true.

(** ** File names *)

Lemma length_append (a b : string) :
  String.length (a +:+ b) = (String.length a + String.length b)%nat.
Proof. induction a as [|c a IH]; simpl; [done | by rewrite IH]. Qed.

Lemma file_of_inj id1 id2 : file_of id1 = file_of id2 → id1 = id2.
Proof.
  unfold file_of. revert id2.
  induction id1 as [|c id1 IH]; intros [|c' id2] Heq; simpl in *; try done.
  - apply (f_equal String.length) in Heq. simpl in Heq.
    rewrite length_append in Heq. simpl in Heq. lia.
  - apply (f_equal String.length) in Heq. simpl in Heq.
    rewrite length_append in Heq. simpl in Heq. lia.
  - injection Heq as -> Heq. f_equal. by apply IH.
Qed.

(** ** What the bridge does with a pending entry *)

Lemma reply_doc_reply v : prop (reply_doc v) "reply" = v.
Proof. by destruct v. Qed.

Lemma processFile_pending id sessionId message timestamp agent stray fs :
  inbox fs !! file_of id = Some (pending_entry id sessionId message timestamp) →
  tame (JObj [("id", JStr id); ("sessionId", sessionId);
              ("message", JStr message); ("timestamp", JStr timestamp)]) = true →
  processFile (file_of id) agent stray fs
  = {| inbox := delete (file_of id) (inbox fs);
       outbox := <[file_of id := Doc (reply_doc (bridge_reply agent))]> (outbox fs) |}.
Proof.
  intros Hin Htame. apply andb_true_iff in Htame as [Hplain Hinert].
  unfold processFile. rewrite Hin. unfold pending_entry.
  cbn [prop assoc String.eqb Ascii.eqb Bool.eqb]. simpl in Hplain.
  rewrite Hinert. destruct agent.
  - unfold complete. simpl. by rewrite Hplain.
  - unfold glitch. cbn [inbox]. rewrite Hin. unfold pending_entry, complete.
    simpl. by rewrite Hplain.
Qed.

Lemma processFile_absent file agent stray fs :
  inbox fs !! file = None → processFile file agent stray fs = fs.
Proof. intros Hin. unfold processFile, glitch. by rewrite Hin. Qed.

(** What a harmless step of the bridge knows of a pending entry. *)
Lemma harmless_pending file agent stray sys id sessionId message timestamp :
  harmless (Work file agent stray) sys = true →
  inbox (files sys) !! file = Some (pending_entry id sessionId message timestamp) →
  tame (JObj [("id", JStr id); ("sessionId", sessionId);
              ("message", JStr message); ("timestamp", JStr timestamp)]) = true.
Proof. unfold harmless, pending_entry. intros Hh Hin. by rewrite Hin in Hh. Qed.

(** ** The invariant of the two processes *)

(** Every pending file is the entry of a chat, under that chat's name;
    every completed file was written by the bridge, with the reply it made;
    the entry of a chat stays pending until the bridge handles it; and a
    chat that replied gave the fallback or what the bridge wrote for it. *)
Definition wf (sys : Sys) : Prop :=
  (∀ f c, inbox (files sys) !! f = Some c →
     ∃ id sessionId message timestamp,
       f = file_of id ∧ c = pending_entry id sessionId message timestamp
       ∧ is_Some (chats sys !! id))
  ∧ (∀ f c, outbox (files sys) !! f = Some c →
       ∃ agent, (f, agent) ∈ worked sys ∧ c = Doc (reply_doc (bridge_reply agent)))
  ∧ (∀ id, is_Some (chats sys !! id) →
       (∃ sessionId message timestamp,
          inbox (files sys) !! file_of id
          = Some (pending_entry id sessionId message timestamp))
       ∨ (∃ agent, (file_of id, agent) ∈ worked sys))
  ∧ (∀ id fwd, chats sys !! id = Some fwd →
       match fwd with
       | Waiting id' _ => id' = id
       | Replied r =>
           r = fallback
           ∨ ∃ agent, (file_of id, agent) ∈ worked sys ∧ r = answer (bridge_reply agent)
       end).

Lemma wf_init : wf init.
Proof. unfold wf, init. simpl. split_and!; intros *; rewrite ?lookup_empty; done. Qed.

Lemma wf_arrive req now id timestamp now_deadline sys :
  wf sys → chats sys !! id = None →
  wf (step (Arrive req now id timestamp now_deadline) sys).
Proof.
  intros (Hin & Hout & Hpend & Hchat) Hfresh. unfold step, handleChat.
  destruct (RateLimit.rateLimit (ip req) now (hits sys)) as [limited hits'].
  destruct limited; [done|].
  destruct (prop _ "message") as [[| | |message| |]|]; try done.
  destruct (String.eqb message EmptyString); [done|].
  destruct (5000 <? _); [done|].
  unfold wf. simpl. split_and!.
  - intros f c Hlk. destruct (decide (f = file_of id)) as [->|Hne].
    + rewrite lookup_insert_eq in Hlk. injection Hlk as <-.
      eexists id, _, _, _. split_and!; try done. by rewrite lookup_insert_eq.
    + rewrite lookup_insert_ne in Hlk by done.
      destruct (Hin f c Hlk) as (id' & ss & m & ts & -> & -> & Hsome).
      exists id', ss, m, ts. split_and!; try done.
      rewrite lookup_insert_ne; [done|]. by intros ->.
  - exact Hout.
  - intros id' Hsome. destruct (decide (id' = id)) as [->|Hne].
    + left. eexists _, _, _. by rewrite lookup_insert_eq.
    + rewrite lookup_insert_ne in Hsome by done.
      destruct (Hpend id' Hsome) as [(ss & m & ts & Hlk)|Hw]; [left|by right].
      exists ss, m, ts. rewrite lookup_insert_ne; [done|].
      intros Heq. by apply file_of_inj in Heq.
  - intros id' fwd Hlk. destruct (decide (id' = id)) as [->|Hne].
    + rewrite lookup_insert_eq in Hlk. by injection Hlk as <-.
    + rewrite lookup_insert_ne in Hlk by done. by apply Hchat.
Qed.

Lemma wf_turn id now sys : wf sys → wf (step (Turn id now) sys).
Proof.
  intros (Hin & Hout & Hpend & Hchat). unfold step.
  destruct (chats sys !! id) as [[id' deadline|r]|] eqn:Hid; try done.
  pose proof (Hchat _ _ Hid) as ->. simpl in *.
  assert (Hsome : ∀ i fwd, is_Some (chats sys !! i) ↔ is_Some (<[id := fwd]> (chats sys) !! i)).
  { intros i fwd. destruct (decide (i = id)) as [->|Hne].
    - rewrite lookup_insert_eq, Hid. split; by eexists.
    - by rewrite lookup_insert_ne. }
  assert (Hother : ∀ i fwd fwd', <[id := fwd]> (chats sys) !! i = Some fwd' →
                     (i = id ∧ fwd' = fwd) ∨ chats sys !! i = Some fwd').
  { intros i fwd fwd'. destruct (decide (i = id)) as [->|Hne].
    - rewrite lookup_insert_eq. intros [= <-]. by left.
    - rewrite lookup_insert_ne by done. by right. }
  unfold poll. destruct (now <? deadline).
  2:{ unfold wf. simpl. split_and!.
      - intros f c Hlk. destruct (Hin f c Hlk) as (i & ss & m & ts & -> & -> & Hs).
        exists i, ss, m, ts. split_and!; try done. by apply Hsome.
      - exact Hout.
      - intros i Hs. apply Hpend. by eapply Hsome.
      - intros i fwd' Hlk. apply Hother in Hlk as [[-> ->]|Hlk]; [by left|by apply Hchat]. }
  destruct (outbox (files sys) !! file_of id) as [[data|text]|] eqn:Hfile.
  - destruct (Hout _ _ Hfile) as (agent & Hw & [= ->]).
    unfold reply_doc at 1. simpl. unfold wf. simpl. split_and!.
    + intros f c Hlk. destruct (Hin f c Hlk) as (i & ss & m & ts & -> & -> & Hs).
      exists i, ss, m, ts. split_and!; try done. by apply Hsome.
    + intros f c Hlk. apply lookup_delete_Some in Hlk as [_ Hlk]. by apply Hout.
    + intros i Hs. apply Hpend. by eapply Hsome.
    + intros i fwd' Hlk. apply Hother in Hlk as [[-> ->]|Hlk]; [|by apply Hchat].
      right. exists agent. split; [done|]. f_equal.
      exact (reply_doc_reply (bridge_reply agent)).
  - unfold wf. simpl. split_and!.
    + intros f c Hlk. destruct (Hin f c Hlk) as (i & ss & m & ts & -> & -> & Hs).
      exists i, ss, m, ts. split_and!; try done. by apply Hsome.
    + exact Hout.
    + intros i Hs. apply Hpend. by eapply Hsome.
    + intros i fwd' Hlk. apply Hother in Hlk as [[-> ->]|Hlk]; [by left|by apply Hchat].
  - unfold wf. simpl. split_and!.
    + intros f c Hlk. destruct (Hin f c Hlk) as (i & ss & m & ts & -> & -> & Hs).
      exists i, ss, m, ts. split_and!; try done. by apply Hsome.
    + exact Hout.
    + intros i Hs. apply Hpend. by eapply Hsome.
    + intros i fwd' Hlk. apply Hother in Hlk as [[-> ->]|Hlk]; [done|by apply Hchat].
Qed.

Lemma wf_work file agent stray sys :
  wf sys → harmless (Work file agent stray) sys = true →
  wf (step (Work file agent stray) sys).
Proof.
  intros (Hin & Hout & Hpend & Hchat) Hharm. unfold step.
  assert (Hlog : ∀ e, e ∈ worked sys → e ∈ worked sys ++ [(file, agent)]).
  { intros e He. apply elem_of_app. by left. }
  destruct (inbox (files sys) !! file) as [c|] eqn:Hfile.
  - destruct (Hin _ _ Hfile) as (id & ss & m & ts & -> & -> & Hs).
    rewrite (processFile_pending _ _ _ _ _ _ _ Hfile)
      by (by eapply harmless_pending).
    unfold wf. simpl. split_and!.
    + intros f c Hlk. apply lookup_delete_Some in Hlk as [_ Hlk]. by apply Hin.
    + intros f c Hlk. destruct (decide (f = file_of id)) as [->|Hne].
      * rewrite lookup_insert_eq in Hlk. injection Hlk as <-.
        exists agent. split; [|done]. apply elem_of_app. right.
        by apply list_elem_of_singleton.
      * rewrite lookup_insert_ne in Hlk by done.
        destruct (Hout f c Hlk) as (ag & Hw & ->). exists ag. by split; [apply Hlog|].
    + intros i Hsome. destruct (decide (i = id)) as [->|Hne].
      * right. exists agent. apply elem_of_app. right. by apply list_elem_of_singleton.
      * destruct (Hpend i Hsome) as [(ss' & m' & ts' & Hlk)|[ag Hw]].
        -- left. exists ss', m', ts'. rewrite lookup_delete_ne; [done|].
           intros Heq. by apply file_of_inj in Heq.
        -- right. exists ag. by apply Hlog.
    + intros i fwd Hlk. specialize (Hchat i fwd Hlk). destruct fwd as [|r]; [done|].
      destruct Hchat as [->|(ag & Hw & ->)]; [by left|].
      right. exists ag. by split; [apply Hlog|].
  - rewrite processFile_absent by done.
    unfold wf. simpl. split_and!.
    + exact Hin.
    + intros f c Hlk. destruct (Hout f c Hlk) as (ag & Hw & ->).
      exists ag. by split; [apply Hlog|].
    + intros i Hsome. destruct (Hpend i Hsome) as [Hl|[ag Hw]]; [by left|].
      right. exists ag. by apply Hlog.
    + intros i fwd Hlk. specialize (Hchat i fwd Hlk). destruct fwd as [|r]; [done|].
      destruct Hchat as [->|(ag & Hw & ->)]; [by left|].
      right. exists ag. by split; [apply Hlog|].
Qed.

Lemma wf_step a sys :
  wf sys → enabled a sys → harmless a sys = true → wf (step a sys).
Proof.
  intros Hwf Hen Hharm. destruct a.
  - apply wf_arrive; [done|]. by destruct Hen.
  - by apply wf_turn.
  - by apply wf_work.
Qed.

Lemma wf_run tr : ∀ sys sys',
  wf sys → run tr sys = Some sys' → harmless_run tr sys = true → wf sys'.
Proof.
  induction tr as [|a tr IH]; intros sys sys' Hwf Hrun Hharm; simpl in Hrun, Hharm.
  - by injection Hrun as <-.
  - destruct (decide (enabled a sys)); [|done].
    apply andb_true_iff in Hharm as [Ha Htr].
    eapply IH; [|done|done]. by apply wf_step.
Qed.

Lemma wf_reachable sys : reachable_harmlessly sys → wf sys.
Proof. intros (tr & Hrun & Hharm). eapply wf_run; [apply wf_init | exact Hrun | exact Hharm]. Qed.

(** ** The claims *)



(** What [handleChat] leaves behind: a rejected request nothing, an
    admitted one its pending entry. *)
Lemma handleChat_files req now id timestamp now_deadline hts fs :
  match (handleChat req now id timestamp now_deadline hts fs).1.1 with
  | Replied r =>
      (handleChat req now id timestamp now_deadline hts fs).2 = fs
      ∧ (r = rate_limited ∨ r = invalid_message ∨ r = too_long)
  | Waiting id' deadline =>
      id' = id ∧ deadline = now_deadline + 25000
      ∧ ∃ sessionId message,
          (handleChat req now id timestamp now_deadline hts fs).2
          = {| inbox := <[file_of id := pending_entry id sessionId message timestamp]>
                          (inbox fs);
               outbox := outbox fs |}
          ∧ body req ≫= (λ b, prop b "message") = Some (JStr message)
  end.
Proof.
  unfold handleChat.
  destruct (RateLimit.rateLimit (ip req) now hts) as [[] hits']; simpl; [auto|].
  assert (Hb : prop (match body req with
                     | Some b => if truthy rt (Some b) then b else JObj []
                     | None => JObj []
                     end) "message"
               = body req ≫= (λ b, prop b "message")).
  { destruct (body req) as [[|b0|n|s|l|l]|]; simpl; try done;
      [by destruct b0 | by destruct (number_falsy rt n)
      | by destruct (String.eqb s EmptyString)]. }
  destruct (prop _ "message") as [[| | |message| |]|] eqn:E; simpl; auto.
  destruct (String.eqb message EmptyString); simpl; [auto|].
  destruct (5000 <? _); simpl; [auto|].
  split_and!; try done. eexists _, message. split; [done|]. by rewrite <- Hb.
Qed.



(** What a shell command such as [printf ... > outbox/NAME] does: it writes
    a completed entry. *)
Definition plant (name : string) (v : Json) (fs : FS) : FS :=
  {| inbox := inbox fs; outbox := <[name := Doc (reply_doc (Some v))]> (outbox fs) |}.

(** The forwarder reads the completed entry named by its own [id], and
    nothing else. *)
Lemma poll_own_file now id deadline fs fs' :
  outbox fs !! file_of id = outbox fs' !! file_of id →
  (poll now id deadline fs).1 = (poll now id deadline fs').1.
Proof.
  intros Heq. unfold poll. rewrite Heq. destruct (now <? deadline); [|done].
  by destruct (outbox fs' !! file_of id) as [[[]|]|].
Qed.

(** C9 fails where the caller's text reaches the shell.  As long as the
    bridge handles tame entries only, a forwarder that answered gave the
    fallback or exactly the reply the bridge wrote when it handled the
    pending file named by this forwarder's own [id], and completing the
    entry of another request [b] first changes nothing for the forwarder of
    [a].  But let the entry of [b] carry text that is live in the shell
    (a [$(...)] in its [sessionId], say) and write, through the shell, a
    completed entry under the name of [a]: then the forwarder of [a], which
    reads the entry named by its own [id] as ever, answers its caller with
    the text that came with [b] -- and the bridge has not handled the entry
    of [a] at all. *)
Theorem live_text_crosses_replies :
  (∀ sys a r,
     reachable_harmlessly sys →
     chats sys !! a = Some (Replied r) →
     r = fallback
     ∨ ∃ agent, (file_of a, agent) ∈ worked sys ∧ r = answer (bridge_reply agent))
  ∧ (∀ sys a b deadline agent stray now,
       reachable_harmlessly sys →
       harmless (Work (file_of b) agent stray) sys = true →
       a ≠ b →
       chats sys !! a = Some (Waiting a deadline) →
       let sys' := step (Work (file_of b) agent stray) sys in
       outbox (files sys') !! file_of a = outbox (files sys) !! file_of a
       ∧ chats sys' !! a = Some (Waiting a deadline)
       ∧ (poll now a deadline (files sys')).1 = (poll now a deadline (files sys)).1)
  ∧ (∀ sys a b deadline sessionId message timestamp result parsed stray now v,
       a ≠ b →
       chats sys !! a = Some (Waiting a deadline) →
       now < deadline →
       inbox (files sys) !! file_of b
       = Some (pending_entry b sessionId message timestamp) →
       plain (file_of b) = true →
       inert_in_quotes (template (Some sessionId)) && inert_in_json message = false →
       outbox (stray (files sys)) !! file_of a = Some (Doc (reply_doc (Some v))) →
       let sys' := step (Turn a now)
                     (step (Work (file_of b) (Returned result parsed) stray) sys) in
       chats sys' !! a = Some (Replied (answer (Some v)))
       ∧ worked sys' = worked sys ++ [(file_of b, Returned result parsed)]).
Proof.
  split_and!.
  - intros sys a r Hreach Hlk.
    destruct (wf_reachable sys Hreach) as (_ & _ & _ & Hchat).
    exact (Hchat a _ Hlk).
  - intros sys a b deadline agent stray now Hreach Hharm Hne Ha sys'.
    destruct (wf_reachable sys Hreach) as (Hin & _ & _ & _).
    assert (Hout : outbox (files sys') !! file_of a = outbox (files sys) !! file_of a).
    { unfold sys'. simpl.
      destruct (inbox (files sys) !! file_of b) as [c|] eqn:Hfile.
      - destruct (Hin _ _ Hfile) as (id & ss & m & ts & Heq & -> & _).
        apply file_of_inj in Heq as <-.
        rewrite (processFile_pending _ _ _ _ _ _ _ Hfile)
          by (by eapply harmless_pending).
        simpl. rewrite lookup_insert_ne; [done|]. intros Heq. by apply file_of_inj in Heq.
      - by rewrite processFile_absent. }
    split_and!; [exact Hout | exact Ha |]. by apply poll_own_file.
  - intros sys a b deadline ss m ts result parsed stray now v
      Hne Ha Hnow Hb Hplain Hlive Hplant sys'.
    assert (Hfiles : files (step (Work (file_of b) (Returned result parsed) stray) sys)
                     = {| inbox := delete (file_of b) (inbox (stray (files sys)));
                          outbox := <[file_of b := Doc (reply_doc (reply_of result parsed))]>
                                      (outbox (stray (files sys))) |}).
    { simpl. unfold processFile. rewrite Hb. unfold pending_entry.
      cbn [prop assoc String.eqb Ascii.eqb Bool.eqb].
      unfold shell_inert. cbn [prop assoc String.eqb Ascii.eqb Bool.eqb].
      rewrite Hlive. unfold complete.
      cbn [template]. by rewrite Hplain. }
    unfold sys'. clear sys'.
    set (sys1 := step (Work (file_of b) (Returned result parsed) stray) sys) in *.
    assert (Hc1 : chats sys1 = chats sys) by done.
    assert (Hw1 : worked sys1 = worked sys ++ [(file_of b, Returned result parsed)])
      by done.
    assert (Hpoll : poll now a deadline (files sys1)
                    = (Replied (answer (Some v)),
                       {| inbox := inbox (files sys1);
                          outbox := delete (file_of a) (outbox (files sys1)) |})).
    { unfold poll. destruct (Z.ltb_spec now deadline) as [_|?]; [|lia].
      rewrite Hfiles. cbn [outbox inbox].
      rewrite lookup_insert_ne by (intros Heq; by apply file_of_inj in Heq).
      rewrite Hplant. by unfold reply_doc at 1. }
    cbn [step]. rewrite Hc1, Ha, Hpoll. cbn [chats worked].
    by rewrite lookup_insert_eq.
Qed.

(** ** Further properties of the mailbox *)

(** Completed entries belong to chats, and no request has a pending and
    a completed entry at once. *)
Definition apart (sys : Sys) : Prop :=
  (∀ f, is_Some (outbox (files sys) !! f) →
     ∃ id, f = file_of id ∧ is_Some (chats sys !! id))
  ∧ (∀ f, is_Some (inbox (files sys) !! f) → outbox (files sys) !! f = None).

Lemma apart_init : apart init.
Proof.
  unfold apart, init. simpl. split; intros f; rewrite lookup_empty;
    intros Hs; by apply is_Some_None in Hs.
Qed.

Lemma apart_step a sys :
  wf sys → apart sys → enabled a sys → harmless a sys = true → apart (step a sys).
Proof.
  intros (Hin & Hout & Hpend & Hchat) [Hown Hdis] Hen Hharm.
  destruct a as [req now id timestamp now_deadline|id now|file agent stray]; simpl in Hen.
  - (* a request arrives *)
    destruct Hen as [Hen _]. unfold step.
    pose proof (handleChat_files req now id timestamp now_deadline (hits sys) (files sys))
      as Hfiles.
    destruct (handleChat req now id timestamp now_deadline (hits sys) (files sys))
      as [[fwd hits'] fs'].
    simpl in Hfiles. destruct fwd as [id' deadline|r].
    + destruct Hfiles as (-> & -> & ss & m & -> & _). split; simpl.
      * intros f Hs. destruct (Hown f Hs) as (i & -> & Hi). exists i.
        split; [done|]. destruct (decide (i = id)) as [->|Hne].
        -- by rewrite lookup_insert_eq.
        -- by rewrite lookup_insert_ne.
      * intros f Hs. destruct (decide (f = file_of id)) as [->|Hne].
        -- destruct (outbox (files sys) !! file_of id) eqn:E; [|done].
           destruct (Hown (file_of id)) as (i & Heq & Hi); [by eexists|].
           apply file_of_inj in Heq as <-. rewrite Hen in Hi.
           by apply is_Some_None in Hi.
        -- rewrite lookup_insert_ne in Hs by done. by apply Hdis.
    + destruct Hfiles as [-> _]. by split.
  - (* a forwarder takes a turn *)
    unfold step. destruct (chats sys !! id) as [[id' deadline|r]|] eqn:Hid; try done.
    assert (Hfs : inbox (poll now id' deadline (files sys)).2 = inbox (files sys)
                  ∧ ∀ f, is_Some (outbox (poll now id' deadline (files sys)).2 !! f) →
                         is_Some (outbox (files sys) !! f)).
    { unfold poll. destruct (now <? deadline); [|done].
      destruct (outbox (files sys) !! file_of id') as [[data|text]|]; try done.
      assert (Hdel : ∀ f, is_Some (delete (file_of id') (outbox (files sys)) !! f) →
                          is_Some (outbox (files sys) !! f)).
      { intros f [c Hc]. apply lookup_delete_Some in Hc as [_ Hc]. by eexists. }
      by destruct data. }
    destruct (poll now id' deadline (files sys)) as [fwd fs']. simpl in *.
    destruct Hfs as [Hi Ho]. split; simpl.
    + intros f Hs. destruct (Hown f (Ho f Hs)) as (i & -> & Hsome). exists i.
      split; [done|]. destruct (decide (i = id)) as [->|Hne].
      * by rewrite lookup_insert_eq.
      * by rewrite lookup_insert_ne.
    + intros f Hs. rewrite Hi in Hs. specialize (Hdis f Hs).
      destruct (outbox fs' !! f) eqn:E; [|done].
      destruct (Ho f) as [c Hc]; [by eexists|]. congruence.
  - (* the bridge handles a file *)
    destruct Hen as [[c Hfile] _]. unfold step.
    destruct (Hin _ _ Hfile) as (id & ss & m & ts & -> & -> & Hs).
    rewrite (processFile_pending _ _ _ _ _ _ _ Hfile)
      by (by eapply harmless_pending).
    split; simpl.
    + intros f Hf. destruct (decide (f = file_of id)) as [->|Hne].
      * by exists id.
      * rewrite lookup_insert_ne in Hf by done. by apply Hown.
    + intros f [c Hc]. apply lookup_delete_Some in Hc as [Hne Hc].
      rewrite lookup_insert_ne by done. apply Hdis. by eexists.
Qed.

Lemma apart_run tr : ∀ sys sys',
  wf sys → apart sys → run tr sys = Some sys' → harmless_run tr sys = true →
  wf sys' ∧ apart sys'.
Proof.
  induction tr as [|a tr IH]; intros sys sys' Hwf Hap Hrun Hharm;
    simpl in Hrun, Hharm.
  - by injection Hrun as <-.
  - destruct (decide (enabled a sys)); [|done].
    apply andb_true_iff in Hharm as [Ha Htr].
    eapply IH; [| |done|done]; [by apply wf_step | by apply apart_step].
Qed.

Lemma apart_reachable sys : reachable_harmlessly sys → wf sys ∧ apart sys.
Proof.
  intros (tr & Hrun & Hharm).
  eapply apart_run; [apply wf_init | apply apart_init | exact Hrun | exact Hharm].
Qed.

(** X13.  A whole exchange leaves no file behind, where the bridge has
    handled tame entries only and the request is tame itself.  The request
    is admitted, the bridge handles its entry, and its forwarder takes a
    turn before its deadline: the caller is answered with the reply the
    bridge made, and both directories are as they were before the request
    came. *)
Theorem exchange_leaves_no_files sys req now id timestamp now_deadline deadline
    agent stray now' :
  reachable_harmlessly sys →
  chats sys !! id = None →
  (handleChat req now id timestamp now_deadline (hits sys) (files sys)).1.1
    = Waiting id deadline →
  harmless (Work (file_of id) agent stray)
           (step (Arrive req now id timestamp now_deadline) sys) = true →
  now' < deadline →
  let sys' := step (Turn id now')
                (step (Work (file_of id) agent stray)
                   (step (Arrive req now id timestamp now_deadline) sys)) in
  chats sys' !! id = Some (Replied (answer (bridge_reply agent)))
  ∧ files sys' = files sys.
Proof.
  intros Hreach Hfresh Hadmit Hharm Hnow.
  destruct (apart_reachable sys Hreach) as [(Hin & _) [Hown _]].
  assert (Hi : inbox (files sys) !! file_of id = None).
  { destruct (inbox (files sys) !! file_of id) as [c|] eqn:E; [|done].
    destruct (Hin _ _ E) as (i & _ & _ & _ & Heq & _ & Hs).
    apply file_of_inj in Heq as <-. rewrite Hfresh in Hs. by apply is_Some_None in Hs. }
  assert (Ho : outbox (files sys) !! file_of id = None).
  { destruct (outbox (files sys) !! file_of id) as [c|] eqn:E; [|done].
    destruct (Hown (file_of id)) as (i & Heq & Hs); [by eexists|].
    apply file_of_inj in Heq as <-. rewrite Hfresh in Hs. by apply is_Some_None in Hs. }
  pose proof (handleChat_files req now id timestamp now_deadline (hits sys) (files sys))
    as Hfiles.
  rewrite Hadmit in Hfiles. destruct Hfiles as (_ & _ & ss & m & Hfs & _).
  revert Hharm. cbn [step].
  destruct (handleChat req now id timestamp now_deadline (hits sys) (files sys))
    as [[fwd hits'] fs']. simpl in Hadmit, Hfs. subst fwd fs'. intros Hharm.
  cbn [files chats].
  rewrite (processFile_pending id ss m timestamp agent stray);
    [|simpl; by rewrite lookup_insert_eq
     |eapply harmless_pending; [exact Hharm|simpl; by rewrite lookup_insert_eq]].
  assert (Hpoll : ∀ fs,
            outbox fs !! file_of id = Some (Doc (reply_doc (bridge_reply agent))) →
            poll now' id deadline fs
            = (Replied (answer (bridge_reply agent)),
               {| inbox := inbox fs; outbox := delete (file_of id) (outbox fs) |})).
  { intros fs Hl. unfold poll. destruct (Z.ltb_spec now' deadline) as [_|?]; [|lia].
    rewrite Hl. unfold reply_doc at 1. f_equal. f_equal. f_equal.
    exact (reply_doc_reply (bridge_reply agent)). }
  cbn [chats files]. rewrite lookup_insert_eq.
  rewrite Hpoll by (simpl; apply lookup_insert_eq).
  cbn [chats files inbox outbox]. rewrite lookup_insert_eq.
  rewrite !delete_insert_id by done.
  split; [done|]. by destruct (files sys).
Qed.

(** X14.  A reply that comes too late is never collected.  Once the
    forwarder of a request has answered -- with the fallback, say -- a
    completed entry for that request stays in the outbox whatever happens
    next, as long as the bridge handles tame entries only: no forwarder
    polls for it any more, and the bridge does not write it again. *)
Theorem late_reply_is_never_collected sys id r tr sys' :
  reachable_harmlessly sys →
  chats sys !! id = Some (Replied r) →
  is_Some (outbox (files sys) !! file_of id) →
  run tr sys = Some sys' →
  harmless_run tr sys = true →
  outbox (files sys') !! file_of id = outbox (files sys) !! file_of id
  ∧ chats sys' !! id = Some (Replied r).
Proof.
  intros Hreach. destruct (apart_reachable sys Hreach) as [Hwf Hap]. clear Hreach.
  revert sys Hwf Hap.
  induction tr as [|a tr IH]; intros sys Hwf Hap Hchat Hfile Hrun Hharm;
    simpl in Hrun, Hharm.
  - by injection Hrun as <-.
  - destruct (decide (enabled a sys)) as [Hen|]; [|done].
    apply andb_true_iff in Hharm as [Hharm Htr].
    assert (Hstep : outbox (files (step a sys)) !! file_of id
                    = outbox (files sys) !! file_of id
                    ∧ chats (step a sys) !! id = Some (Replied r)).
    { pose proof Hwf as (Hin & _ & _ & Hcw). pose proof Hap as [_ Hdis].
      destruct a as [req now i timestamp now_deadline|i now|file agent stray];
        simpl in Hen.
      - destruct Hen as [Hen _].
        assert (Hne : i ≠ id) by (intros ->; congruence).
        unfold step.
        pose proof (handleChat_files req now i timestamp now_deadline (hits sys) (files sys))
          as Hfiles.
        destruct (handleChat req now i timestamp now_deadline (hits sys) (files sys))
          as [[fwd hits'] fs'].
        simpl in Hfiles. destruct fwd as [id' deadline|r'].
        + destruct Hfiles as (_ & _ & ss & m & -> & _). simpl.
          by rewrite lookup_insert_ne.
        + by destruct Hfiles as [-> _].
      - unfold step. destruct (chats sys !! i) as [[id' deadline|r']|] eqn:Hi; try done.
        pose proof (Hcw _ _ Hi) as Heq. simpl in Heq. subst id'.
        assert (Hne : i ≠ id) by (intros ->; congruence).
        assert (Hfs : outbox (poll now i deadline (files sys)).2 !! file_of id
                      = outbox (files sys) !! file_of id).
        { unfold poll. destruct (now <? deadline); [|done].
          destruct (outbox (files sys) !! file_of i) as [[data|text]|]; try done.
          assert (Hdel : delete (file_of i) (outbox (files sys)) !! file_of id
                         = outbox (files sys) !! file_of id).
          { apply lookup_delete_ne. intros Heq. by apply file_of_inj in Heq. }
          by destruct data. }
        destruct (poll now i deadline (files sys)) as [fwd fs']. simpl in *.
        by rewrite lookup_insert_ne.
      - destruct Hen as [[c Hc] _]. unfold step.
        destruct (Hin _ _ Hc) as (i & ss & m & ts & -> & -> & _).
        rewrite (processFile_pending _ _ _ _ _ _ _ Hc)
          by (by eapply harmless_pending).
        simpl. split; [|done].
        apply lookup_insert_ne. intros Heq. apply file_of_inj in Heq as ->.
        rewrite Hdis in Hfile by (by eexists). by apply is_Some_None in Hfile. }
    destruct Hstep as [Hout' Hchat'].
    destruct (IH (step a sys)) as [Hout'' Hchat'']; try done.
    + by apply wf_step.
    + by apply apart_step.
    + by rewrite Hout'.
    + split; [congruence|done].
Qed.

(** ** One pass of the bridge *)

Lemma substring_all b : String.substring 0 (String.length b) b = b.
Proof. induction b as [|c b IH]; simpl; [done | by f_equal]. Qed.

Lemma substring_append a b :
  String.substring (String.length a) (String.length b) (a +:+ b) = b.
Proof. induction a as [|c a IH]; simpl; [apply substring_all | exact IH]. Qed.

Lemma is_json_file_of id : is_json (file_of id) = true.
Proof.
  unfold is_json, file_of.
  assert (Hlen : String.length (id +:+ ".json") = (String.length id + 5)%nat)
    by (by rewrite length_append).
  rewrite Hlen.
  replace (String.length id + 5 - 5)%nat with (String.length id) by lia.
  pose proof (substring_append id ".json") as Hs. simpl in Hs. rewrite Hs.
  rewrite String.eqb_refl. cbn [andb]. apply Nat.leb_le. lia.
Qed.

(** An inbox that holds pending entries only. *)
Definition pending_only (fs : FS) : Prop :=
  ∀ f c, inbox fs !! f = Some c →
    ∃ id sessionId message timestamp,
      f = file_of id ∧ c = pending_entry id sessionId message timestamp.

(** The entries of the inbox, as far as they are readable, are tame. *)
Definition tame_inbox (fs : FS) : Prop :=
  ∀ f data, inbox fs !! f = Some (Doc data) → tame data = true.

Definition tame_file (c : File (number rt)) : bool :=
  match c with
  | Doc data => tame data
  | Garbled _ => true
  end.

Lemma tame_inbox_check fs :
  map_Forall (λ _ c, tame_file c = true) (inbox fs) → tame_inbox fs.
Proof. intros Hall f data Hf. exact (Hall f _ Hf). Qed.

Lemma processFile_cases file agent stray fs :
  pending_only fs → tame_inbox fs →
  (pending_only (processFile file agent stray fs)
   ∧ tame_inbox (processFile file agent stray fs))
  ∧ (∀ f, f ≠ file →
       inbox (processFile file agent stray fs) !! f = inbox fs !! f
       ∧ outbox (processFile file agent stray fs) !! f = outbox fs !! f)
  ∧ inbox (processFile file agent stray fs) !! file = None
  ∧ outbox (processFile file agent stray fs) !! file
    = match inbox fs !! file with
      | Some _ => Some (Doc (reply_doc (bridge_reply agent)))
      | None => outbox fs !! file
      end.
Proof.
  intros Hp Ht. destruct (inbox fs !! file) as [c|] eqn:Hfile.
  - destruct (Hp _ _ Hfile) as (id & ss & m & ts & -> & ->).
    rewrite (processFile_pending _ _ _ _ _ _ _ Hfile) by (by apply (Ht _ _ Hfile)).
    simpl. split_and!.
    + intros f c Hc. simpl in Hc. apply lookup_delete_Some in Hc as [_ Hc].
      by apply Hp.
    + intros f data Hc. simpl in Hc. apply lookup_delete_Some in Hc as [_ Hc].
      by apply (Ht f).
    + intros f Hne. by rewrite lookup_delete_ne, lookup_insert_ne.
    + apply lookup_delete_eq.
    + apply lookup_insert_eq.
  - rewrite processFile_absent by done. by split_and!.
Qed.

Lemma processInbox_cases agents strays listing : ∀ fs,
  pending_only fs → tame_inbox fs →
  let fs' := foldl (λ fs f, processFile f (agents f) (strays f) fs) fs listing in
  ∀ f,
    (f ∈ listing → is_Some (inbox fs !! f) →
       inbox fs' !! f = None
       ∧ outbox fs' !! f = Some (Doc (reply_doc (bridge_reply (agents f)))))
    ∧ (f ∉ listing ∨ inbox fs !! f = None →
       inbox fs' !! f = inbox fs !! f ∧ outbox fs' !! f = outbox fs !! f).
Proof.
  induction listing as [|f0 listing IH]; intros fs Hp Ht; simpl.
  - intros f. split; [intros Hin; by apply elem_of_nil in Hin|done].
  - destruct (processFile_cases f0 (agents f0) (strays f0) fs Hp Ht)
      as ([Hp1 Ht1] & Hother & Hgone & Hout).
    intros f. specialize (IH _ Hp1 Ht1 f). simpl in IH. destruct IH as [IHin IHout].
    destruct (decide (f = f0)) as [->|Hne].
    + (* the file in hand: after this step it is gone from the inbox *)
      destruct (IHout (or_intror Hgone)) as [Hi Ho]. split.
      * intros _ [c Hc]. rewrite Hi, Ho, Hgone, Hout, Hc. done.
      * intros [Hnot|Hnone]; [exfalso; apply Hnot, elem_of_cons; by left|].
        rewrite Hi, Ho, Hgone, Hout, Hnone. done.
    + destruct (Hother f Hne) as [Hi1 Ho1]. split.
      * intros Hin Hs. apply elem_of_cons in Hin as [?|Hin]; [done|].
        apply IHin; [done|]. by rewrite Hi1.
      * intros Hcase. rewrite <- Hi1, <- Ho1. apply IHout.
        destruct Hcase as [Hnot|Hnone]; [left|right; by rewrite Hi1].
        intros Hin. apply Hnot, elem_of_cons. by right.
Qed.

(** X15.  One pass of the bridge answers every request that is pending, not
    only the newest, where the bridge has handled tame entries only and
    the pending entries are tame: each pending entry the directory listing
    names is removed from the inbox and gets its completed entry, made of
    what the agent did for that very file; every other file of either
    directory is left as it is.  (The pass is taken on its own: [execSync]
    blocks the bridge, and no forwarder writes in between.) *)
Theorem bridge_pass_answers_all sys listing agents strays :
  reachable_harmlessly sys →
  (∀ f data, inbox (files sys) !! f = Some (Doc data) → tame data = true) →
  let fs' := processInbox listing agents strays (files sys) in
  ∀ f,
    (f ∈ listing → is_Some (inbox (files sys) !! f) →
       inbox fs' !! f = None
       ∧ outbox fs' !! f = Some (Doc (reply_doc (bridge_reply (agents f)))))
    ∧ (f ∉ listing →
       inbox fs' !! f = inbox (files sys) !! f
       ∧ outbox fs' !! f = outbox (files sys) !! f).
Proof.
  intros Hreach Htame fs' f.
  destruct (wf_reachable sys Hreach) as (Hin & _).
  assert (Hp : pending_only (files sys)).
  { intros g c Hc. destruct (Hin _ _ Hc) as (id & ss & m & ts & ? & ? & _).
    by exists id, ss, m, ts. }
  destruct (processInbox_cases agents strays (filter (λ f, is_json f) listing)
              _ Hp Htame f)
    as [Hlisted Hnot].
  split.
  - intros Hl [c Hc]. apply Hlisted; [|by eexists].
    apply list_elem_of_filter. split; [|done].
    destruct (Hin _ _ Hc) as (id & _ & _ & _ & -> & _). by rewrite is_json_file_of.
  - intros Hl. apply Hnot. left. intros Hf.
    apply list_elem_of_filter in Hf as [_ Hf]. done.
Qed.

(** What the bridge does to the rest of the inbox when the file in hand is
    tame, or cannot be read. *)
Lemma processFile_inbox file agent stray fs f :
  f ≠ file →
  (∀ data, inbox fs !! file = Some (Doc data) → tame data = true) →
  inbox (processFile file agent stray fs) !! f = inbox fs !! f.
Proof.
  intros Hne Ht. unfold processFile, glitch.
  destruct (inbox fs !! file) as [[data|text]|] eqn:Hfile; try done.
  specialize (Ht data eq_refl). apply andb_true_iff in Ht as [Hplain Hinert].
  rewrite Hinert. unfold complete. rewrite Hfile, Hplain.
  destruct data; try done; simpl;
    repeat match goal with
      | |- context [match ?x with _ => _ end] => destruct x; simpl
      end; try done; by rewrite lookup_delete_ne.
Qed.

Lemma processFile_unreadable file agent stray fs :
  (∃ text, inbox fs !! file = Some (Garbled text)) ∨ inbox fs !! file = Some (Doc JNull) →
  processFile file agent stray fs = fs.
Proof.
  intros [[text Hf]|Hf]; unfold processFile, glitch; by rewrite Hf.
Qed.

(** X16.  Files the bridge cannot use stay where they are, where the
    entries it can read are tame.  A file whose name does not end in
    [.json], whose text does not parse, or which holds [null] is still in
    the inbox, unchanged, after a pass of the bridge -- and so after every
    pass. *)
Theorem unreadable_files_stay (fs : FS) listing agents strays f :
  (∀ g data, inbox fs !! g = Some (Doc data) → tame data = true) →
  is_json f = false
  ∨ (∃ text, inbox fs !! f = Some (Garbled text))
  ∨ inbox fs !! f = Some (Doc JNull) →
  inbox (processInbox listing agents strays fs) !! f = inbox fs !! f.
Proof.
  intros Ht Hf. unfold processInbox.
  assert (Hskip : is_json f = false → f ∉ filter (λ f, is_json f) listing).
  { intros Hj Hin. apply list_elem_of_filter in Hin as [Hin _].
    rewrite Hj in Hin. done. }
  assert (Hkeep : ∀ file agent stray fs,
            tame_inbox fs → tame_inbox (processFile file agent stray fs)).
  { intros file agent stray fs0 Ht0 g data Hg.
    destruct (decide (g = file)) as [->|Hne].
    - destruct (inbox fs0 !! file) as [[d|text]|] eqn:Hfile.
      + assert (Hcase : d = JNull ∨ d ≠ JNull)
          by (destruct d; first [by left | by right]).
        destruct Hcase as [->|Hnn].
        * rewrite processFile_unreadable in Hg by (by right). by apply (Ht0 file).
        * exfalso. revert Hg. unfold processFile, glitch. rewrite Hfile.
          pose proof (Ht0 _ _ Hfile) as Htd.
          apply andb_true_iff in Htd as [Hplain Hinert].
          rewrite Hinert. unfold complete. rewrite Hfile, Hplain.
          destruct d; try done; simpl;
            repeat match goal with
              | |- context [match ?x with _ => _ end] => destruct x; simpl
              end; by rewrite lookup_delete_eq.
      + rewrite processFile_unreadable in Hg by (left; by eexists).
        by apply (Ht0 file).
      + rewrite processFile_absent in Hg by done. by apply (Ht0 file).
    - rewrite processFile_inbox in Hg; [by apply (Ht0 g)|done|].
      intros d Hd. by apply (Ht0 file). }
  revert fs Ht Hf. induction (filter (λ f, is_json f) listing) as [|f0 l IH];
    intros fs Ht Hf; [done|]. simpl.
  destruct (decide (f = f0)) as [<-|Hne].
  - destruct Hf as [Hj|Hbad].
    + exfalso. apply (Hskip Hj), elem_of_cons. by left.
    + rewrite processFile_unreadable by done. apply IH; [|done|by right].
      intros Hj Hin. apply (Hskip Hj), elem_of_cons. by right.
  - rewrite IH.
    + apply processFile_inbox; [done|]. intros d Hd. by apply (Ht f0).
    + intros Hj Hin. apply (Hskip Hj), elem_of_cons. by right.
    + by apply Hkeep.
    + rewrite processFile_inbox; [exact Hf|done|].
      intros d Hd. by apply (Ht f0).
Qed.

End Model.

Arguments Waiting {rt} id deadline.
Arguments Replied {rt} r.
Arguments Arrive {rt} req now id timestamp now_deadline.
Arguments Turn {rt} id now.
Arguments Work {rt} file agent stray.

(** ** Worked examples, on the integer runtime *)

Definition hello (from : string) (text : string) : Incoming int_runtime :=
  {| ip := from; body := Some (JObj [("message", JStr text)]);
     session_header := None |}.

Definition agent_says (text : string) : Agent (number int_runtime) :=
  Returned "(agent output)"
    (Some (JObj [("result", JObj [("payloads", JArr [JObj [("text", JStr text)]])])])).

(** Nothing strays. *)
Definition nowhere : FS int_runtime → FS int_runtime := λ fs, fs.


Definition lonely : list (Action int_runtime) :=
  [Arrive (hello "203.0.113.7" "hi") 0 "a1" "1970-01-01T00:00:00.000Z" 0;
   Turn "a1" 0; Turn "a1" 500; Turn "a1" 25000].





(** [a1] arrives, then [b2]; the bridge completes [b2] first.  The
    forwarder of [a1] keeps waiting; once the bridge has completed [a1]
    too, each forwarder gets its own reply. *)
Definition b_first : list (Action int_runtime) :=
  [Arrive (hello "203.0.113.7" "question A") 0 "a1" "1970-01-01T00:00:00.000Z" 0;
   Arrive (hello "198.51.100.9" "question B") 100 "b2" "1970-01-01T00:00:00.100Z" 100;
   Work (file_of "b2") (agent_says "answer B") nowhere;
   Turn "a1" 500].

Definition both_done : list (Action int_runtime) :=
  b_first ++ [Work (file_of "a1") (agent_says "answer A") nowhere;
              Turn "a1" 1000; Turn "b2" 1100].

Definition both_done_end : Sys int_runtime :=
  foldl (λ sys a, step int_runtime a sys) (init int_runtime) both_done.

Lemma both_done_run : run int_runtime both_done (init int_runtime) = Some both_done_end.
Proof. vm_compute; reflexivity. Qed.

(** The caller of [b2] sends a session id that is a command substitution:
    between the double quotes of line 35 the shell runs it, and it writes a
    completed entry under the name of [a1]. *)
Definition live_session : string :=
  "$(printf '{\042reply\042:\042hello from B\042}' > outbox/a1.json)".

Definition sly : Incoming int_runtime :=
  {| ip := "198.51.100.9";
     body := Some (JObj [("message", JStr "question B");
                         ("session_id", JStr live_session)]);
     session_header := None |}.

Definition two_asked : Sys int_runtime :=
  foldl (λ sys a, step int_runtime a sys) (init int_runtime)
    [Arrive (hello "203.0.113.7" "question A") 0 "a1" "1970-01-01T00:00:00.000Z" 0;
     Arrive sly 100 "b2" "1970-01-01T00:00:00.100Z" 100].

Definition crossed : Sys int_runtime :=
  step int_runtime (Turn "a1" 500)
    (step int_runtime
       (Work (file_of "b2") (agent_says "answer B")
             (plant int_runtime "a1.json" (JStr "hello from B")))
       two_asked).

Lemma live_text_crosses_replies_witness :
  run int_runtime
    [Arrive (hello "203.0.113.7" "question A") 0 "a1" "1970-01-01T00:00:00.000Z" 0;
     Arrive sly 100 "b2" "1970-01-01T00:00:00.100Z" 100;
     Work (file_of "b2") (agent_says "answer B")
          (plant int_runtime "a1.json" (JStr "hello from B"));
     Turn "a1" 500]
    (init int_runtime)
  = Some crossed
  ∧ chats _ crossed !! "a1"
    = Some (Replied (answer int_runtime (Some (JStr "hello from B"))))
  ∧ worked _ crossed = [(file_of "b2", agent_says "answer B")]
  ∧ outbox _ (files _ crossed) !! file_of "b2"
    = Some (Doc (JObj [("reply", JStr "answer B")]))
  ∧ chats _ both_done_end !! "a1"
    = Some (Replied (answer int_runtime (Some (JStr "answer A")))).
Proof.
  destruct (live_text_crosses_replies int_runtime) as (Hcorr & _ & Hcross).
  split; [vm_compute; reflexivity|].
  destruct (Hcross two_asked "a1" "b2" 25000 (JStr live_session) "question B"
              "1970-01-01T00:00:00.100Z" "(agent output)"
              (Some (JObj [("result",
                            JObj [("payloads", JArr [JObj [("text", JStr "answer B")]])])]))
              (plant int_runtime "a1.json" (JStr "hello from B")) 500
              (JStr "hello from B"))
    as [Hchat Hworked];
    [done | vm_compute; reflexivity | lia | vm_compute; reflexivity
    | vm_compute; reflexivity | vm_compute; reflexivity | vm_compute; reflexivity |].
  split; [exact Hchat|]. split; [exact Hworked|].
  split; [vm_compute; reflexivity|].
  assert (Hreach : reachable_harmlessly int_runtime both_done_end)
    by (exists both_done; split; [exact both_done_run | vm_compute; reflexivity]).
  assert (Ha : chats _ both_done_end !! "a1"
               = Some (Replied (answer int_runtime (Some (JStr "answer A")))))
    by (vm_compute; reflexivity).
  destruct (Hcorr both_done_end "a1" _ Hreach Ha) as [Hfb|_];
    [discriminate Hfb | exact Ha].
Defined.

(** ** Further examples *)

(** A request, the bridge, the forwarder's next turn: the caller has its
    answer and no file is left. *)
Lemma exchange_leaves_no_files_witness :
  let sys' := step int_runtime (Turn "a1" 500)
                (step int_runtime (Work (file_of "a1") (agent_says "answer A") nowhere)
                   (step int_runtime
                      (Arrive (hello "203.0.113.7" "question A") 0 "a1"
                              "1970-01-01T00:00:00.000Z" 0)
                      (init int_runtime))) in
  chats _ sys' !! "a1"
  = Some (Replied (answer int_runtime (bridge_reply int_runtime (agent_says "answer A"))))
  ∧ files _ sys' = files _ (init int_runtime).
Proof.
  apply (exchange_leaves_no_files int_runtime (init int_runtime)
           (hello "203.0.113.7" "question A") 0 "a1" "1970-01-01T00:00:00.000Z" 0
           25000 (agent_says "answer A") nowhere 500).
  - by exists [].
  - reflexivity.
  - vm_compute; reflexivity.
  - vm_compute; reflexivity.
  - lia.
Defined.

(** The forwarder of [lonely] gave up at 25000; the bridge completes the
    entry after that. *)
Definition too_late : list (Action int_runtime) :=
  lonely ++ [Work (file_of "a1") (agent_says "answer A") nowhere].

Definition too_late_end : Sys int_runtime :=
  foldl (λ sys a, step int_runtime a sys) (init int_runtime) too_late.

Lemma too_late_run : run int_runtime too_late (init int_runtime) = Some too_late_end.
Proof. vm_compute; reflexivity. Qed.

Definition afterwards : list (Action int_runtime) :=
  [Turn "a1" 26000;
   Arrive (hello "203.0.113.7" "question B") 27000 "b2" "1970-01-01T00:00:27.000Z" 27000].

Definition afterwards_end : Sys int_runtime :=
  foldl (λ sys a, step int_runtime a sys) too_late_end afterwards.

Lemma afterwards_run : run int_runtime afterwards too_late_end = Some afterwards_end.
Proof. vm_compute; reflexivity. Qed.

Lemma late_reply_is_never_collected_witness :
  is_Some (outbox _ (files _ too_late_end) !! file_of "a1")
  ∧ outbox _ (files _ afterwards_end) !! file_of "a1"
    = outbox _ (files _ too_late_end) !! file_of "a1".
Proof.
  assert (Hfile : is_Some (outbox _ (files _ too_late_end) !! file_of "a1"))
    by (vm_compute; by eexists).
  split; [exact Hfile|].
  apply (late_reply_is_never_collected int_runtime too_late_end "a1"
           (fallback int_runtime) afterwards afterwards_end).
  - exists too_late. split; [exact too_late_run | vm_compute; reflexivity].
  - vm_compute; reflexivity.
  - exact Hfile.
  - exact afterwards_run.
  - vm_compute; reflexivity.
Defined.

(** Two requests wait; one pass of the bridge over the directory answers
    both. *)
Definition two_waiting : Sys int_runtime :=
  foldl (λ sys a, step int_runtime a sys) (init int_runtime)
    [Arrive (hello "203.0.113.7" "question A") 0 "a1" "1970-01-01T00:00:00.000Z" 0;
     Arrive (hello "198.51.100.9" "question B") 100 "b2" "1970-01-01T00:00:00.100Z" 100].

Lemma two_waiting_reachable : reachable_harmlessly int_runtime two_waiting.
Proof.
  exists [Arrive (hello "203.0.113.7" "question A") 0 "a1" "1970-01-01T00:00:00.000Z" 0;
          Arrive (hello "198.51.100.9" "question B") 100 "b2" "1970-01-01T00:00:00.100Z" 100].
  split; vm_compute; reflexivity.
Qed.

Lemma bridge_pass_answers_all_witness :
  let fs' := processInbox int_runtime ["b2.json"; "notes.txt"; "a1.json"]
               (λ f, agent_says f) (λ _, nowhere) (files _ two_waiting) in
  inbox _ fs' !! "a1.json" = None
  ∧ outbox _ fs' !! "a1.json"
    = Some (Doc (reply_doc int_runtime (bridge_reply int_runtime (agent_says "a1.json")))).
Proof.
  apply (bridge_pass_answers_all int_runtime two_waiting
           ["b2.json"; "notes.txt"; "a1.json"] (λ f, agent_says f) (λ _, nowhere)
           two_waiting_reachable).
  - apply tame_inbox_check. apply (bool_decide_unpack _). vm_compute. exact I.
  - apply elem_of_cons. right. apply elem_of_cons. right. apply elem_of_cons. by left.
  - vm_compute. by eexists.
Defined.

(** A half-written file survives the pass that answers a request. *)
Definition half_written : FS int_runtime :=
  {| inbox := <["c3.json" := Garbled "{"]> (inbox _ (files _ two_waiting));
     outbox := ∅ |}.

Lemma unreadable_files_stay_witness :
  inbox _ (processInbox int_runtime ["a1.json"; "c3.json"] (λ f, agent_says f)
             (λ _, nowhere) half_written)
    !! "c3.json"
  = Some (Garbled "{")
  ∧ inbox _ (processInbox int_runtime ["a1.json"; "c3.json"] (λ f, agent_says f)
               (λ _, nowhere) half_written)
      !! "a1.json"
    = None.
Proof.
  split; [|vm_compute; reflexivity].
  rewrite (unreadable_files_stay int_runtime half_written ["a1.json"; "c3.json"]
             (λ f, agent_says f) (λ _, nowhere) "c3.json").
  - vm_compute; reflexivity.
  - apply tame_inbox_check. apply (bool_decide_unpack _). vm_compute. exact I.
  - right. left. exists "{". vm_compute; reflexivity.
Defined.

End Mailbox.

(* ===================================================================== *)
(** * The guide's LLM call limiter: [canCallLLM]                          *)
(* ===================================================================== *)

(** The OpenClaw guide's cost protection: a second limiter, in front of the
    LLM and shared by all callers.  Unlike [rateLimit] it drops old times
    from the front of its array only, and keeps a time that is exactly one
    minute old. *)

Module LlmBudget.

Definition LLM_MAX_PER_MINUTE : nat := 20.

(** [now - llmCalls[0] > 60000] *)
Definition stale (now t : Z) : Prop := now - t > 60000.

#[global] Instance stale_dec now t : Decision (stale now t).
Proof. unfold stale. apply _. Defined.

(** [while (llmCalls.length && now - llmCalls[0] > 60000) llmCalls.shift();] *)
Fixpoint shift_stale (now : Z) (llmCalls : list Z) : list Z :=
  match llmCalls with
  | t :: rest => if decide (stale now t) then shift_stale now rest else llmCalls
  | [] => []
  end.

(** [function canCallLLM()]; [now] is the value [Date.now()] returns.  The
    result pairs the returned boolean with the updated [llmCalls]. *)
Definition canCallLLM (now : Z) (llmCalls : list Z) : bool * list Z :=
  let kept := shift_stale now llmCalls in
  (* if (llmCalls.length >= LLM_MAX_PER_MINUTE) return false; *)
  if bool_decide (LLM_MAX_PER_MINUTE ≤ length kept)%nat then (false, kept)
  (* llmCalls.push(now); return true; *)
  else (true, kept ++ [now]).

(** The calls of [canCallLLM] at the clock readings [times], in order,
    threading [llmCalls]; the log keeps each reading with the answer. *)
Fixpoint asks (times : list Z) (llmCalls : list Z) (log : list (Z * bool))
  : list Z * list (Z * bool) :=
  match times with
  | [] => (llmCalls, log)
  | now :: rest =>
      let '(ok, llmCalls') := canCallLLM now llmCalls in
      asks rest llmCalls' (log ++ [(now, ok)])
  end.

(** Times of the calls that were allowed, oldest first. *)
Definition granted (log : list (Z * bool)) : list Z :=
  omap (λ e : Z * bool, if e.2 then Some e.1 else None) log.

(** A clock that never runs backwards: each reading is at least every
    earlier one. *)
Fixpoint ascending (ts : list Z) : Prop :=
  match ts with
  | [] => True
  | t :: rest => Forall (λ x, t ≤ x) rest ∧ ascending rest
  end.

#[global] Instance ascending_dec ts : Decision (ascending ts).
Proof. induction ts; simpl; apply _. Defined.

(** [t] lies in the minute that ends at [now], both ends included. *)
Definition recent (now t : Z) : Prop := now - t ≤ 60000.

#[global] Instance recent_dec now t : Decision (recent now t).
Proof. unfold recent. apply _. Defined.

Lemma filter_keeps_all {A} (P : A → Prop) `{!∀ x, Decision (P x)} (l : list A) :
  Forall P l → filter P l = l.
Proof.
  induction 1 as [|x l Hx _ IH]; [done|].
  by rewrite filter_cons, decide_True, IH.
Qed.

Lemma Forall_filter_keep {A} (P Q : A → Prop) `{!∀ x, Decision (Q x)} (l : list A) :
  Forall P l → Forall P (filter Q l).
Proof.
  rewrite !Forall_forall. intros Hall x Hx.
  apply list_elem_of_filter in Hx as [_ Hx]. by apply Hall.
Qed.

Lemma shift_stale_filter now l :
  ascending l → shift_stale now l = filter (recent now) l.
Proof.
  induction l as [|t l IH]; [done|]. intros [Hle Hasc]. simpl.
  rewrite filter_cons. destruct (decide (stale now t)) as [Hs|Hs].
  - rewrite decide_False by (unfold recent, stale in *; lia). by apply IH.
  - rewrite decide_True by (unfold recent, stale in *; lia). f_equal.
    symmetry. apply filter_keeps_all.
    eapply Forall_impl; [exact Hle|]. unfold recent, stale in *. simpl. lia.
Qed.

Lemma shift_stale_length now l : (length (shift_stale now l) ≤ length l)%nat.
Proof.
  induction l as [|t l IH]; simpl; [lia|].
  destruct (decide (stale now t)); simpl; lia.
Qed.

Lemma ascending_filter (P : Z → Prop) `{!∀ x, Decision (P x)} l :
  ascending l → ascending (filter P l).
Proof.
  induction l as [|t l IH]; [done|]. intros [Hle Hasc].
  rewrite filter_cons. destruct (decide (P t)); [|by apply IH].
  split; [|by apply IH]. by apply Forall_filter_keep.
Qed.

Lemma ascending_snoc l t :
  ascending l → Forall (λ x, x ≤ t) l → ascending (l ++ [t]).
Proof.
  induction l as [|x l IH]; simpl; [intros; split; [apply Forall_nil_2|done]|].
  intros [Hle Hasc] Hall. apply Forall_cons in Hall as [Hx Hall].
  split; [|by apply IH].
  apply Forall_app. split; [done|]. by apply Forall_singleton.
Qed.

Lemma filter_recent_later now now' (l : list Z) :
  now ≤ now' →
  filter (recent now') (filter (recent now) l) = filter (recent now') l.
Proof.
  intros Hle. induction l as [|t l IH]; [done|].
  rewrite !filter_cons.
  destruct (decide (recent now t)) as [Hf|Hf];
    destruct (decide (recent now' t)) as [Hf'|Hf'];
    rewrite ?filter_cons; try destruct (decide (recent now' t)); try done;
    try (by f_equal).
  unfold recent in *. lia.
Qed.

Lemma granted_snoc log now ok :
  granted (log ++ [(now, ok)]) = granted log ++ (if ok then [now] else []).
Proof. unfold granted. rewrite omap_app. f_equal. simpl. by destruct ok. Qed.

(** What the array and the log have in common after a call at time [T]. *)
Record tracks (T : Z) (llmCalls : list Z) (log : list (Z * bool)) : Prop := {
  tracks_ascending : ascending llmCalls;
  tracks_past : Forall (λ t, t ≤ T) llmCalls;
  tracks_bound : (length llmCalls ≤ LLM_MAX_PER_MINUTE)%nat;
  tracks_recent : ∀ now, T ≤ now →
    filter (recent now) llmCalls = filter (recent now) (granted log);
}.

Lemma tracks_canCallLLM T l log now :
  tracks T l log → T ≤ now →
  tracks now (canCallLLM now l).2 (log ++ [(now, (canCallLLM now l).1)]).
Proof.
  intros [Hasc Hpast Hlen Hrec] HT.
  assert (Hkept : shift_stale now l = filter (recent now) l)
    by by apply shift_stale_filter.
  assert (Hpast' : Forall (λ t, t ≤ now) (filter (recent now) l)).
  { apply Forall_filter_keep. eapply Forall_impl; [exact Hpast|]. simpl. lia. }
  unfold canCallLLM. rewrite Hkept.
  pose proof (length_filter (recent now) l) as Hle.
  case_bool_decide as Hfull; simpl; split; rewrite ?granted_snoc.
  - by apply ascending_filter.
  - done.
  - lia.
  - intros now' Hnow'. rewrite app_nil_r, filter_recent_later by done.
    apply Hrec. lia.
  - by apply ascending_snoc; [apply ascending_filter|].
  - apply Forall_app. split; [done|]. apply Forall_singleton. lia.
  - rewrite length_app. simpl. lia.
  - intros now' Hnow'. rewrite !filter_app, filter_recent_later by done.
    f_equal. apply Hrec. lia.
Qed.

Lemma tracks_asks times : ∀ T l log now,
  tracks T l log → ascending (T :: times ++ [now]) →
  ∃ T', T' ≤ now ∧ tracks T' (asks times l log).1 (asks times l log).2.
Proof.
  induction times as [|c times IH]; intros T l log now Htr Hasc.
  - exists T. split; [|done]. destruct Hasc as [Hle _].
    simpl in Hle. by apply Forall_cons in Hle as [? _].
  - destruct Hasc as [Hle Hasc]. apply Forall_cons in Hle as [HT _]. simpl.
    pose proof (tracks_canCallLLM T l log c Htr HT) as Htr'.
    destruct (canCallLLM c l) as [ok l']. by apply (IH c).
Qed.

Lemma tracks_start T : tracks T [] [].
Proof. split; simpl; [done|apply Forall_nil_2|lia|done]. Qed.

Lemma ascending_dup t ts : ascending (t :: ts) → ascending (t :: t :: ts).
Proof.
  intros [Hle Hasc]. split; [|done]. apply Forall_cons. split; [lia|done].
Qed.

Lemma tracks_history times now :
  ascending (times ++ [now]) →
  ∃ T, T ≤ now ∧ tracks T (asks times [] []).1 (asks times [] []).2.
Proof.
  intros Hasc. destruct times as [|c times].
  - exists now. split; [lia|apply tracks_start].
  - apply (tracks_asks _ c); [apply tracks_start|]. by apply ascending_dup.
Qed.

(** X17.  The LLM limiter over a history of calls, the clock not running
    backwards: a call at [now] is allowed exactly when fewer than 20 of the
    calls allowed so far lie in the minute up to [now] (a call exactly
    60000 ms old still counts); and at no instant does that minute hold
    more than 20 allowed calls. *)
Theorem llm_calls_per_minute times now :
  ascending (times ++ [now]) →
  let busy := filter (λ t, now - t ≤ 60000) (granted (asks times [] []).2) in
  ((canCallLLM now (asks times [] []).1).1 = true ↔ (length busy < 20)%nat)
  ∧ (length busy ≤ 20)%nat.
Proof.
  intros Hasc busy.
  destruct (tracks_history times now Hasc) as (T & HT & [Ha Hp Hl Hr]).
  assert (Hbusy : busy = filter (recent now) (asks times [] []).1)
    by (symmetry; by apply Hr).
  pose proof (length_filter (recent now) (asks times [] []).1) as Hle.
  split.
  - unfold canCallLLM. rewrite shift_stale_filter, <- Hbusy by done.
    unfold LLM_MAX_PER_MINUTE. case_bool_decide; simpl; split; intros; (done || lia).
  - rewrite Hbusy. unfold LLM_MAX_PER_MINUTE in Hl. lia.
Qed.

(** Twenty calls in the same millisecond use the minute up: the next is
    refused, also exactly 60000 ms later, and allowed one millisecond after
    that. *)
Definition rush : list Z := replicate 20 0.

Lemma llm_calls_per_minute_witness :
  ascending (rush ++ [60000])
  ∧ (canCallLLM 60000 (asks rush [] []).1).1 = false
  ∧ (canCallLLM 60001 (asks rush [] []).1).1 = true.
Proof.
  assert (Hasc : ascending (rush ++ [60000]))
    by (apply (bool_decide_unpack _); vm_compute; exact I).
  split; [exact Hasc|]. split.
  - destruct (llm_calls_per_minute rush 60000 Hasc) as [Hiff _].
    apply not_true_is_false. intros E.
    apply Hiff in E. vm_compute in E. lia.
  - vm_compute. reflexivity.
Defined.

End LlmBudget.

(* ===================================================================== *)
(** * The guide's conversation store: [getHistory], [addToHistory]        *)
(* ===================================================================== *)

(** The OpenClaw guide keeps, per inbound session, the messages exchanged
    so far, in a [Map] from the session id (a string: the header's, a
    string [session_id] of the body, or ['default']) to the messages and
    the time of the last activity. *)

Module History.

Section Model.
(** What a message holds: the caller's [message], the LLM's reply. *)
Context {Content : Type}.

Record Entry := { role : string; content : Content }.

Record Conversation := { messages : list Entry; lastActivity : Z }.

Local Abbreviation Store := (gmap string Conversation).

Definition MAX_HISTORY : nat := 20.
Definition SESSION_TTL : Z := 600000.

(** [now - conv.lastActivity > SESSION_TTL] *)
Definition expired (now : Z) (conv : Conversation) : Prop :=
  now - lastActivity conv > SESSION_TTL.

#[global] Instance expired_dec now conv : Decision (expired now conv).
Proof. unfold expired. apply _. Defined.

(** [function getHistory(sessionId)]; [now] is the value [Date.now()]
    returns.  The result pairs the returned array with the updated map. *)
Definition getHistory (sessionId : string) (now : Z) (conversations : Store)
    : list Entry * Store :=
  match conversations !! sessionId with
  | None => ([], conversations)
  | Some conv =>
      if decide (expired now conv)
      then ([], delete sessionId conversations)
      else (messages conv, conversations)
  end.

(** [while (conv.messages.length > MAX_HISTORY) conv.messages.shift();] *)
Fixpoint trim (messages : list Entry) : list Entry :=
  match messages with
  | _ :: rest =>
      if bool_decide (MAX_HISTORY < length messages)%nat then trim rest
      else messages
  | [] => []
  end.

(** [function addToHistory(sessionId, role, content)].  Of the two
    readings of [Date.now()] the second overwrites the first; [now] is
    that one. *)
Definition addToHistory (sessionId role : string) (content : Content) (now : Z)
    (conversations : Store) : Store :=
  let conv := default {| messages := []; lastActivity := now |}
                      (conversations !! sessionId) in
  <[sessionId := {| messages := trim (messages conv ++ [{| role := role; content := content |}]);
                    lastActivity := now |}]> conversations.

(** The callback of [setInterval(..., 60000)]: delete every expired
    conversation. *)
Definition sweep (now : Z) (conversations : Store) : Store :=
  filter (λ kv, ¬ expired now kv.2) conversations.

(** The handler that uses the store, from the line that reads the history
    on, up to its [await]; [sessionId] and [message] are what its first
    lines read off the request.  The result pairs the messages for the LLM
    with the updated map. *)
Definition handleChat_begin (SYSTEM_PROMPT : Content) (sessionId : string)
    (message : Content) (t0 : Z) (conversations : Store) : list Entry * Store :=
  let '(history, conversations) := getHistory sessionId t0 conversations in
  ({| role := "system"; content := SYSTEM_PROMPT |}
     :: history ++ [{| role := "user"; content := message |}],
   conversations).

(** The handler from the [await] on, the LLM having answered [reply]: both
    sides are added, to the map as it is by then. *)
Definition handleChat_resume (sessionId : string) (message reply : Content)
    (t1 t2 : Z) (conversations : Store) : Store :=
  addToHistory sessionId "assistant" reply t2
    (addToHistory sessionId "user" message t1 conversations).

(** The handler as a whole.  [callLLM] is what the LLM makes of the
    messages it is sent ([None]: the call fails, and the handler with it);
    [meanwhile] is what the other handlers and the clean-up do to the map
    while this one waits for the LLM; [t0], [t1] and [t2] are the clock
    readings of the three calls into the store. *)
Definition handleChat (SYSTEM_PROMPT : Content) (sessionId : string)
    (message : Content) (callLLM : list Entry → option Content)
    (meanwhile : Store → Store) (t0 t1 t2 : Z)
    (conversations : Store) : option Content * Store :=
  let '(messages, conversations) :=
    handleChat_begin SYSTEM_PROMPT sessionId message t0 conversations in
  match callLLM messages with
  | None => (None, meanwhile conversations)
  | Some reply =>
      (Some reply,
       handleChat_resume sessionId message reply t1 t2 (meanwhile conversations))
  end.

(** What happens to the store over time. *)
Inductive Op :=
| Get (sessionId : string) (now : Z)
| Add (sessionId role : string) (content : Content) (now : Z)
| Sweep (now : Z).

Definition exec (conversations : Store) (op : Op) : Store :=
  match op with
  | Get sessionId now => (getHistory sessionId now conversations).2
  | Add sessionId role content now =>
      addToHistory sessionId role content now conversations
  | Sweep now => sweep now conversations
  end.

Definition run (ops : list Op) : Store := foldl exec ∅ ops.

(** The last [n] items of a list. *)
Definition lastn {A} (n : nat) (l : list A) : list A := drop (length l - n) l.

(** The messages added to a session, among additions to any. *)
Definition added_to (sessionId : string) (adds : list (string * Entry * Z))
    : list Entry :=
  omap (λ a : string * Entry * Z,
          if decide (a.1.1 = sessionId) then Some a.1.2 else None) adds.

Definition record (adds : list (string * Entry * Z)) : Store :=
  foldl (λ st (a : string * Entry * Z),
           addToHistory a.1.1 (role a.1.2) (content a.1.2) a.2 st) ∅ adds.

(** ** Facts *)

Lemma trim_lastn l : trim l = lastn MAX_HISTORY l.
Proof.
  unfold lastn. induction l as [|x l IH]; [done|].
  cbn [trim]. case_bool_decide as Hlen.
  - rewrite IH. cbn [length] in *. unfold MAX_HISTORY in *.
    replace (S (length l) - 20)%nat with (S (length l - 20)) by lia. done.
  - cbn [length] in *. unfold MAX_HISTORY in *.
    by replace (S (length l) - 20)%nat with 0%nat by lia.
Qed.

Lemma length_lastn {A} n (l : list A) : (length (lastn n l) ≤ n)%nat.
Proof. unfold lastn. rewrite length_drop. lia. Qed.

Lemma lastn_snoc {A} n (l : list A) x :
  (0 < n)%nat → lastn n (lastn n l ++ [x]) = lastn n (l ++ [x]).
Proof.
  intros Hn. unfold lastn. rewrite !length_app, length_drop. simpl.
  destruct (decide (length l ≤ n)%nat) as [Hle|Hgt].
  - replace (length l - n)%nat with 0%nat by lia. simpl.
    by replace (length l - 0)%nat with (length l) by lia.
  - rewrite !drop_app_le by (rewrite ?length_drop; lia).
    rewrite drop_drop. f_equal. f_equal. lia.
Qed.

Lemma lastn_short {A} n (l : list A) : (length l ≤ n)%nat → lastn n l = l.
Proof. intros. unfold lastn. by replace (length l - n)%nat with 0%nat by lia. Qed.

Definition bounded (conversations : Store) : Prop :=
  ∀ sessionId conv, conversations !! sessionId = Some conv →
    (length (messages conv) ≤ MAX_HISTORY)%nat.

Lemma bounded_exec conversations op :
  bounded conversations → bounded (exec conversations op).
Proof.
  intros Hb sid conv. destruct op as [s now|s r c now|now]; simpl.
  - unfold getHistory. destruct (conversations !! s) as [conv'|] eqn:E;
      [|by apply Hb].
    destruct (decide (expired now conv')); simpl; [|by apply Hb].
    intros Hl. apply lookup_delete_Some in Hl as [_ Hl]. by eapply Hb.
  - unfold addToHistory. destruct (decide (s = sid)) as [->|Hne].
    + rewrite lookup_insert_eq. intros [= <-]. simpl.
      rewrite trim_lastn. apply length_lastn.
    + rewrite lookup_insert_ne by done. apply Hb.
  - unfold sweep. intros Hl. apply map_lookup_filter_Some in Hl as [Hl _].
    by eapply Hb.
Qed.

Lemma bounded_run ops : bounded (run ops).
Proof.
  unfold run. induction ops as [|op ops IH] using rev_ind.
  - intros sid conv Hl. simpl in Hl. by rewrite lookup_empty in Hl.
  - rewrite foldl_app. simpl. by apply bounded_exec.
Qed.

Lemma getHistory_messages sessionId now conversations :
  (getHistory sessionId now conversations).1 = []
  ∨ ∃ conv, conversations !! sessionId = Some conv
            ∧ ¬ expired now conv
            ∧ (getHistory sessionId now conversations).1 = messages conv.
Proof.
  unfold getHistory. destruct (conversations !! sessionId) as [conv|]; [|by left].
  destruct (decide (expired now conv)); [by left|]. right. by exists conv.
Qed.

(** X18.  Whatever was read, added and swept before, [getHistory] never
    returns more than [MAX_HISTORY] = 20 messages. *)
Theorem history_is_bounded ops sessionId now :
  (length (getHistory sessionId now (run ops)).1 ≤ 20)%nat.
Proof.
  destruct (getHistory_messages sessionId now (run ops)) as [->|(conv & Hl & _ & ->)].
  - simpl. lia.
  - by apply (bounded_run ops sessionId).
Qed.

Lemma added_to_snoc sid adds a :
  added_to sid (adds ++ [a])
  = added_to sid adds ++ (if decide (a.1.1 = sid) then [a.1.2] else []).
Proof.
  unfold added_to. rewrite omap_app. f_equal. simpl.
  by destruct (decide (a.1.1 = sid)).
Qed.

Lemma record_snoc adds a :
  record (adds ++ [a])
  = addToHistory a.1.1 (role a.1.2) (content a.1.2) a.2 (record adds).
Proof. unfold record. by rewrite foldl_app. Qed.

Lemma record_messages adds sid :
  default [] (messages <$> record adds !! sid) = lastn MAX_HISTORY (added_to sid adds)
  ∧ (record adds !! sid = None ↔ added_to sid adds = []).
Proof.
  induction adds as [|a adds [IH1 IH2]] using rev_ind.
  - unfold record. simpl. by rewrite lookup_empty.
  - rewrite record_snoc, added_to_snoc. unfold addToHistory.
    destruct (decide (a.1.1 = sid)) as [->|Hne].
    + rewrite lookup_insert_eq. simpl. split.
      * rewrite trim_lastn. destruct a as [[s [r c]] t]. simpl in *.
        replace (messages (default {| messages := []; lastActivity := t |}
                                   (record adds !! sid)))
          with (lastn MAX_HISTORY (added_to sid adds))
          by (rewrite <- IH1; by destruct (record adds !! sid)).
        apply lastn_snoc. unfold MAX_HISTORY. lia.
      * split; [done|]. intros H. by apply app_eq_nil in H as [_ ?].
    + rewrite lookup_insert_ne, app_nil_r by done. done.
Qed.

(** X19.  A session holds the 20 most recent of the messages added to it, in
    the order they were added, whatever was added to other sessions in
    between and however much time went by: [addToHistory] trims, and never
    looks at the age of the conversation. *)
Theorem history_keeps_latest (adds : list (string * Entry * Z)) (sessionId : string) :
  let mine := added_to sessionId adds in
  messages <$> (record adds !! sessionId)
  = match mine with
    | [] => None
    | _ :: _ => Some (drop (length mine - 20) mine)
    end.
Proof.
  intros mine. destruct (record_messages adds sessionId) as [Hm Hnone].
  fold mine in Hm, Hnone. destruct mine as [|e mine'].
  - by rewrite (proj2 Hnone eq_refl).
  - destruct (record adds !! sessionId) as [conv|].
    + simpl in *. by rewrite Hm.
    + destruct Hnone as [Hnone _]. discriminate (Hnone eq_refl).
Qed.

(** X20.  The periodic clean-up deletes exactly the expired
    conversations.  A [getHistory] on the map right after the clean-up, at
    that or any later reading of the clock, returns the messages it returns
    without the clean-up.  But the clean-up shows as soon as a message is
    added: [addToHistory] never looks at the age, so to an expired
    conversation that was neither read nor swept it appends, and after the
    clean-up it starts the conversation anew. *)
Theorem sweep_shows_only_through_add (conversations : Store) (now now' : Z)
    (sessionId : string) :
  now ≤ now' →
  (∀ conv, sweep now conversations !! sessionId = Some conv
           ↔ conversations !! sessionId = Some conv
             ∧ now - lastActivity conv ≤ 600000)
  ∧ (getHistory sessionId now' (sweep now conversations)).1
    = (getHistory sessionId now' conversations).1
  ∧ (∀ conv role content,
       conversations !! sessionId = Some conv →
       now - lastActivity conv > 600000 →
       let entry := {| role := role; content := content |} in
       addToHistory sessionId role content now' (sweep now conversations) !! sessionId
       = Some {| messages := [entry]; lastActivity := now' |}
       ∧ addToHistory sessionId role content now' conversations !! sessionId
         = Some {| messages := drop (length (messages conv ++ [entry]) - 20)
                                    (messages conv ++ [entry]);
                   lastActivity := now' |}).
Proof.
  intros Hle.
  assert (Hsw : ∀ conv, sweep now conversations !! sessionId = Some conv
           ↔ conversations !! sessionId = Some conv
             ∧ now - lastActivity conv ≤ 600000).
  { intros conv. unfold sweep. rewrite map_lookup_filter_Some.
    unfold expired, SESSION_TTL. simpl. split; intros [? ?]; split; (done || lia). }
  split; [exact Hsw|]. split.
  - unfold getHistory.
    destruct (conversations !! sessionId) as [conv|] eqn:E.
    + destruct (decide (expired now conv)) as [Hx|Hx].
      * assert (sweep now conversations !! sessionId = None) as ->.
        { apply eq_None_not_Some. intros [c Hc]. apply Hsw in Hc as [Hc ?].
          injection Hc as <-. unfold expired, SESSION_TTL in Hx. lia. }
        rewrite decide_True; [done|]. unfold expired in *. lia.
      * assert (sweep now conversations !! sessionId = Some conv) as ->.
        { apply Hsw. split; [done|]. unfold expired, SESSION_TTL in Hx. lia. }
        by destruct (decide (expired now' conv)).
    + assert (sweep now conversations !! sessionId = None) as ->; [|done].
      apply eq_None_not_Some. intros [c Hc]. by apply Hsw in Hc as [Hc _].
  - intros conv r c Hconv Hold entry.
    assert (Hgone : sweep now conversations !! sessionId = None).
    { apply eq_None_not_Some. intros [c' Hc]. apply Hsw in Hc as [Hc ?].
      rewrite Hconv in Hc. injection Hc as <-. lia. }
    unfold addToHistory. rewrite !lookup_insert_eq, Hgone, Hconv. simpl.
    split; [done|]. by rewrite trim_lastn.
Qed.

(** X21.  One turn of the handler, the LLM answering [reply].  The LLM is
    sent the system prompt, the live history and the new message; the live
    history is empty when the session is unknown or was idle for more than
    600000 ms, so such a session starts over.  The message and the reply
    are added after the [await], to what the map holds for the session by
    then, whatever other turns and the clean-up made of it in the
    meantime: the session ends up with the last 20 of those messages
    followed by the message and the reply.  When nothing touched the map
    in the meantime, those messages are the live history. *)
Theorem handleChat_turn (SYSTEM_PROMPT : Content) sessionId message reply
    (callLLM : list Entry → option Content) (meanwhile : Store → Store)
    t0 t1 t2 (conversations : Store) :
  let live := (getHistory sessionId t0 conversations).1 in
  let user := {| role := "user"; content := message |} in
  let assistant := {| role := "assistant"; content := reply |} in
  callLLM ({| role := "system"; content := SYSTEM_PROMPT |} :: live ++ [user])
    = Some reply →
  let stored :=
    default [] (messages <$>
                  meanwhile (getHistory sessionId t0 conversations).2 !! sessionId) in
  let after := (handleChat SYSTEM_PROMPT sessionId message callLLM meanwhile
                  t0 t1 t2 conversations).2 in
  after !! sessionId
    = Some {| messages := drop (length (stored ++ [user; assistant]) - 20)
                               (stored ++ [user; assistant]);
              lastActivity := t2 |}
  ∧ ((∀ st, meanwhile st = st) → stored = live)
  ∧ (∀ conv, conversations !! sessionId = Some conv →
       t0 - lastActivity conv > 600000 → live = [])
  ∧ (∀ conv, conversations !! sessionId = Some conv →
       t0 - lastActivity conv ≤ 600000 → live = messages conv)
  ∧ (conversations !! sessionId = None → live = []).
Proof.
  intros live user assistant Hllm stored after.
  split; [|split; [|split; [|split]]].
  - unfold after, handleChat, handleChat_begin. fold live.
    unfold stored. clear stored after.
    destruct (getHistory sessionId t0 conversations) as [history st] eqn:E.
    simpl in live. subst live. fold user. rewrite Hllm. cbn [fst snd].
    unfold handleChat_resume.
    unfold addToHistory at 1. rewrite lookup_insert_eq. simpl.
    unfold addToHistory. rewrite lookup_insert_eq. simpl. f_equal. f_equal.
    rewrite !trim_lastn.
    replace (messages (default {| messages := []; lastActivity := t1 |}
                               (meanwhile st !! sessionId)))
      with (default [] (messages <$> meanwhile st !! sessionId))
      by (by destruct (meanwhile st !! sessionId)).
    rewrite lastn_snoc by (unfold MAX_HISTORY; lia).
    unfold lastn, MAX_HISTORY. fold user assistant.
    by rewrite <- app_assoc.
  - intros Hquiet. unfold stored, live. rewrite Hquiet. unfold getHistory.
    destruct (conversations !! sessionId) as [conv|] eqn:El.
    + destruct (decide (expired t0 conv)); simpl.
      * by rewrite lookup_delete_eq.
      * by rewrite El.
    + simpl. by rewrite El.
  - intros conv El Hx. unfold live, getHistory. rewrite El.
    by rewrite decide_True.
  - intros conv El Hx. unfold live, getHistory. rewrite El.
    rewrite decide_False; [done|]. unfold expired, SESSION_TTL. lia.
  - intros El. unfold live, getHistory. by rewrite El.
Qed.

End Model.

(** A session that was idle for a second too long is swept, and reads as
    empty with or without the sweep; a message added to it joins the old
    one without the sweep, and stands alone after it. *)
Definition stale_store : gmap string (@Conversation string) :=
  {[ "s1" := {| messages := [{| role := "user"; content := "hi" |}];
                lastActivity := 0 |} ]}.

Lemma sweep_shows_only_through_add_witness :
  sweep 600001 stale_store !! "s1" = None
  ∧ (getHistory "s1" 600005 (sweep 600001 stale_store)).1
    = (getHistory "s1" 600005 stale_store).1
  ∧ messages <$> (addToHistory "s1" "user" "again" 600005 (sweep 600001 stale_store)
                  !! "s1")
    = Some [{| role := "user"; content := "again" |}]
  ∧ messages <$> (addToHistory "s1" "user" "again" 600005 stale_store !! "s1")
    = Some [{| role := "user"; content := "hi" |};
            {| role := "user"; content := "again" |}].
Proof.
  destruct (sweep_shows_only_through_add stale_store 600001 600005 "s1")
    as (Hsw & Hget & Hadd); [lia|].
  split.
  { apply eq_None_not_Some. intros [c Hc]. apply Hsw in Hc as [Hc Hage].
    vm_compute in Hc. injection Hc as <-. simpl in Hage. lia. }
  split; [exact Hget|].
  destruct (Hadd {| messages := [{| role := "user"; content := "hi" |}];
                    lastActivity := 0 |} "user" "again")
    as [Hswept Hkept]; [vm_compute; reflexivity | simpl; lia |].
  split; [by rewrite Hswept | by rewrite Hkept].
Defined.

(** The LLM of the example answers with the number of messages it was
    sent. *)
Definition counting (messages : list (@Entry string)) : option string :=
  Some (pretty (length messages)).

(** While the LLM works on ["again"], another turn of the same session
    adds its own two messages. *)
Definition another_turn (st : gmap string (@Conversation string))
    : gmap string (@Conversation string) :=
  handleChat_resume "s1" "meanwhile" "1" 600002 600002 st.

Lemma handleChat_turn_witness :
  (handleChat "be brief" "s1" "again" counting (λ st, st)
              600001 600002 600003 stale_store).2 !! "s1"
  = Some {| messages := [{| role := "user"; content := "again" |};
                         {| role := "assistant"; content := "2" |}];
            lastActivity := 600003 |}
  ∧ (handleChat "be brief" "s1" "again" counting another_turn
                600001 600003 600004 stale_store).2 !! "s1"
    = Some {| messages := [{| role := "user"; content := "meanwhile" |};
                           {| role := "assistant"; content := "1" |};
                           {| role := "user"; content := "again" |};
                           {| role := "assistant"; content := "2" |}];
              lastActivity := 600004 |}.
Proof.
  split.
  - destruct (handleChat_turn "be brief" "s1" "again" "2" counting (λ st, st)
                600001 600002 600003 stale_store) as [Hafter _];
      [vm_compute; reflexivity|].
    rewrite Hafter. vm_compute. reflexivity.
  - destruct (handleChat_turn "be brief" "s1" "again" "2" counting another_turn
                600001 600003 600004 stale_store) as [Hafter _];
      [vm_compute; reflexivity|].
    rewrite Hafter. vm_compute. reflexivity.
Defined.

End History.

(* ===================================================================== *)
(** * The guide's outbound session tracker: [ConversationManager]         *)
(* ===================================================================== *)

(** A bot that talks to other bots through the proxy keeps the session id
    each of them handed out, and sends it back with every later message.
    The calls are taken one after the other, as the guide's usage does
    ([await] on each). *)

Module Outbound.
Import JS.

Section Model.
Context (rt : Runtime).
Local Abbreviation Json := (JSON (number rt)).

(** [this.apiKey], [this.sessions] (bot code to session id), [this.base] *)
Record ConversationManager := {
  apiKey : string;
  sessions : gmap string string;
  base : string;
}.

(** [constructor(apiKey)] *)
Definition create (apiKey : string) : ConversationManager :=
  {| apiKey := apiKey; sessions := ∅; base := "https://api.botroulette.net" |}.

(** What [fetch] is called with; the headers in the order they are set. *)
Record Fetch := {
  url : string;
  method : string;
  headers : list (string * string);
  body : string;
}.

(** What [fetch] comes to: a rejection, or a response, of which the code
    reads the [x-kpath-session-id] header ([None]: [headers.get] returns
    [null]) and the body through [response.json()] ([None]: it rejects). *)
Record Response := {
  session_header : option string;
  json : option Json;
}.

Inductive Fetched :=
| Rejects
| Resolves (response : Response).

(** What [sendMessage] returns. *)
Record Sent := {
  reply : Json;
  sessionId : option string;
  isNewSession : bool;
}.

(** Truthiness of a string that may be [undefined] or [null]. *)
Definition nonempty (s : option string) : bool :=
  match s with
  | Some s => negb (String.eqb s EmptyString)
  | None => false
  end.

(** The request [sendMessage(botCode, message)] makes. *)
Definition request_of (cm : ConversationManager) (botCode : string) (message : Json)
    : Fetch :=
  let sessionId := sessions cm !! botCode in
  {| url := base cm +:+ "/api/proxy/" +:+ botCode;
     method := "POST";
     headers :=
       [("X-API-Key", apiKey cm); ("Content-Type", "application/json")]
       ++ (if nonempty sessionId
           then [("X-KPATH-Session-ID", default EmptyString sessionId)]
           else []);
     body := JSON_stringify rt (JObj [("message", message)]) |}.

(** [data.reply || data.response || JSON.stringify(data)]; reading a
    property of [null] throws. *)
Definition reply_of (data : Json) : option Json :=
  match data with
  | JNull => None
  | _ =>
      Some (if truthy rt (prop data "reply")
            then default JNull (prop data "reply")
            else if truthy rt (prop data "response")
            then default JNull (prop data "response")
            else JStr (JSON_stringify rt data))
  end.

(** [async sendMessage(botCode, message)], [fetch] answering the request
    as the environment decides.  [None] stands for the rejected promise. *)
Definition sendMessage (botCode : string) (message : Json)
    (fetch : Fetch → Fetched) (cm : ConversationManager)
    : option Sent * ConversationManager :=
  let sessionId := sessions cm !! botCode in
  match fetch (request_of cm botCode message) with
  | Rejects => (None, cm)
  | Resolves response =>
      let newSessionId := session_header response in
      let cm' :=
        if nonempty newSessionId
        then {| apiKey := apiKey cm;
                sessions := <[botCode := default EmptyString newSessionId]>
                              (sessions cm);
                base := base cm |}
        else cm in
      match json response ≫= reply_of with
      | None => (None, cm')
      | Some reply =>
          (Some {| reply := reply;
                   sessionId := if nonempty newSessionId then newSessionId
                                else sessionId;
                   isNewSession := negb (nonempty sessionId) |},
           cm')
      end
  end.

(** [resetSession(botCode)] *)
Definition resetSession (botCode : string) (cm : ConversationManager)
    : ConversationManager :=
  {| apiKey := apiKey cm; sessions := delete botCode (sessions cm);
     base := base cm |}.

(** [hasSession(botCode)] *)
Definition hasSession (botCode : string) (cm : ConversationManager) : bool :=
  bool_decide (is_Some (sessions cm !! botCode)).

(** The value of the [X-KPATH-Session-ID] header of a request. *)
Fixpoint header (name : string) (hs : list (string * string)) : option string :=
  match hs with
  | [] => None
  | (k, v) :: rest => if String.eqb k name then Some v else header name rest
  end.

Definition session_sent (rq : Fetch) : option string :=
  header "X-KPATH-Session-ID" (headers rq).

(** The life of a manager: messages sent and sessions reset. *)
Inductive Op :=
| Send (botCode : string) (message : Json) (fetch : Fetch → Fetched)
| Reset (botCode : string).

Definition exec (cm : ConversationManager) (op : Op) : ConversationManager :=
  match op with
  | Send botCode message fetch => (sendMessage botCode message fetch cm).2
  | Reset botCode => resetSession botCode cm
  end.

Definition after (apiKey : string) (ops : list Op) : ConversationManager :=
  foldl exec (create apiKey) ops.

(** The operations that do not touch the session [id] kept for [botCode]:
    a reset of another bot, a message to another bot, and a message to
    this bot that [fetch] rejects or whose response carries no session id,
    an empty one, or [id] again. *)
Definition keeps (botCode id : string) (cm : ConversationManager) (op : Op) : Prop :=
  match op with
  | Reset b => b ≠ botCode
  | Send b message fetch =>
      b = botCode →
      match fetch (request_of cm b message) with
      | Rejects => True
      | Resolves response =>
          nonempty (session_header response) = true →
          session_header response = Some id
      end
  end.

Fixpoint kept (botCode id : string) (cm : ConversationManager) (ops : list Op) : Prop :=
  match ops with
  | [] => True
  | op :: ops => keeps botCode id cm op ∧ kept botCode id (exec cm op) ops
  end.

(** ** Facts *)

Lemma session_sent_request cm botCode message :
  session_sent (request_of cm botCode message)
  = match sessions cm !! botCode with
    | Some s => if String.eqb s EmptyString then None else Some s
    | None => None
    end.
Proof.
  unfold session_sent, request_of. simpl.
  destruct (sessions cm !! botCode) as [s|]; simpl; [|done].
  by destruct (String.eqb s EmptyString).
Qed.

Lemma sendMessage_sessions botCode message fetch cm :
  sessions (sendMessage botCode message fetch cm).2
  = match fetch (request_of cm botCode message) with
    | Resolves {| session_header := Some s |} =>
        if String.eqb s EmptyString then sessions cm
        else <[botCode := s]> (sessions cm)
    | _ => sessions cm
    end.
Proof.
  unfold sendMessage.
  destruct (fetch _) as [|[[s|] j]]; simpl; [done| |].
  - destruct (String.eqb s EmptyString); simpl;
      by destruct (j ≫= reply_of).
  - by destruct (j ≫= reply_of).
Qed.

(** No stored session id is the empty string. *)
Definition proper (cm : ConversationManager) : Prop :=
  ∀ botCode s, sessions cm !! botCode = Some s → s ≠ EmptyString.

Lemma proper_exec cm op : proper cm → proper (exec cm op).
Proof.
  intros Hp bot s. destruct op as [b m fetch|b]; simpl.
  - rewrite sendMessage_sessions.
    destruct (fetch _) as [|[[s'|] j]]; try apply Hp.
    destruct (String.eqb s' EmptyString) eqn:E; [apply Hp|].
    destruct (decide (b = bot)) as [->|Hne].
    + rewrite lookup_insert_eq. intros [= <-] ->. by rewrite String.eqb_refl in E.
    + rewrite lookup_insert_ne by done. apply Hp.
  - intros Hl. apply lookup_delete_Some in Hl as [_ Hl]. by eapply Hp.
Qed.

Lemma proper_after apiKey ops : proper (after apiKey ops).
Proof.
  unfold after. induction ops as [|op ops IH] using rev_ind.
  - intros bot s Hl. simpl in Hl. by rewrite lookup_empty in Hl.
  - rewrite foldl_app. simpl. by apply proper_exec.
Qed.

Lemma keeps_exec botCode id cm op :
  sessions cm !! botCode = Some id →
  keeps botCode id cm op →
  sessions (exec cm op) !! botCode = Some id.
Proof.
  intros Hs Hk. destruct op as [b m fetch|b]; simpl in *.
  - rewrite sendMessage_sessions.
    destruct (fetch _) as [|[[s|] j]]; try done.
    destruct (String.eqb s EmptyString) eqn:E; [done|].
    destruct (decide (b = botCode)) as [->|Hne].
    + rewrite lookup_insert_eq. apply Hk; [done|]. simpl. by rewrite E.
    + by rewrite lookup_insert_ne.
  - by rewrite lookup_delete_ne.
Qed.

Lemma kept_run botCode id ops : ∀ cm,
  sessions cm !! botCode = Some id →
  kept botCode id cm ops →
  sessions (foldl exec cm ops) !! botCode = Some id.
Proof.
  induction ops as [|op ops IH]; intros cm Hs Hk; [done|].
  destruct Hk as [Hop Hk]. simpl. apply IH; [|done]. by apply keeps_exec.
Qed.

(** X22.  The session id a bot hands out comes back to it: when the
    response to a message for [botCode] carries a non-empty
    [x-kpath-session-id] (whether or not the body of the response could be
    read), [hasSession] holds, what is kept for other bots is as it was,
    and the requests to that bot carry that id in [X-KPATH-Session-ID]
    until the bot answers with another non-empty id or [resetSession] is
    called for it: through messages to other bots, resets of other bots,
    rejected calls and responses without an id or with the same id.  A
    later response with another non-empty id replaces it, and
    [resetSession] drops it. *)
Theorem session_round_trip botCode message fetch cm id response :
  fetch (request_of cm botCode message) = Resolves response →
  session_header response = Some id →
  id ≠ EmptyString →
  let cm' := (sendMessage botCode message fetch cm).2 in
  (∀ ops message', kept botCode id cm' ops →
     session_sent (request_of (foldl exec cm' ops) botCode message') = Some id)
  ∧ hasSession botCode cm' = true
  ∧ (∀ other message', other ≠ botCode →
       request_of cm' other message' = request_of cm other message')
  ∧ (∀ message' fetch' response' id' message'',
       fetch' (request_of cm' botCode message') = Resolves response' →
       session_header response' = Some id' →
       id' ≠ EmptyString →
       session_sent (request_of (sendMessage botCode message' fetch' cm').2
                                botCode message'') = Some id')
  ∧ (∀ message',
       session_sent (request_of (resetSession botCode cm') botCode message') = None).
Proof.
  intros Hf Hh Hid cm'.
  assert (Hs : sessions cm' = <[botCode := id]> (sessions cm)).
  { unfold cm'. rewrite sendMessage_sessions, Hf. destruct response as [h j].
    simpl in Hh. subst h.
    destruct (String.eqb id EmptyString) eqn:E; [|done].
    by apply String.eqb_eq in E. }
  assert (Hk : apiKey cm' = apiKey cm ∧ base cm' = base cm).
  { unfold cm', sendMessage. rewrite Hf. simpl.
    destruct (nonempty _); by destruct (_ ≫= _). }
  split; [|split; [|split; [|split]]].
  - intros ops message' Hkept. rewrite session_sent_request.
    rewrite (kept_run botCode id ops cm'); [| by rewrite Hs, lookup_insert_eq | done].
    destruct (String.eqb id EmptyString) eqn:E; [|done].
    by apply String.eqb_eq in E.
  - unfold hasSession. rewrite Hs, lookup_insert_eq. by apply bool_decide_eq_true_2.
  - intros other message' Hne. unfold request_of.
    rewrite Hs, lookup_insert_ne by done. destruct Hk as [-> ->]. done.
  - intros message' fetch' response' id' message'' Hf' Hh' Hid'.
    rewrite session_sent_request, sendMessage_sessions, Hf'.
    destruct response' as [h j]. simpl in Hh'. subst h.
    destruct (String.eqb id' EmptyString) eqn:E; [by apply String.eqb_eq in E|].
    by rewrite lookup_insert_eq, E.
  - intros message'. rewrite session_sent_request. unfold resetSession. simpl.
    by rewrite lookup_delete_eq.
Qed.

(** X23.  In every state a manager can be in, [hasSession(botCode)] tells
    what [sendMessage] will do: it is true exactly when the next request to
    that bot carries a session id, and exactly when the result of that
    call says [isNewSession: false].  After [resetSession(botCode)] it is
    false, so the next message starts a new session. *)
Theorem hasSession_is_reliable apiKey ops botCode message :
  let cm := after apiKey ops in
  (hasSession botCode cm = true
   ↔ is_Some (session_sent (request_of cm botCode message)))
  ∧ (∀ fetch sent, (sendMessage botCode message fetch cm).1 = Some sent →
       isNewSession sent = negb (hasSession botCode cm))
  ∧ hasSession botCode (resetSession botCode cm) = false
  ∧ session_sent (request_of (resetSession botCode cm) botCode message) = None.
Proof.
  intros cm. pose proof (proper_after apiKey ops botCode) as Hp. fold cm in Hp.
  split; [|split; [|split]].
  - rewrite session_sent_request. unfold hasSession.
    destruct (sessions cm !! botCode) as [s|] eqn:E.
    + specialize (Hp s eq_refl).
      destruct (String.eqb s EmptyString) eqn:Es;
        [by apply String.eqb_eq in Es|].
      split; [by eexists|]. intros _. by apply bool_decide_eq_true_2.
    + split; [intros H; by apply bool_decide_eq_true_1, is_Some_None in H|].
      intros H. by apply is_Some_None in H.
  - intros fetch sent. unfold sendMessage, hasSession.
    destruct (fetch _) as [|r]; [done|].
    destruct (json r ≫= reply_of); [|done]. intros [= <-]. simpl.
    destruct (sessions cm !! botCode) as [s|] eqn:E; simpl.
    + specialize (Hp s eq_refl).
      destruct (String.eqb s EmptyString) eqn:Es;
        [by apply String.eqb_eq in Es|].
      simpl. rewrite ?bool_decide_eq_true_2 by eauto. done.
    + rewrite ?bool_decide_eq_false_2 by apply is_Some_None. done.
  - unfold hasSession, resetSession. simpl. rewrite lookup_delete_eq.
    apply bool_decide_eq_false_2, is_Some_None.
  - rewrite session_sent_request. unfold resetSession. simpl.
    by rewrite lookup_delete_eq.
Qed.

End Model.

Arguments Rejects {rt}.
Arguments Resolves {rt} response.
Arguments Send {rt} botCode message fetch.
Arguments Reset {rt} botCode.

(** The other bot opens session [s-1] and answers. *)
Definition opens : Fetch → Fetched int_runtime :=
  λ _, Resolves {| session_header := Some "s-1";
                   json := Some (JObj [("reply", JStr "hello")]) |}.

(** Another bot opens session [s-2]; a response without the header. *)
Definition opens_other : Fetch → Fetched int_runtime :=
  λ _, Resolves {| session_header := Some "s-2";
                   json := Some (JObj [("reply", JStr "hi there")]) |}.

Definition plain_answer : Fetch → Fetched int_runtime :=
  λ _, Resolves {| session_header := None;
                   json := Some (JObj [("reply", JStr "go on")]) |}.

(** The id [s-1] comes back after a message to another bot, a response
    without the header and a reset of the other bot; it gives way to
    [s-2] when the bot answers with that. *)
Lemma session_round_trip_witness :
  let cm' := (sendMessage int_runtime "bot-a" (JStr "hi") opens (create "kp_live_1")).2 in
  session_sent
    (request_of int_runtime
       (foldl (exec int_runtime) cm'
              [Send "bot-b" (JStr "hi") opens_other;
               Send "bot-a" (JStr "more") plain_answer;
               Reset "bot-b"])
       "bot-a" (JStr "and then?"))
  = Some "s-1"
  ∧ session_sent
      (request_of int_runtime
         (sendMessage int_runtime "bot-a" (JStr "more") opens_other cm').2
         "bot-a" (JStr "and then?"))
    = Some "s-2".
Proof.
  intros cm'.
  destruct (session_round_trip int_runtime "bot-a" (JStr "hi") opens
              (create "kp_live_1") "s-1" _ eq_refl eq_refl)
    as (Hkept & _ & _ & Hnew & _); [done|].
  split.
  - apply Hkept. simpl. repeat split; try done.
  - by apply (Hnew (JStr "more") opens_other
                    {| session_header := Some "s-2";
                       json := Some (JObj [("reply", JStr "hi there")]) |} "s-2").
Defined.

(** After two messages and a reset the manager holds no session for the
    bot. *)
Lemma hasSession_is_reliable_witness :
  hasSession "bot-a"
    (resetSession "bot-a"
       (after int_runtime "kp_live_1"
          [Send "bot-a" (JStr "hi") opens; Send "bot-a" (JStr "and then?") opens]))
  = false.
Proof.
  by destruct (hasSession_is_reliable int_runtime "kp_live_1"
                 [Send "bot-a" (JStr "hi") opens; Send "bot-a" (JStr "and then?") opens]
                 "bot-a" (JStr "again")) as (_ & _ & Hreset & _).
Defined.

End Outbound.

(* ===================================================================== *)
(** * The direct responder: [generic-template/server.js]                  *)
(* ===================================================================== *)

(** [handleChat] of the generic template: rate limit, validation, one call
    to the LLM, one JSON answer. *)

Module Direct.
Import JS.

Section Model.
Context (rt : Runtime).
Local Abbreviation Json := (JSON (number rt)).

(** What [handleChat] sends back: the status and the object it
    stringifies.  [{ reply }] with [reply] undefined stringifies to [{}]. *)
Inductive Payload :=
| ErrorBody (error : string)
| ReplyBody (reply : option Json).

Record Reply := { status : Z; payload : Payload }.

(** An incoming HTTP request, as far as [handleChat] reads it. *)
Record Incoming := {
  ip : string;          (* req.ip *)
  body : option Json;   (* req.body *)
}.

(** What [await openai.chat.completions.create(...)] comes to. *)
Inductive Completion :=
| Completed (completion : Json)
| Failed.

(** [completion.choices[0].message.content]; [None] when an access reads a
    property of [undefined] or [null] and throws. *)
Definition content_of (completion : Json) : option (option Json) :=
  match completion with
  | JNull => None
  | _ =>
      match prop completion "choices" with
      | None | Some JNull => None
      | Some choices =>
          match Mailbox.first_of rt choices with
          | None | Some JNull => None
          | Some choice =>
              match prop choice "message" with
              | None | Some JNull => None
              | Some message => Some (prop message "content")
              end
          end
      end
  end.

(** Lines 63-82: the [try] and its [catch]. *)
Definition llm_reply (outcome : Completion) : Reply :=
  let sorry := {| status := 200;
                  payload := ReplyBody (Some (JStr "something went wrong, try again")) |} in
  match outcome with
  | Completed completion =>
      match content_of completion with
      | Some reply => {| status := 200; payload := ReplyBody reply |}
      | None => sorry
      end
  | Failed => sorry
  end.

(** Lines 47-83, [handleChat(req, res)]: [now] is the clock reading of
    [rateLimit], [llm] what the LLM call comes to for a message.  The
    result is the answer, the message the LLM was called with, if it was,
    and the updated [hits]. *)
Definition handleChat (req : Incoming) (now : Z) (llm : string → Completion)
    (hits : gmap string (list Z)) : Reply * option string * gmap string (list Z) :=
  let '(limited, hits) := RateLimit.rateLimit (ip req) now hits in
  if limited
  then ({| status := 429; payload := ErrorBody "rate limited" |}, None, hits)
  else
  (* const { message } = req.body || {}; *)
  let b := match body req with
           | Some b => if truthy rt (Some b) then b else JObj []
           | None => JObj []
           end in
  match prop b "message" with
  | Some (JStr message) =>
      if String.eqb message EmptyString
      then ({| status := 400;
               payload := ErrorBody "missing or invalid message field" |}, None, hits)
      else if (5000 <? String_length rt message)
      then ({| status := 400; payload := ErrorBody "message too long" |}, None, hits)
      else (llm_reply (llm message), Some message, hits)
  | _ => ({| status := 400;
             payload := ErrorBody "missing or invalid message field" |}, None, hits)
  end.

(** The server's life: requests in order of arrival with the clock reading
    of each, threading [hits]; the log keeps each with its answer. *)
Fixpoint serve (reqs : list (Incoming * Z)) (llm : string → Completion)
    (hits : gmap string (list Z)) (log : list (Incoming * Z * Reply))
    : gmap string (list Z) * list (Incoming * Z * Reply) :=
  match reqs with
  | [] => (hits, log)
  | (req, now) :: rest =>
      let '(reply, _, hits') := handleChat req now llm hits in
      serve rest llm hits' (log ++ [(req, now, reply)])
  end.

(** Times of the requests of a caller that were not answered 429. *)
Definition counted (caller : string) (log : list (Incoming * Z * Reply)) : list Z :=
  omap (λ e : Incoming * Z * Reply,
          if bool_decide (ip e.1.1 = caller) && negb (status e.2 =? 429)
          then Some e.1.2 else None) log.

(** ** Facts *)

Lemma handleChat_hits req now llm hits :
  (handleChat req now llm hits).2 = (RateLimit.rateLimit (ip req) now hits).2.
Proof.
  unfold handleChat. destruct (RateLimit.rateLimit _ _ _) as [[] hits']; [done|].
  simpl. destruct (prop _ "message") as [[]|]; try done.
  destruct (String.eqb _ _); [done|]. by destruct (5000 <? _).
Qed.

Lemma llm_reply_status outcome : status (llm_reply outcome) = 200.
Proof.
  unfold llm_reply. destruct outcome as [c|]; [|done].
  by destruct (content_of c).
Qed.

Lemma handleChat_limited req now llm hits :
  (status (handleChat req now llm hits).1.1 =? 429)
  = (RateLimit.rateLimit (ip req) now hits).1.
Proof.
  unfold handleChat. destruct (RateLimit.rateLimit _ _ _) as [[] hits']; [done|].
  simpl. destruct (prop _ "message") as [[]|]; try done.
  destruct (String.eqb _ _); [done|]. destruct (5000 <? _); [done|].
  simpl. by rewrite llm_reply_status.
Qed.

(** The calls of [rateLimit] the requests make. *)
Definition call_of (r : Incoming * Z) : RateLimit.Call :=
  {| RateLimit.c_ip := ip r.1; RateLimit.c_now := r.2 |}.

Lemma counted_snoc caller log req now reply :
  counted caller (log ++ [(req, now, reply)])
  = counted caller log
      ++ (if bool_decide (ip req = caller) && negb (status reply =? 429)
          then [now] else []).
Proof.
  unfold counted. rewrite omap_app. f_equal. simpl.
  by destruct (bool_decide (ip req = caller) && negb (status reply =? 429)).
Qed.

(** The server's [hits] are those of the calls of [rateLimit] alone, and
    the requests not answered 429 are the calls [rateLimit] accepted. *)
Lemma serve_rateLimit reqs llm : ∀ hits log log',
  (∀ caller, counted caller log = RateLimit.accepted caller log') →
  (serve reqs llm hits log).1
  = (RateLimit.serve (map call_of reqs) hits log').1
  ∧ ∀ caller, counted caller (serve reqs llm hits log).2
              = RateLimit.accepted caller
                  (RateLimit.serve (map call_of reqs) hits log').2.
Proof.
  induction reqs as [|[req now] reqs IH]; intros hits log log' Hlog; [done|].
  cbn [serve map RateLimit.serve call_of fst snd RateLimit.c_ip RateLimit.c_now].
  pose proof (handleChat_hits req now llm hits) as Hh.
  pose proof (handleChat_limited req now llm hits) as Hl.
  destruct (handleChat req now llm hits) as [[reply asked] hits1].
  destruct (RateLimit.rateLimit (ip req) now hits) as [limited hits2].
  simpl in Hh, Hl. subst hits2. apply IH. intros caller.
  rewrite counted_snoc, RateLimit.accepted_snoc, Hlog, Hl. done.
Qed.

(** X24.  Which requests use up a caller's quota: every request that
    reaches [handleChat] and is not answered 429, whether it is then
    answered 200 or rejected with 400.  A request is answered 429 exactly
    when 30 or more such requests of its caller lie in the trailing minute
    (the clock not running backwards). *)
Theorem rejected_requests_use_quota reqs llm req now :
  RateLimit.nondecreasing (map snd reqs ++ [now]) →
  status (handleChat req now llm (serve reqs llm ∅ []).1).1.1 = 429
  ↔ (30 ≤ length (filter (λ t, (now - t < 60000)%Z)
                         (counted (ip req) (serve reqs llm ∅ []).2)))%nat.
Proof.
  intros Hclock.
  destruct (serve_rateLimit reqs llm ∅ [] []) as [Hhits Hlog]; [done|].
  rewrite <- Z.eqb_eq, handleChat_limited, Hhits, Hlog.
  rewrite RateLimit.rateLimit_result, bool_decide_eq_true.
  assert (Hmap : map RateLimit.c_now (map call_of reqs) = map snd reqs).
  { rewrite map_map. by apply map_ext. }
  assert (Hag : filter (RateLimit.fresh now)
                  (RateLimit.window (RateLimit.serve (map call_of reqs) ∅ []).1 (ip req))
                = filter (RateLimit.fresh now)
                    (RateLimit.accepted (ip req)
                       (RateLimit.serve (map call_of reqs) ∅ []).2)).
  { destruct reqs as [|[r t] reqs].
    - simpl. apply (RateLimit.agrees_empty now). lia.
    - apply (RateLimit.agrees_serve _ t); [apply RateLimit.agrees_empty|].
      rewrite Hmap. by apply RateLimit.nondecreasing_dup. }
  by rewrite Hag.
Qed.

(** X25.  What reaches the LLM: the request's [message], and only when the
    request is within its quota and the message is a non-empty string
    whose [length] -- its UTF-16 code units -- is at most 5000.  Then the
    answer has status 200, whatever the LLM does; every other request is
    answered 429 or 400 without a call to the LLM. *)
Theorem llm_sees_only_valid_messages req now llm hits :
  let reply := (handleChat req now llm hits).1.1 in
  let asked := (handleChat req now llm hits).1.2 in
  (∀ m, asked = Some m
        ↔ (RateLimit.rateLimit (ip req) now hits).1 = false
          ∧ body req ≫= (λ b, prop b "message") = Some (JStr m)
          ∧ m ≠ EmptyString
          ∧ String_length rt m ≤ 5000)
  ∧ (∀ m, asked = Some m → reply = llm_reply (llm m) ∧ status reply = 200)
  ∧ (asked = None → status reply = 429 ∨ status reply = 400).
Proof.
  intros reply asked. unfold reply, asked, handleChat. clear reply asked.
  destruct (RateLimit.rateLimit (ip req) now hits) as [[] hits'];
    cbv beta iota zeta; cbn [fst snd].
  { split; [|split]; [|done|by left]. intros m. split; [done|]. by intros []. }
  assert (Hb : prop (match body req with
                     | Some b => if truthy rt (Some b) then b else JObj []
                     | None => JObj []
                     end) "message"
               = body req ≫= (λ b, prop b "message")).
  { destruct (body req) as [[|b0|n|s|l|l]|]; simpl; try done;
      [by destruct b0 | by destruct (number_falsy rt n)
      | by destruct (String.eqb s EmptyString)]. }
  rewrite Hb. clear Hb.
  destruct (body req ≫= _) as [[| | |message| |]|]; cbn [fst snd];
    try (split; [|split]; [|done|by right]; intros m; split; [done|];
         by intros (_ & ? & _)).
  destruct (String.eqb_spec message EmptyString) as [->|Hne]; cbn [fst snd].
  { split; [|split]; [|done|by right]. intros m. split; [done|].
    by intros (_ & [= <-] & ? & _). }
  destruct (Z.ltb_spec 5000 (String_length rt message)) as [Hlong|Hshort];
    cbn [fst snd].
  { split; [|split]; [|done|by right]. intros m. split; [done|].
    intros (_ & [= <-] & _ & ?). lia. }
  split; [|split]; [| |done].
  - intros m. split.
    + intros [= <-]. split_and!; first [done | lia].
    + by intros (_ & [= <-] & _).
  - intros m [= <-]. split; [done|apply llm_reply_status].
Qed.

End Model.

Arguments Completed {rt} completion.
Arguments Failed {rt}.

(** Thirty requests without a message, all rejected with 400 in the same
    half minute, and the caller's next request, a valid one, is answered
    429. *)
Definition no_message (n : nat) : Incoming int_runtime * Z :=
  ({| ip := "203.0.113.7"; body := Some (JObj []) |}, Z.of_nat n).

Definition empties : list (Incoming int_runtime * Z) := map no_message (seq 0 30).

Definition polite : Incoming int_runtime :=
  {| ip := "203.0.113.7"; body := Some (JObj [("message", JStr "hello")]) |}.

Definition silent_llm : string → Completion int_runtime := λ _, Failed.

Lemma rejected_requests_use_quota_witness :
  Forall (λ e : Incoming int_runtime * Z * Reply int_runtime, status _ e.2 = 400)
    (serve int_runtime empties silent_llm ∅ []).2
  ∧ status _ (handleChat int_runtime polite 100 silent_llm
                (serve int_runtime empties silent_llm ∅ []).1).1.1 = 429.
Proof.
  split.
  - apply (bool_decide_unpack _). vm_compute. exact I.
  - apply (rejected_requests_use_quota int_runtime empties silent_llm polite 100).
    + apply (bool_decide_unpack _). vm_compute. exact I.
    + vm_compute. lia.
Defined.

(** The valid request of [polite], first to arrive: the LLM is called
    with its message, and its failure is answered with status 200. *)
Lemma llm_sees_only_valid_messages_witness :
  (handleChat int_runtime polite 0 silent_llm ∅).1.2 = Some "hello"
  ∧ status _ (handleChat int_runtime polite 0 silent_llm ∅).1.1 = 200.
Proof.
  destruct (llm_sees_only_valid_messages int_runtime polite 0 silent_llm ∅)
    as (Hasked & Hreply & _).
  assert (Ha : (handleChat int_runtime polite 0 silent_llm ∅).1.2 = Some "hello").
  { apply Hasked. split_and!; [vm_compute; reflexivity | reflexivity | done |].
    by vm_compute. }
  split; [exact Ha|]. by destruct (Hreply "hello" Ha).
Defined.

End Direct.

(* ===================================================================== *)
(** * The OpenClaw HTTP responder: [openclaw-template/server_http_api.js] *)
(* ===================================================================== *)

(** [handleChat] awaits [callOpenClaw], a promise around one
    [http.request] to the gateway.  The same three callbacks as in the
    tunnel client -- end of the response, error, timeout -- compete, but
    here they settle a promise, and a promise settles once. *)

Module OpenClawApi.
Import JS.

(** [process.env] *)
Record Env := {
  OPENCLAW_PORT_var : option string;
  OPENCLAW_TOKEN_var : option string;
}.

Section Model.
Context (rt : Runtime) (env : Env).
Local Abbreviation Json := (JSON (number rt)).
(** The number a numeric literal denotes; [JSON.parse], [None] when it
    throws; the customised prompt. *)
Context (literal : Z → number rt).
Context (JSON_parse : string → option Json).
Context (SYSTEM_PROMPT : string).

(** Lines 22-23. *)
Definition OPENCLAW_PORT : string + Z :=
  match OPENCLAW_PORT_var env with
  | Some p => if String.eqb p EmptyString then inr 18789 else inl p
  | None => inr 18789
  end.

Definition OPENCLAW_TOKEN : string := default EmptyString (OPENCLAW_TOKEN_var env).

(** What [handleChat] sends back. *)
Inductive Payload :=
| ErrorBody (error : string)
| ResponseBody (response : Json).

Record Reply := { status : Z; payload : Payload }.

Definition glitch : Reply :=
  {| status := 200; payload := ResponseBody (JStr "brain glitch. try again.") |}.

(** An incoming HTTP request, as far as [handleChat] reads it. *)
Record Incoming := {
  ip : string;                     (* req.ip *)
  body : option Json;              (* req.body *)
  session_header : option string;  (* req.headers['x-kpath-session-id'] *)
}.

(** The [http.request] of [callOpenClaw] with what is written to it. *)
Record GatewayCall := {
  hostname : string;
  port : string + Z;
  path : string;
  method : string;
  headers : list (string * string);
  written : Json;     (* the object whose serialization is written *)
}.

(** The state of a promise. *)
Inductive Settled :=
| Fulfilled (value : Json)
| Rejected.

(** One call of [handleChat] that got as far as [callOpenClaw]: the
    request made, the chunks of the response once there is one, the state
    of the promise, and what was sent back to the caller. *)
Record Exchange := {
  call : GatewayCall;
  chunks : option (list string);
  settled : option Settled;
  answers : list Reply;
}.

(** [req.body.session_id || req.headers['x-kpath-session-id'] || undefined] *)
Definition sessionId_of (req : Incoming) (b : Json) : option Json :=
  if truthy rt (prop b "session_id") then prop b "session_id"
  else match session_header req with
       | Some h => if String.eqb h EmptyString then None else Some (JStr h)
       | None => None
       end.

(** Lines 44-61: the request [callOpenClaw(message, sessionId)] makes. *)
Definition gateway_call (message : string) (sessionId : option Json) : GatewayCall :=
  {| hostname := "127.0.0.1"; port := OPENCLAW_PORT;
     path := "/v1/chat/completions"; method := "POST";
     headers :=
       ("Content-Type", "application/json")
       :: (if String.eqb OPENCLAW_TOKEN EmptyString then []
           else [("Authorization", "Bearer " +:+ OPENCLAW_TOKEN)]);
     written :=
       JObj ([("model", JStr "openclaw");
              ("messages",
               JArr [JObj [("role", JStr "system"); ("content", JStr SYSTEM_PROMPT)];
                     JObj [("role", JStr "user"); ("content", JStr message)]])]
             ++ (if truthy rt sessionId
                 then [("user", default JNull sessionId)] else [])
             ++ [("max_tokens", JNum (literal 500))]) |}.

(** [handleChat] up to the [await]: an answer at once, or the exchange
    with the gateway under way. *)
Definition handleChat (req : Incoming) (now : Z) (hits : gmap string (list Z))
    : (Reply + Exchange) * gmap string (list Z) :=
  let '(limited, hits) := RateLimit.rateLimit (ip req) now hits in
  if limited
  then (inl {| status := 429; payload := ErrorBody "rate limited" |}, hits)
  else
  let b := match body req with
           | Some b => if truthy rt (Some b) then b else JObj []
           | None => JObj []
           end in
  match prop b "message" with
  | Some (JStr message) =>
      if String.eqb message EmptyString
      then (inl {| status := 400; payload := ErrorBody "missing message" |}, hits)
      else (inr {| call := gateway_call message (sessionId_of req b);
                   chunks := None; settled := None; answers := [] |}, hits)
  | _ => (inl {| status := 400; payload := ErrorBody "missing message" |}, hits)
  end.

(** [resolve(v)] and [reject(e)]: a settled promise stays as it is;
    settling resumes [handleChat] at its [await], lines 105-106 or
    108-110. *)
Definition settle (outcome : Settled) (x : Exchange) : Exchange :=
  match settled x with
  | Some _ => x
  | None =>
      {| call := call x; chunks := chunks x; settled := Some outcome;
         answers := answers x
                    ++ [match outcome with
                        | Fulfilled reply =>
                            {| status := 200; payload := ResponseBody reply |}
                        | Rejected => glitch
                        end] |}
  end.

(** [data.choices?.[0]?.message?.content], [data] not [null] *)
Definition content_of (data : Json) : option Json :=
  match prop data "choices" with
  | None | Some JNull => None
  | Some choices =>
      match Mailbox.first_of rt choices with
      | None | Some JNull => None
      | Some choice =>
          match prop choice "message" with
          | None | Some JNull => None
          | Some message => prop message "content"
          end
      end
  end.

(** The events of the request and of its response. *)
Inductive Event :=
| Response                 (* the callback of line 62 runs *)
| Data (chunk : string)    (* line 64 *)
| End                      (* lines 65-71 *)
| Error                    (* line 73 *)
| Timeout.                 (* lines 74-77 *)

Definition deliver (x : Exchange) (e : Event) : Exchange :=
  match e with
  | Response =>
      {| call := call x; chunks := Some []; settled := settled x;
         answers := answers x |}
  | Data c =>
      {| call := call x; chunks := (λ l, l ++ [c]) <$> chunks x;
         settled := settled x; answers := answers x |}
  | End =>
      match chunks x with
      | Some l =>
          match JSON_parse (String.concat EmptyString l) with
          | None | Some JNull => settle Rejected x
          | Some data =>
              settle (Fulfilled (or_str rt (content_of data) "no response from LLM")) x
          end
      | None => x
      end
  | Error => settle Rejected x
  | Timeout => settle Rejected x
  end.

Definition run (events : list Event) (x : Exchange) : Exchange :=
  foldl deliver x events.

(** ** Facts *)

Lemma deliver_settled x e o :
  settled x = Some o → settled (deliver x e) = Some o ∧ answers (deliver x e) = answers x.
Proof.
  intros Hs. destruct e; simpl; try done; unfold settle; rewrite ?Hs; try done.
  destruct (chunks x) as [l|]; [|done].
  destruct (JSON_parse _) as [[]|]; by rewrite Hs.
Qed.

Lemma run_settled events : ∀ x o,
  settled x = Some o →
  settled (run events x) = Some o ∧ answers (run events x) = answers x.
Proof.
  induction events as [|e events IH]; intros x o Hs; [done|]. simpl.
  destruct (deliver_settled x e o Hs) as [Hs' Ha].
  destruct (IH _ _ Hs') as [? ->]. done.
Qed.

Lemma deliver_pending x e :
  settled x = None →
  (settled (deliver x e) = None ∧ answers (deliver x e) = answers x)
  ∨ (∃ o r, settled (deliver x e) = Some o ∧ answers (deliver x e) = answers x ++ [r]).
Proof.
  intros Hs. destruct e; simpl; unfold settle; rewrite ?Hs;
    try (by left); try (right; by eexists _, _).
  destruct (chunks x) as [l|]; [|by left].
  destruct (JSON_parse _) as [[]|]; rewrite ?Hs; right; by eexists _, _.
Qed.

Lemma run_pending events : ∀ x,
  settled x = None →
  answers (run events x) = answers x
  ∨ ∃ r, answers (run events x) = answers x ++ [r].
Proof.
  induction events as [|e events IH]; intros x Hs; [by left|]. simpl.
  destruct (deliver_pending x e Hs) as [[Hs' Ha]|(o & r & Hs' & Ha)].
  - rewrite <- Ha. by apply IH.
  - right. exists r. destruct (run_settled events _ _ Hs') as [_ ->]. done.
Qed.

(** X26.  One request, at most one answer.  Whatever events the gateway
    call goes through, in whatever order, [handleChat] sends at most one
    answer, decided by the first event that settles the promise; what
    follows changes nothing.  In particular a timeout is answered with the
    glitch text once, also when the destroyed request then emits its
    ['error'] -- the sequence on which the tunnel client answers twice. *)
Theorem promise_settles_once (x : Exchange) :
  settled x = None → answers x = [] →
  (∀ events, (length (answers (run events x)) ≤ 1)%nat)
  ∧ (∀ e events, settled (deliver x e) ≠ None →
       answers (run (e :: events) x) = answers (deliver x e)
       ∧ length (answers (deliver x e)) = 1%nat)
  ∧ (∀ events, answers (run (Timeout :: Error :: events) x) = [glitch]).
Proof.
  intros Hs Ha. split; [|split].
  - intros events. destruct (run_pending events x Hs) as [->|[r ->]];
      rewrite Ha; simpl; lia.
  - intros e events Hne. simpl.
    destruct (settled (deliver x e)) as [o|] eqn:E; [|done].
    destruct (run_settled events _ _ E) as [_ ->]. split; [done|].
    destruct (deliver_pending x e Hs) as [[Hs' _]|(o' & r & _ & ->)]; [congruence|].
    by rewrite Ha.
  - intros events.
    assert (E : settled (deliver x Timeout) = Some Rejected)
      by (simpl; unfold settle; by rewrite Hs).
    change (run (Timeout :: Error :: events) x)
      with (run (Error :: events) (deliver x Timeout)).
    destruct (run_settled (Error :: events) _ _ E) as [_ ->].
    simpl. unfold settle. by rewrite Hs, Ha.
Qed.

Lemma run_data pre : ∀ l (y : Exchange),
  chunks y = Some l →
  chunks (run (map Data pre) y) = Some (l ++ pre)
  ∧ settled (run (map Data pre) y) = settled y
  ∧ answers (run (map Data pre) y) = answers y.
Proof.
  induction pre as [|c pre IH]; intros l y Hc.
  - by rewrite app_nil_r.
  - simpl. destruct (IH (l ++ [c]) (deliver y (Data c))) as (H1 & H2 & H3).
    + simpl. by rewrite Hc.
    + by rewrite <- app_assoc in H1.
Qed.

(** X27.  A response of the gateway that arrives whole -- the callback, the
    chunks, the end -- gets the caller exactly one answer, with status 200:
    the first choice's content when the concatenated chunks parse to a
    value that has a truthy one, ['no response from LLM'] when they parse
    to a value without, and the glitch text when they do not parse or
    parse to [null]. *)
Theorem gateway_answer (x : Exchange) (pre : list string) :
  settled x = None → answers x = [] →
  answers (run (Response :: map Data pre ++ [End]) x)
  = [match JSON_parse (String.concat EmptyString pre) with
     | None | Some JNull => glitch
     | Some data =>
         {| status := 200;
            payload := ResponseBody
                         (match content_of data with
                          | Some v => if truthy rt (Some v) then v
                                      else JStr "no response from LLM"
                          | None => JStr "no response from LLM"
                          end) |}
     end].
Proof.
  intros Hs Ha. unfold run. simpl. rewrite foldl_app. simpl.
  destruct (run_data pre [] (deliver x Response)) as (H1 & H2 & H3); [done|].
  unfold run in H1, H2, H3. simpl in H1, H2, H3. rewrite H1. simpl.
  unfold settle. rewrite H2, H3, Hs, Ha. simpl.
  destruct (JSON_parse _) as [data|]; [|done].
  destruct data; simpl; unfold or_str; try done; by destruct (content_of _).
Qed.

End Model.

(** A request with a message, no token configured; the gateway of the
    example sends one completion in two chunks, and the parser knows that
    text. *)
Definition demo_env : Env := {| OPENCLAW_PORT_var := None; OPENCLAW_TOKEN_var := None |}.

Definition completion_text : string := "{choices:[{message:{content:hi}}]}".

Definition completion : JSON Z :=
  JObj [("choices", JArr [JObj [("message", JObj [("content", JStr "hi")])]])].

Definition parse_one (text : string) : option (JSON Z) :=
  if String.eqb text completion_text then Some completion else None.

Definition asked : Exchange int_runtime :=
  {| call := gateway_call int_runtime demo_env id "be brief" "hello" None;
     chunks := None; settled := None; answers := [] |}.

Lemma asked_by_handleChat :
  (handleChat int_runtime demo_env id "be brief"
     {| ip := "203.0.113.7"; body := Some (JObj [("message", JStr "hello")]);
        session_header := None |} 0 ∅).1
  = inr asked.
Proof. vm_compute; reflexivity. Qed.

Lemma promise_settles_once_witness :
  answers _ (run int_runtime parse_one [Timeout; Error] asked) = [glitch int_runtime].
Proof.
  destruct (promise_settles_once int_runtime parse_one asked) as (_ & _ & Honce);
    [reflexivity | reflexivity |].
  exact (Honce []).
Defined.

Lemma gateway_answer_witness :
  answers _ (run int_runtime parse_one
               [Response; Data "{choices:[{message:"; Data "{content:hi}}]}"; End]
               asked)
  = [{| status := 200; payload := ResponseBody _ (JStr "hi") |}].
Proof.
  exact (gateway_answer int_runtime parse_one asked
           ["{choices:[{message:"; "{content:hi}}]}"] eq_refl eq_refl).
Defined.

End OpenClawApi.
